(** * Reranker: cross-encoder reranking and ranking-quality metrics

    A shallow embedding of [reranker.js] (classes [ModelLoader] and
    [NativeEmbeddingReranker]) and of the [EvaluationMetrics] class of the
    test suite, with the properties of the specification stated over it.

    Conventions of the embedding:
    - a JavaScript number is a real number ([R]); rounding, infinities and
      the arithmetic of [NaN] are outside the model, but the value [NaN]
      itself is kept ([VNaN]) where the code can produce it from an absent
      operand;
    - a plain JavaScript object used as a record of named fields is a
      [gmap string _];
    - a function that can throw returns a [result]; a call that may also
      run forever returns an [outcome];
    - an [async] method is a transition system over the pieces it runs
      without interruption;
    - [Math.exp], [Math.log2] are the real functions [exp] and [ln x / ln 2];
    - the conversion of a string to a number, which the comparator of the
      sort applies to a score that is a string, is a parameter
      ([StringToNumber]). *)

From Stdlib Require Import Reals Lra Lia Ascii.
From stdpp Require Import gmap strings list fin_maps pretty sorting.

(** Equality of real numbers is decidable (classically). *)
#[global] Instance R_eq_dec : EqDecision R := Req_dec_T.

(** ** JavaScript values *)

Inductive value : Type :=
  | VUndefined
  | VNaN
  | VNumber (r : R)
  | VString (s : string).

(** [ToBoolean]: [undefined], [NaN], [0] and the empty string are falsy. *)
Definition ToBoolean (v : value) : bool :=
  match v with
  | VUndefined => false
  | VNaN => false
  | VNumber r => if Req_dec_T r 0 then false else true
  | VString s => if decide (s = "") then false else true
  end.

(** Thrown exceptions. *)
Inductive error : Type :=
  | NotInitialized (modelName : string)
  | TypeError
  | BackendError (msg : string).

Inductive result (A : Type) : Type :=
  | Ok (a : A)
  | Throw (e : error).
Arguments Ok {A} a.
Arguments Throw {A} e.

#[global] Instance result_ret : MRet result := fun A a => Ok a.
#[global] Instance result_bind : MBind result := fun A B k r =>
  match r with
  | Ok a => k a
  | Throw e => Throw e
  end.

(** [for (let i = 0; i < n; i++) acc = body(acc, i)] *)
Definition for_range {A} (n : nat) (body : A -> nat -> A) (init : A) : A :=
  fold_left body (seq 0 n) init.

(** ** EvaluationMetrics (test-suite.js) *)

Module EvaluationMetrics.
Local Open Scope R_scope.

(** A ranked passage; only its relevance flag is read by the metrics. *)
Record passage := Passage { isRelevant : bool }.

(** One entry of [queryResults]: [error] is the recorded failure, if any. *)
Record queryResult := QueryResult {
  qr_error : value;
  rankedPassages : list passage
}.

Definition log2 (x : R) : R := ln x / ln 2.

(** [rankedPassages[i].isRelevant ? 1 : 0] *)
Definition relevance (ps : list passage) (i : nat) : R :=
  match ps !! i with
  | Some p => if isRelevant p then 1 else 0
  | None => 0
  end.

Definition calculateMRR (ps : list passage) (k : nat) : R :=
  let relevantRanks :=
    for_range (Nat.min (length ps) k)
      (fun ranks i =>
         match ps !! i with
         | Some p => if isRelevant p then ranks ++ [S i] else ranks
         | None => ranks
         end) [] in
  match relevantRanks with
  | [] => 0
  | r :: _ => 1 / INR r
  end.

Definition calculateDCG (ps : list passage) (k : nat) : R :=
  for_range (Nat.min (length ps) k)
    (fun dcg i =>
       if decide (i = 0%nat) then dcg + relevance ps i
       else dcg + relevance ps i / log2 (INR (i + 1)))
    0.

Definition calculateIDCG (ps : list passage) (k : nat) : R :=
  let relevantCount := length (List.filter isRelevant ps) in
  let maxRelevant := Nat.min relevantCount k in
  for_range maxRelevant
    (fun idcg i =>
       if decide (i = 0%nat) then idcg + 1
       else idcg + 1 / log2 (INR (i + 1)))
    0.

Definition calculateNDCG (ps : list passage) (k : nat) : R :=
  let dcg := calculateDCG ps k in
  let idcg := calculateIDCG ps k in
  if Rlt_dec 0 idcg then dcg / idcg else 0.

Definition calculatePrecisionAtK (ps : list passage) (k : nat) : R :=
  if decide (k = 0%nat \/ length ps = 0%nat) then 0
  else
    let topK := take (Nat.min k (length ps)) ps in
    let relevantInTopK := length (List.filter isRelevant topK) in
    INR relevantInTopK / INR (Nat.min k (length ps)).

Definition calculateRecallAtK (ps : list passage) (k : nat) : R :=
  let totalRelevant := length (List.filter isRelevant ps) in
  if decide (totalRelevant = 0%nat) then 0
  else
    let topK := take (Nat.min k (length ps)) ps in
    let relevantInTopK := length (List.filter isRelevant topK) in
    INR relevantInTopK / INR totalRelevant.

(** The template string [`${name}@${k}`]. *)
Definition metricKey (name : string) (k : nat) : string :=
  name +:+ "@" +:+ pretty k.

Definition calculateAllMetrics (ps : list passage) (kValues : list nat)
  : gmap string R :=
  fold_left
    (fun metrics k =>
       <[metricKey "Recall" k := calculateRecallAtK ps k]>
       (<[metricKey "Precision" k := calculatePrecisionAtK ps k]>
       (<[metricKey "NDCG" k := calculateNDCG ps k]>
       (<[metricKey "MRR" k := calculateMRR ps k]> metrics))))
    kValues ∅.

Definition noValidResults : string := "No valid results to calculate metrics".

(** [metricSums[metricName] += value]; every key read here was initialised
    to [0] before, so the default is never used. *)
Definition addTo (metricName : string) (v : R) (metricSums : gmap string R)
  : gmap string R :=
  <[metricName := default 0 (metricSums !! metricName) + v]> metricSums.

Definition calculateAverageMetrics
    (queryResults : list queryResult) (kValues : list nat)
  : gmap string value :=
  if decide (length queryResults = 0%nat) then ∅
  else
    let validResults :=
      List.filter (fun r => negb (ToBoolean (qr_error r))) queryResults in
    if decide (length validResults = 0%nat) then
      {[ "error" := VString noValidResults ]}
    else
      let metricSums0 : gmap string R :=
        fold_left
          (fun sums k =>
             <[metricKey "Recall" k := 0]>
             (<[metricKey "Precision" k := 0]>
             (<[metricKey "NDCG" k := 0]>
             (<[metricKey "MRR" k := 0]> sums))))
          kValues ∅ in
      let metricSums :=
        fold_left
          (fun sums r =>
             let metrics := calculateAllMetrics (rankedPassages r) kValues in
             map_fold addTo sums metrics)
          validResults metricSums0 in
      let averageMetrics : gmap string value :=
        map_fold
          (fun metricName sum avg =>
             <[metricName := VNumber (sum / INR (length validResults))]> avg)
          ∅ metricSums in
      <["errorQueries" :=
          VNumber (INR (length queryResults) - INR (length validResults))]>
      (<["validQueries" := VNumber (INR (length validResults))]>
      (<["totalQueries" := VNumber (INR (length queryResults))]>
       averageMetrics)).

(** *** The metrics in the words of the specification *)

Module Spec.

(** Rank 1 counts in full; rank [r > 1] is divided by [log2 r]. *)
Definition discounted (rel : R) (rank : nat) : R :=
  if decide (rank = 1%nat) then rel else rel / log2 (INR rank).

Definition rel_of (p : passage) : R := if isRelevant p then 1 else 0.

(** Sum of the discounted relevances of [ps], whose head has rank [rank]. *)
Fixpoint DCG_from (rank : nat) (ps : list passage) : R :=
  match ps with
  | [] => 0
  | p :: rest => discounted (rel_of p) rank + DCG_from (S rank) rest
  end.

(** DCG@k: over the first [k] items. *)
Definition DCG (ps : list passage) (k : nat) : R := DCG_from 1 (take k ps).

(** The ideal ordering: every relevant item placed first. *)
Definition ideal (ps : list passage) : list passage :=
  List.filter isRelevant ps ++ List.filter (fun p => negb (isRelevant p)) ps.

Definition IDCG (ps : list passage) (k : nat) : R := DCG (ideal ps) k.

(** NDCG@k = DCG@k / IDCG@k, and 0 when IDCG@k = 0. *)
Definition NDCG (ps : list passage) (k : nat) : R :=
  if Req_dec_T (IDCG ps k) 0 then 0 else DCG ps k / IDCG ps k.

(** Arithmetic mean of [f] over a non-empty list. *)
Definition mean {A} (f : A -> R) (l : list A) : R :=
  fold_right Rplus 0 (map f l) / INR (length l).

Definition valid (r : queryResult) : bool := negb (ToBoolean (qr_error r)).

End Spec.

End EvaluationMetrics.

(** ** ModelLoader (reranker.js): scoring *)

Module ModelLoader.
Local Open Scope R_scope.

(** What the tokenizer hands to the network. *)
Record features := Features {
  input_ids : list (list Z);
  attention_mask : list (list Z)
}.

(** The logits of one forward pass: [logits.dims] and [logits.tolist()]. *)
Record tensor := Tensor { dims : list nat; tolist : list (list R) }.

(** The network handle: [config.id2label] (empty when the configuration has
    none) and the forward pass, which may fail. *)
Record model := Model {
  id2label : gmap nat string;
  forward : features -> result tensor
}.

(** The tokenizer handle, called as
    [tokenizer(queries, { text_pair: passages, padding, truncation })]. *)
Definition tokenizer : Type := list string -> list value -> result features.

(** The static maps [#models] and [#tokenizers], keyed by model name. *)
Record cache := Cache {
  models : gmap string model;
  tokenizers : gmap string tokenizer
}.

Definition sigmoid (x : R) : R := 1 / (1 + exp (- x)).

(** [arr.reduce((a, b) => a + b)]: without an initial value it throws on an
    empty array. *)
Definition reduce_sum (arr : list R) : result R :=
  match arr with
  | [] => Throw TypeError
  | x :: rest => Ok (fold_left Rplus rest x)
  end.

Definition softmax (arr : list R) : result (list R) :=
  let exps := map exp arr in
  sumExps ← reduce_sum exps;
  Ok (map (fun e => e / sumExps) exps).

(** Case folding of the [i] flag on ASCII letters. *)
Definition lower (c : ascii) : ascii :=
  let n := nat_of_ascii c in
  if (65 <=? n)%nat && (n <=? 90)%nat then ascii_of_nat (n + 32) else c.

Fixpoint starts_with_ci (pat s : string) : bool :=
  match pat, s with
  | EmptyString, _ => true
  | String _ _, EmptyString => false
  | String p pat', String c s' =>
      if decide (lower p = lower c) then starts_with_ci pat' s' else false
  end.

(** An unanchored, case-insensitive search for the literal [pat]. *)
Fixpoint search_ci (pat s : string) : bool :=
  starts_with_ci pat s ||
  match s with
  | EmptyString => false
  | String _ s' => search_ci pat s'
  end.

(** [/relevant|positive/i.test(label)] *)
Definition regex_test (label : string) : bool :=
  search_ci "relevant" label || search_ci "positive" label.

(** [Object.keys] of an object whose keys are array indices: ascending. *)
Definition Object_keys (o : gmap nat string) : list nat :=
  merge_sort le (elements (dom o)).

(** [Number(Object.keys(id2label).find(key => re.test(id2label[key])) ?? 1)] *)
Definition positiveClassIndex (id2label : gmap nat string) : nat :=
  default 1%nat
    (List.find
       (fun key => match id2label !! key with
                   | Some l => regex_test l
                   | None => false
                   end)
       (Object_keys id2label)).

(** One element of the returned array. *)
Record scored := Scored { score : value; label : string }.

(** [([logit]) => sigmoid(logit)]: an empty row binds [logit] to
    [undefined], whose sigmoid is [NaN]. *)
Definition sigmoid_first (row : list R) : value :=
  match row with
  | logit :: _ => VNumber (sigmoid logit)
  | [] => VNaN
  end.

(** [row[i]] *)
Definition at_index (i : nat) (row : list R) : value :=
  match row !! i with
  | Some p => VNumber p
  | None => VUndefined
  end.

(** [score > 0.5 ? 'RELEVANT' : 'NOT_RELEVANT'], for the values a score
    can take here (a number, [NaN] or [undefined]). *)
Definition label_of (s : value) : string :=
  match s with
  | VNumber r => if Rlt_dec 0.5 r then "RELEVANT" else "NOT_RELEVANT"
  | _ => "NOT_RELEVANT"
  end.

(** [shape.length > 1 && shape[1] === 1] *)
Definition single_logit (shape : list nat) : bool :=
  match shape !! 1%nat with
  | Some 1%nat => true
  | _ => false
  end.

Definition getScores (c : cache) (modelName : string)
    (queryPassagePairs : list (string * value)) : result (list scored) :=
  match models c !! modelName, tokenizers c !! modelName with
  | Some model, Some tokenizer =>
      if decide (length queryPassagePairs = 0%nat) then Ok []
      else
        let positiveClassIndex := positiveClassIndex (id2label model) in
        let queries := map fst queryPassagePairs in
        let passages := map snd queryPassagePairs in
        features ← tokenizer queries passages;
        logits ← forward model features;
        let shape := dims logits in
        let logitsData := tolist logits in
        scores ←
          (if single_logit shape then
             Ok (map sigmoid_first logitsData)
           else
             probabilities ← mapM softmax logitsData;
             Ok (map (at_index positiveClassIndex) probabilities));
        Ok (map (fun s => Scored s (label_of s)) scores)
  | _, _ => Throw (NotInitialized modelName)
  end.

(** *** Score normalisation in the words of the specification *)

Module Spec.

(** The logistic transform [1 / (1 + e^-x)]. *)
Definition logistic (x : R) : R := / (1 + exp (- x)).

(** The softmax probability of column [i] of [row]. *)
Definition softmax_at (row : list R) (i : nat) : option R :=
  (fun x => exp x / fold_right Rplus 0 (map exp row)) <$> row !! i.

(** [w] equals [pat] up to the case of ASCII letters. *)
Fixpoint fold_case (s : string) : string :=
  match s with
  | EmptyString => EmptyString
  | String c s' => String (lower c) (fold_case s')
  end.

Definition eq_ci (w pat : string) : Prop := fold_case w = fold_case pat.

(** [pat] occurs in [s], ignoring case. *)
Definition occurs_ci (pat s : string) : Prop :=
  exists pre w post, s = pre +:+ w +:+ post /\ eq_ci w pat.

Definition positive_label (l : string) : Prop :=
  occurs_ci "relevant" l \/ occurs_ci "positive" l.

(** [i] is the first label index with a positive label; 1 when there is
    none. *)
Definition is_positive_index (id2label : gmap nat string) (i : nat) : Prop :=
  (exists l, id2label !! i = Some l /\ positive_label l /\
     forall j l', (j < i)%nat -> id2label !! j = Some l' -> ~ positive_label l')
  \/
  (i = 1%nat /\ forall j l', id2label !! j = Some l' -> ~ positive_label l').

End Spec.

End ModelLoader.

(** ** ModelLoader (reranker.js): initialisation and the cache

    [initialize] is an [async] method: it runs without interruption up to
    an [await] and is resumed when the awaited promise settles. The
    embedding is a transition system whose steps are the uninterrupted
    pieces: a call of [initialize] up to its first [await], the settling
    of a pending model or tokenizer load (with what the [try], [catch] and
    [finally] blocks do next), and a call of [clearCache]. *)

Module Initialization.
Import ModelLoader.

(** Where a running initialisation is suspended. *)
Inductive phase : Type :=
  | LoadingModel
  | LoadingTokenizer (m : model).

(** A request sent to the backend loader. *)
Inductive request : Type :=
  | ModelRequest (key : string)
  | TokenizerRequest (key : string).

#[global] Instance request_eq_dec : EqDecision request.
Proof. solve_decision. Defined.

(** A call of [initialize]: suspended on a promise, or finished. *)
Inductive call_status : Type :=
  | Waiting (promise : nat)
  | Done (r : result unit).

Record state := State {
  (** the static maps of [ModelLoader] *)
  models : gmap string model;
  tokenizers : gmap string tokenizer;
  initializationPromises : gmap string nat;
  (** the initialisations that are running, by promise *)
  tasks : gmap nat (string * phase);
  (** the calls of [initialize] made so far, with the key they were for *)
  calls : gmap nat (string * call_status);
  (** the requests sent to the backend so far *)
  requests : list request;
  next_promise : nat;
  next_call : nat
}.

Definition initial : state := State ∅ ∅ ∅ ∅ ∅ [] 0 0.

(** The promise [p] settles with [r]: every call awaiting it finishes
    with [r]. *)
Definition settle (p : nat) (r : result unit)
    (cs : gmap nat (string * call_status)) : gmap nat (string * call_status) :=
  (fun kc : string * call_status =>
     match snd kc with
     | Waiting q => if decide (q = p) then (fst kc, Done r) else kc
     | Done _ => kc
     end) <$> cs.

(** A call of [initialize()] on a loader for [key], up to its first
    [await] (or to its [return]). *)
Definition initialize (key : string) (s : state) : state :=
  let id := next_call s in
  if decide (is_Some (models s !! key)) then
    State (models s) (tokenizers s) (initializationPromises s) (tasks s)
          (<[id := (key, Done (Ok ()))]> (calls s))
          (requests s) (next_promise s) (S id)
  else
    match initializationPromises s !! key with
    | Some p =>
        State (models s) (tokenizers s) (initializationPromises s) (tasks s)
              (<[id := (key, Waiting p)]> (calls s))
              (requests s) (next_promise s) (S id)
    | None =>
        let p := next_promise s in
        State (models s) (tokenizers s)
              (<[key := p]> (initializationPromises s))
              (<[p := (key, LoadingModel)]> (tasks s))
              (<[id := (key, Waiting p)]> (calls s))
              (requests s ++ [ModelRequest key]) (S p) (S id)
    end.

(** The model load awaited by the initialisation [p] settles with [r]. *)
Definition model_settles (p : nat) (r : result model) (s : state) : state :=
  match tasks s !! p with
  | Some (key, LoadingModel) =>
      match r with
      | Ok m =>
          State (models s) (tokenizers s) (initializationPromises s)
                (<[p := (key, LoadingTokenizer m)]> (tasks s))
                (calls s) (requests s ++ [TokenizerRequest key])
                (next_promise s) (next_call s)
      | Throw e =>
          State (models s) (tokenizers s)
                (delete key (initializationPromises s))
                (delete p (tasks s))
                (settle p (Throw e) (calls s))
                (requests s) (next_promise s) (next_call s)
      end
  | _ => s
  end.

(** The tokenizer load awaited by the initialisation [p] settles with [r]. *)
Definition tokenizer_settles (p : nat) (r : result tokenizer) (s : state)
  : state :=
  match tasks s !! p with
  | Some (key, LoadingTokenizer m) =>
      match r with
      | Ok t =>
          State (<[key := m]> (models s)) (<[key := t]> (tokenizers s))
                (delete key (initializationPromises s))
                (delete p (tasks s))
                (settle p (Ok ()) (calls s))
                (requests s) (next_promise s) (next_call s)
      | Throw e =>
          State (models s) (tokenizers s)
                (delete key (initializationPromises s))
                (delete p (tasks s))
                (settle p (Throw e) (calls s))
                (requests s) (next_promise s) (next_call s)
      end
  | _ => s
  end.

(** [ModelLoader.clearCache(modelNameToClear)]; a falsy argument ([null] or
    the empty string) clears everything. Running initialisations go on. *)
Definition clearCache (modelNameToClear : option string) (s : state) : state :=
  match modelNameToClear with
  | Some key =>
      if decide (key = "") then
        State ∅ ∅ ∅ (tasks s) (calls s) (requests s)
              (next_promise s) (next_call s)
      else
        State (delete key (models s)) (delete key (tokenizers s))
              (delete key (initializationPromises s))
              (tasks s) (calls s) (requests s) (next_promise s) (next_call s)
  | None =>
      State ∅ ∅ ∅ (tasks s) (calls s) (requests s)
            (next_promise s) (next_call s)
  end.

Inductive event : Type :=
  | Initialize (key : string)
  | ModelSettles (p : nat) (r : result model)
  | TokenizerSettles (p : nat) (r : result tokenizer)
  | ClearCache (modelNameToClear : option string).

Definition step (s : state) (e : event) : state :=
  match e with
  | Initialize key => initialize key s
  | ModelSettles p r => model_settles p r s
  | TokenizerSettles p r => tokenizer_settles p r s
  | ClearCache o => clearCache o s
  end.

Definition run (s : state) (schedule : list event) : state :=
  fold_left step schedule s.

(** *** The statement of the specification *)

Module Spec.

(** The event does not evict [key]. *)
Definition keeps (key : string) (e : event) : Prop :=
  match e with
  | ClearCache None => False
  | ClearCache (Some k) => k <> "" /\ k <> key
  | _ => True
  end.

(** The number of model loads requested for [key]. *)
Definition model_loads (key : string) (s : state) : nat :=
  length (filter (fun r => r = ModelRequest key) (requests s)).

(** The number of tokenizer loads requested for [key]. *)
Definition tokenizer_loads (key : string) (s : state) : nat :=
  length (filter (fun r => r = TokenizerRequest key) (requests s)).

(** The initialisation [p] is still running. *)
Definition pending (p : nat) (s : state) : Prop := is_Some (tasks s !! p).

(** The calls of [initialize] for [key] numbered [from] and later. *)
Definition caller (key : string) (from : nat) (s : state) (id : nat) : Prop :=
  (from <= id)%nat /\ exists st, calls s !! id = Some (key, st).

End Spec.

End Initialization.

(** ** NativeEmbeddingReranker (reranker.js): rerank *)

Module NativeEmbeddingReranker.
Import ModelLoader.
Local Open Scope R_scope.

(** A document is a string or an object with (at least) a [text] field. *)
Inductive document : Type :=
  | DString (s : string)
  | DObject (o : gmap string value).

(** The [options] argument; an absent field takes its default. *)
Record options := Options {
  topK : option Z;
  batchSize : option nat
}.

(** What a call does: return, throw, or never finish. *)
Inductive outcome (A : Type) : Type :=
  | Returned (a : A)
  | Thrown (e : error)
  | Diverged.
Arguments Returned {A} a.
Arguments Thrown {A} e.
Arguments Diverged {A}.

(** [arr.slice(start, end)], negative arguments counting from the end. *)
Definition Array_slice {A} (arr : list A) (start end_ : Z) : list A :=
  let len := Z.of_nat (length arr) in
  let k := if (start <? 0)%Z then Z.max (len + start) 0 else Z.min start len in
  let final := if (end_ <? 0)%Z then Z.max (len + end_) 0 else Z.min end_ len in
  take (Z.to_nat (final - k)) (drop (Z.to_nat k) arr).

(** [typeof doc === 'string' ? doc : doc.text] *)
Definition text_of (doc : document) : value :=
  match doc with
  | DString s => VString s
  | DObject o => default VUndefined (o !! "text")
  end.

(** [{ _rerank_corpus_id: originalIndex, _rerank_score: score, ...fields }]
    where [fields] is [{ text: doc }] for a string, the document itself for
    an object, and nothing when [documents[originalIndex]] is [undefined].
    Fields spread later overwrite the ones written first. *)
Definition resultItem (originalIndex : nat) (score : value)
    (doc : option document) : gmap string value :=
  let computed : gmap string value :=
    <["_rerank_score" := score]>
      (<["_rerank_corpus_id" := VNumber (INR originalIndex)]> ∅) in
  match doc with
  | Some (DString s) => <["text" := VString s]> computed
  | Some (DObject o) => o ∪ computed
  | None => computed
  end.

Section Sorting.

(** [StringToNumber] of ECMAScript: the number a string denotes, if any. *)
Variable StringToNumber : string -> option R.

(** [ToNumber]; [None] stands for [NaN]. *)
Definition ToNumber (v : value) : option R :=
  match v with
  | VUndefined => None
  | VNaN => None
  | VNumber r => Some r
  | VString s => StringToNumber s
  end.

Definition field (k : string) (o : gmap string value) : value :=
  default VUndefined (o !! k).

(** [(a, b) => b._rerank_score - a._rerank_score] *)
Definition compareFn (a b : gmap string value) : option R :=
  match ToNumber (field "_rerank_score" b), ToNumber (field "_rerank_score" a) with
  | Some x, Some y => Some (x - y)
  | _, _ => None
  end.

(** [a] is not moved behind [b]: the comparator's result is not positive
    ([NaN] counts as [+0]). *)
Definition keeps_order (a b : gmap string value) : bool :=
  match compareFn a b with
  | Some v => if Rle_dec v 0 then true else false
  | None => true
  end.

Fixpoint insert_sorted (a : gmap string value) (l : list (gmap string value))
  : list (gmap string value) :=
  match l with
  | [] => [a]
  | b :: l' => if keeps_order a b then a :: b :: l' else b :: insert_sorted a l'
  end.

(** [arr.sort(compareFn)]: a stable sort (ECMAScript 2019), here by
    insertion; when the compared scores are numbers every stable sort
    returns the same list ([Array_sort_unique] below). *)
Definition Array_sort (arr : list (gmap string value))
  : list (gmap string value) :=
  foldr insert_sorted [] arr.

Section Rerank.

Variable c : cache.
Variable modelName : string.
Variable query : string.
Variable documents : list document.
Variable batchSize_ : nat.

(** The [for] loop over the chunks; [fuel] bounds the iterations that are
    unfolded. *)
Fixpoint rerank_loop (fuel : nat) (i : nat)
    (allResults : list (gmap string value))
  : outcome (list (gmap string value)) :=
  if decide (i < length documents)%nat then
    match fuel with
    | O => Diverged
    | S fuel' =>
        let chunkStart := i in
        let chunkEnd := Nat.min (i + batchSize_) (length documents) in
        let chunk :=
          Array_slice documents (Z.of_nat chunkStart) (Z.of_nat chunkEnd) in
        let queryDocPairs := map (fun doc => (query, text_of doc)) chunk in
        match getScores c modelName queryDocPairs with
        | Throw e => Thrown e
        | Ok chunkScores =>
            let chunkResults :=
              imap (fun j r =>
                      let originalIndex := (chunkStart + j)%nat in
                      resultItem originalIndex (score r)
                                 (documents !! originalIndex))
                   chunkScores in
            rerank_loop fuel' (i + batchSize_) (allResults ++ chunkResults)
        end
    end
  else Returned allResults.

End Rerank.

(** [rerank(query, documents, options)] of the reranker whose model is
    [modelName]. A loop that is still running after [documents.length]
    iterations never ends: its index has not advanced. *)
Definition rerank (c : cache) (modelName : string) (query : string)
    (documents : list document) (opts : options)
  : outcome (list (gmap string value)) :=
  if decide (length documents = 0%nat) then Returned []
  else
    let topK := default 4%Z (topK opts) in
    let batchSize := default 128%nat (batchSize opts) in
    match rerank_loop c modelName query documents batchSize
            (length documents) 0 [] with
    | Returned allResults =>
        let reranked := Array_sort allResults in
        let finalTopK := Array_slice reranked 0 topK in
        Returned finalTopK
    | Thrown e => Thrown e
    | Diverged => Diverged
    end.

End Sorting.

(** *** The statements of the specification about [rerank] *)

Module Spec.

Section WithStringToNumber.
Variable StringToNumber : string -> option R.

(** The score an item exposes, as a number; [None] when it is not one. *)
Definition score_of (it : gmap string value) : option R :=
  ToNumber StringToNumber (field "_rerank_score" it).

(** [b] may follow [a] in a descending sequence of scores. *)
Definition not_below (a b : gmap string value) : Prop :=
  exists x y, score_of a = Some x /\ score_of b = Some y /\ y <= x.

(** The score sequence is non-increasing. *)
Definition non_increasing (l : list (gmap string value)) : Prop :=
  Sorted not_below l.

(** A [_rerank_score] field of the document itself, if any, is a number. *)
Definition own_score_numeric (d : document) : Prop :=
  match d with
  | DString _ => True
  | DObject o =>
      forall v, o !! "_rerank_score" = Some v ->
                is_Some (ToNumber StringToNumber v)
  end.

End WithStringToNumber.

(** The document has no field named [k] of its own. *)
Definition lacks (k : string) (d : document) : Prop :=
  match d with
  | DString _ => True
  | DObject o => o !! k = None
  end.

(** The item shows the content of the document: a string under [text],
    a record field by field. *)
Definition exposes (it : gmap string value) (d : document) : Prop :=
  match d with
  | DString s => it !! "text" = Some (VString s)
  | DObject o => forall k v, o !! k = Some v -> it !! k = Some v
  end.

(** The backend contract of the specification: for every non-empty batch
    the tokenizer and the network succeed and the logits have one row per
    pair, all of one width, which is 1 or exceeds the positive-class
    index. *)
Definition backend_contract (c : cache) (modelName : string) : Prop :=
  exists m tok,
    models c !! modelName = Some m /\ tokenizers c !! modelName = Some tok /\
    forall pairs : list (string * value), pairs <> [] ->
      exists fs t cols,
        tok (map fst pairs) (map snd pairs) = Ok fs /\
        forward m fs = Ok t /\
        dims t = [length pairs; cols] /\
        length (tolist t) = length pairs /\
        Forall (fun row => length row = cols) (tolist t) /\
        (cols = 1%nat \/ (positiveClassIndex (id2label m) < cols)%nat).

(** A deterministic backend: the logits row of a pair is a function of the
    pair alone, whatever batch it is scored in. *)
Definition deterministic_backend (c : cache) (modelName : string) : Prop :=
  exists m tok cols (rowOf : string -> value -> list R),
    models c !! modelName = Some m /\ tokenizers c !! modelName = Some tok /\
    (1 <= cols)%nat /\ (forall q p, length (rowOf q p) = cols) /\
    forall pairs : list (string * value), pairs <> [] ->
      exists fs,
        tok (map fst pairs) (map snd pairs) = Ok fs /\
        forward m fs =
          Ok (Tensor [length pairs; cols]
                     (map (fun qp => rowOf (fst qp) (snd qp)) pairs)).

End Spec.

End NativeEmbeddingReranker.

(** ** ModelLoader and NativeEmbeddingReranker (reranker.js): reading and
    emptying the cache *)

Module CacheQueries.
Import ModelLoader Initialization.

(** [loader.isLoaded()] for a loader of [modelName]. *)
Definition isLoaded (modelName : string) (s : state) : bool :=
  bool_decide (is_Some (models s !! modelName)) &&
  bool_decide (is_Some (tokenizers s !! modelName)).

(** [loader.getModelAndTokenizer()]; [None] stands for [undefined]. *)
Definition getModelAndTokenizer (modelName : string) (s : state)
  : option model * option tokenizer :=
  (models s !! modelName, tokenizers s !! modelName).

(** [ModelLoader.getCachedModels()]: the names in [#models]. The array
    lists them in the order in which they were stored; only which names
    there are is kept here. *)
Definition getCachedModels (s : state) : gset string := dom (models s).

(** What a [NativeEmbeddingReranker] instance remembers of its options. *)
Record reranker := Reranker {
  model_name : string;
  cacheDir : option string;
  logLevel : string
}.

(** The object returned by [reranker.getModelInfo()]. *)
Record modelInfo := ModelInfo {
  currentModel : string;
  info_isLoaded : bool;
  cacheDirectory : option string;
  totalCachedModels : nat;
  cachedModels : gset string;
  info_logLevel : string
}.

Definition getModelInfo (r : reranker) (s : state) : modelInfo :=
  let cachedModels := getCachedModels s in
  let isLoaded := isLoaded (model_name r) s in
  ModelInfo (model_name r) isLoaded (cacheDir r) (size cachedModels)
            cachedModels (logLevel r).

(** [reranker.dispose()]: [ModelLoader.clearCache(this.model)]. *)
Definition dispose (r : reranker) (s : state) : state :=
  clearCache (Some (model_name r)) s.

End CacheQueries.

(** ** NativeEmbeddingReranker (reranker.js): the default logger *)

Module Logger.

(** The four methods of a logger, which are also the four methods of
    [console] that the default logger writes to. *)
Inductive method : Type := Debug | Info | Warn | Error.

(** A logger: what a call of one of its methods writes, if anything, as
    the [console] method called and the line passed to it. *)
Definition logger : Type := method -> string -> option (method * string).

(** The table [levels] of [createDefaultLogger]. *)
Definition levels : list (string * nat) :=
  [ ("debug", 1); ("info", 2); ("warn", 3); ("error", 4); ("silent", 5) ]%nat.

(** The property names every object literal inherits from
    [Object.prototype]; each of them holds a function or an object. *)
Definition Object_prototype : list string :=
  [ "constructor"; "__defineGetter__"; "__defineSetter__"; "hasOwnProperty";
    "__lookupGetter__"; "__lookupSetter__"; "isPrototypeOf";
    "propertyIsEnumerable"; "toString"; "valueOf"; "__proto__";
    "toLocaleString" ].

(** What [levels[level] || 2] evaluates to: a number, or an inherited
    member (which is truthy, and [NaN] when compared as a number). *)
Inductive level_value : Type :=
  | LNumber (n : nat)
  | LMember (name : string).

Definition own_level (level : string) : option nat :=
  snd <$> List.find (fun kv => bool_decide (fst kv = level)) levels.

Definition currentLevel (level : string) : level_value :=
  match own_level level with
  | Some n => if decide (n = 0%nat) then LNumber 2 else LNumber n
  | None =>
      if decide (level ∈ Object_prototype) then LMember level else LNumber 2
  end.

(** [currentLevel <= n] *)
Definition at_most (v : level_value) (n : nat) : bool :=
  match v with
  | LNumber m => (m <=? n)%nat
  | LMember _ => false
  end.

(** The number each method compares [currentLevel] with, and the tag it
    writes in front of the message. *)
Definition threshold (m : method) : nat :=
  match m with Debug => 1 | Info => 2 | Warn => 3 | Error => 4 end.

Definition tag (m : method) : string :=
  match m with
  | Debug => "[DEBUG] "
  | Info => "[INFO] "
  | Warn => "[WARN] "
  | Error => "[ERROR] "
  end.

Definition createDefaultLogger (level : string) : logger :=
  let currentLevel := currentLevel level in
  fun m message =>
    if at_most currentLevel (threshold m) then Some (m, tag m +:+ message)
    else None.

(** [this.logger = logger || this.createDefaultLogger(logLevel)], where
    [logLevel] is ['info'] when the option is absent. *)
Definition logger_of (custom : option logger) (logLevel : option string)
  : logger :=
  match custom with
  | Some l => l
  | None => createDefaultLogger (default "info" logLevel)
  end.

End Logger.

(** ** Test data (test-suite.js): shuffleArray *)

Module TestData.
Local Open Scope R_scope.

(** A value returned by [Math.random()]: a number in [0, 1). *)
Record random_number := RandomNumber {
  number_of :> R;
  in_unit_interval : 0 <= number_of < 1
}.

(** [Math.floor] *)
Definition floor (x : R) : Z := Int_part x.

(** [[a[i], a[j]] = [a[j], a[i]]]: the right-hand side is read first, then
    [a[i]] and [a[j]] are written in this order. Both indices lie inside
    the array wherever [shuffleArray] swaps. *)
Definition swap {A} (i j : nat) (a : list A) : list A :=
  match a !! i, a !! j with
  | Some x, Some y => <[j := x]> (<[i := y]> a)
  | _, _ => a
  end.

(** The loop [for (let i = shuffled.length - 1; i > 0; i--)]. [random n] is
    the value of the [n]-th call of [Math.random()] and [calls] the number
    of calls made so far. *)
Fixpoint shuffle_loop {A} (random : nat -> random_number) (i : nat)
    (calls : nat) (shuffled : list A) : list A * nat :=
  match i with
  | O => (shuffled, calls)
  | S i' =>
      let j := Z.to_nat (floor (random calls * INR (i + 1))) in
      shuffle_loop random i' (S calls) (swap i j shuffled)
  end.

(** [shuffleArray(array)], with the number of calls of [Math.random()]
    made before and after. *)
Definition shuffleArray {A} (random : nat -> random_number)
    (array : list A) (calls : nat) : list A * nat :=
  let shuffled := array in
  shuffle_loop random (length shuffled - 1) calls shuffled.

End TestData.

(** ** Test data (test-suite.js): generateTestCandidates *)

Module Candidates.
Import TestData.
Local Open Scope R_scope.

(** [table[key]] for a table written as an object literal: an entry of
    its own, a member inherited from [Object.prototype] (a function or an
    object), or [undefined]. *)
Inductive property (A : Type) : Type :=
  | Own (a : A)
  | Inherited
  | Undefined.
Arguments Own {A} a.
Arguments Inherited {A}.
Arguments Undefined {A}.

Definition get {A} (table : list (string * A)) (key : string) : property A :=
  match List.find (fun kv => bool_decide (fst kv = key)) table with
  | Some kv => Own (snd kv)
  | None =>
      if decide (key ∈ Logger.Object_prototype) then Inherited else Undefined
  end.

(** What [generateTestCandidates] throws: the error for an unknown query
    key, or a [TypeError] (iterating over something that is not iterable,
    reading the length of [undefined]). *)
Inductive failure : Type :=
  | UnknownQueryKey (queryKey : string)
  | TypeErr.

Inductive attempt (A : Type) : Type :=
  | Success (a : A)
  | Failure (f : failure).
Arguments Success {A} a.
Arguments Failure {A} f.

(** An entry of [TEST_QUERIES]. *)
Record testQuery := TestQuery {
  query : string;
  description : string;
  expectedHighRelevance : list string;
  expectedMediumRelevance : list string;
  expectedLowRelevance : list string
}.

(** The [options] argument; an absent field takes its default. *)
Record ratios := Ratios {
  highRelevanceRatio : option R;
  mediumRelevanceRatio : option R;
  lowRelevanceRatio : option R
}.

(** A document picked from a pool, and a generated candidate. *)
Record pooled := Pooled {
  text : string;
  category : string;
  variation : nat
}.

Record candidate := Candidate {
  id : string;
  candidate_text : string;
  source : string;
  candidate_category : string;
  expected_relevance : string;
  candidate_variation : nat
}.

Section Generate.

(** The two constant tables of the module and the values that
    [Math.random()] returns. *)
Variable TEST_QUERIES : list (string * testQuery).
Variable DOCUMENT_POOLS : list (string * list string).
Variable random : nat -> random_number.

(** The two nested loops that collect the unused texts of the pools. *)
Fixpoint collect (globalUsedTexts : gset string) (poolKeys : list string)
    (allDocs : list pooled) : attempt (list pooled) :=
  match poolKeys with
  | [] => Success allDocs
  | poolKey :: rest =>
      match get DOCUMENT_POOLS poolKey with
      | Own pool =>
          collect globalUsedTexts rest
            (allDocs ++
             map (fun text => Pooled text poolKey 0)
                 (filter (fun text => text ∉ globalUsedTexts) pool))
      | _ => Failure TypeErr
      end
  end.

(** [selectedDocs.forEach(doc => globalUsedTexts.add(doc.text))] *)
Definition mark_used (selectedDocs : list pooled) (used : gset string)
  : gset string :=
  fold_left (fun u doc => {[ text doc ]} ∪ u) selectedDocs used.

(** The loop that pads with the first texts of the irrelevant pool. *)
Definition pad (irrelevantPool : list string) (bound : nat)
    (selectedDocs : list pooled) (used : gset string)
  : list pooled * gset string :=
  for_range bound
    (fun st i =>
       match irrelevantPool !! i with
       | Some t =>
           if decide (t ∈ st.2) then st
           else (st.1 ++ [Pooled t "irrelevant" 0], {[ t ]} ∪ st.2)
       | None => st
       end)
    (selectedDocs, used).

(** The helper [getUniqueDocuments], with the set [globalUsedTexts] and
    the number of calls of [Math.random()] before and after. *)
Definition getUniqueDocuments (poolKeys : list string) (numNeeded : Z)
    (relevanceType : string) (globalUsedTexts : gset string) (calls : nat)
  : attempt (list pooled * gset string * nat) :=
  match collect globalUsedTexts poolKeys [] with
  | Failure f => Failure f
  | Success allDocs =>
      let shuffled := shuffleArray random allDocs calls in
      let shuffledDocs := shuffled.1 in
      let selectedDocs :=
        NativeEmbeddingReranker.Array_slice shuffledDocs 0
          (Z.min numNeeded (Z.of_nat (length shuffledDocs))) in
      let used := mark_used selectedDocs globalUsedTexts in
      if decide ((Z.of_nat (length selectedDocs) < numNeeded)%Z /\
                 relevanceType = "low") then
        match get DOCUMENT_POOLS "irrelevant" with
        | Own irrelevantPool =>
            let additionalNeeded :=
              (numNeeded - Z.of_nat (length selectedDocs))%Z in
            let bound :=
              Z.to_nat (Z.min additionalNeeded
                              (Z.of_nat (length irrelevantPool))) in
            let padded := pad irrelevantPool bound selectedDocs used in
            Success (padded.1, padded.2, shuffled.2)
        | _ => Failure TypeErr
        end
      else Success (selectedDocs, used, shuffled.2)
  end.

(** One of the three loops that turn the picked documents into
    candidates: [id] is built before [docId] is incremented, [source]
    after. *)
Definition add_candidates (expected : string) (docs : list pooled)
    (candidates : list candidate) (docId : nat) : list candidate * nat :=
  fold_left
    (fun st doc =>
       (st.1 ++ [Candidate ("doc_" +:+ pretty st.2) (text doc)
                           ("source_" +:+ pretty (S st.2)) (category doc)
                           expected (variation doc)],
        S st.2))
    docs (candidates, docId).

Definition generateTestCandidates (queryKey : string) (numCandidates : nat)
    (options : ratios) (calls : nat) : attempt (list candidate * nat) :=
  match get TEST_QUERIES queryKey with
  | Undefined => Failure (UnknownQueryKey queryKey)
  | Inherited => Failure TypeErr
  | Own testQuery =>
      let highRelevanceRatio := default 0.3 (highRelevanceRatio options) in
      let mediumRelevanceRatio := default 0.3 (mediumRelevanceRatio options) in
      let numHigh := floor (INR numCandidates * highRelevanceRatio) in
      let numMedium := floor (INR numCandidates * mediumRelevanceRatio) in
      let numLow := (Z.of_nat numCandidates - numHigh - numMedium)%Z in
      match getUniqueDocuments (expectedHighRelevance testQuery) numHigh
              "high" ∅ calls with
      | Failure f => Failure f
      | Success (highDocs, used, calls) =>
          let st := add_candidates "high" highDocs [] 0 in
          match getUniqueDocuments (expectedMediumRelevance testQuery)
                  numMedium "medium" used calls with
          | Failure f => Failure f
          | Success (mediumDocs, used, calls) =>
              let st := add_candidates "medium" mediumDocs st.1 st.2 in
              match getUniqueDocuments (expectedLowRelevance testQuery)
                      numLow "low" used calls with
              | Failure f => Failure f
              | Success (lowDocs, used, calls) =>
                  let st := add_candidates "low" lowDocs st.1 st.2 in
                  Success (shuffleArray random st.1 calls)
              end
          end
      end
  end.

End Generate.

(** The table [TEST_QUERIES] of the module. *)
Definition test_queries : list (string * testQuery) :=
  [
    ("ai_ml_fundamentals",
     TestQuery "How does machine learning and artificial intelligence work?"
       "Core AI/ML concepts and mechanisms"
       ["core_ai_ml"; "tech_applications"]
       ["data_science_business"]
       ["hard_science"; "humanities"; "health_lifestyle"]);
    ("photosynthesis",
     TestQuery "What is photosynthesis and how do plants create energy?"
       "Biological processes in plants"
       ["hard_science"]
       ["health_lifestyle"]
       ["core_ai_ml"; "tech_applications"; "humanities"; "data_science_business"]);
    ("software_development",
     TestQuery "How does artificial intelligence work in software development?"
       "AI applications in development workflows"
       ["tech_applications"; "core_ai_ml"]
       ["data_science_business"]
       ["hard_science"; "humanities"; "health_lifestyle"]);
    ("climate_change",
     TestQuery "Climate change effects on global weather patterns"
       "Environmental science and climate systems"
       ["hard_science"]
       ["data_science_business"]
       ["core_ai_ml"; "tech_applications"; "humanities"; "health_lifestyle"])
  ].

(** The table [DOCUMENT_POOLS] of the module. *)
Definition document_pools : list (string * list string) :=
  [
    ("core_ai_ml",
     [ "Machine learning works by training algorithms on large datasets to recognize patterns. A model, such as a neural network, adjusts its internal parameters through a process called backpropagation, minimizing the difference between its predictions and the actual outcomes. This iterative training enables the model to make accurate predictions on new, unseen data.";
       "Artificial intelligence encompasses various subfields, with machine learning being the most prominent. Core AI systems often use deep learning, which involves neural networks with many layers (deep architectures). These systems can process complex inputs like images and speech by learning hierarchical features, from simple edges to complex objects.";
       "The effectiveness of an AI model is heavily dependent on the quality and quantity of its training data. Biased or insufficient data can lead to poor performance and unfair outcomes. Data preprocessing steps, such as normalization and augmentation, are crucial for preparing the data and improving the model's ability to generalize to real-world scenarios.";
       "Natural Language Processing (NLP) is a key area of AI that enables machines to understand and generate human language. It relies on models like transformers, which use attention mechanisms to weigh the importance of different words in a sentence. This allows for advanced applications like language translation, sentiment analysis, and sophisticated chatbots.";
       "Reinforcement learning is a type of machine learning where an agent learns to make decisions by performing actions in an environment to maximize a cumulative reward. It differs from supervised learning as it doesn't require labeled data and instead learns through trial and error, making it suitable for robotics, game playing, and autonomous systems.";
       "Feature engineering transforms raw data into meaningful inputs for machine learning algorithms. This process involves selecting, modifying, or creating new features from existing data to improve model performance. Good feature engineering can significantly enhance a model's ability to learn patterns and make accurate predictions.";
       "Cross-validation techniques help evaluate model performance and prevent overfitting issues. By splitting data into multiple folds and training on different subsets, researchers can get a more robust estimate of how well their model will generalize to unseen data in real-world applications.";
       "Gradient descent optimization adjusts model parameters to minimize prediction errors efficiently. This iterative algorithm calculates the gradient of the loss function and moves parameters in the direction that reduces error, enabling neural networks to learn complex patterns from training data." ]);
    ("tech_applications",
     [ "In modern software development, AI accelerates workflows through automated code generation and intelligent debugging. Tools powered by machine learning can predict potential bugs, suggest code completions, and even optimize algorithm performance, significantly reducing development time and improving code quality.";
       "Cloud computing platforms are essential for deploying scalable AI applications. They provide the vast computational resources, such as GPUs and TPUs, needed for training large models. Services like AWS SageMaker or Google AI Platform offer end-to-end solutions for building, training, and deploying machine learning models at scale.";
       "Cybersecurity systems increasingly rely on artificial intelligence to detect and respond to threats in real-time. ML algorithms can analyze network traffic to identify anomalous patterns indicative of a cyberattack, moving beyond traditional signature-based detection to counter new and evolving threats more effectively.";
       "The Internet of Things (IoT) generates massive streams of data from connected devices. Machine learning is used to analyze this data for applications like predictive maintenance in industrial machinery, smart home automation that learns user preferences, and real-time monitoring in healthcare.";
       "Computer vision, a field of AI, enables systems to interpret and understand visual information from the world. In technology, this is applied in autonomous vehicles for navigation, in facial recognition systems for security, and in medical imaging analysis to help diagnose diseases from scans like X-rays and MRIs.";
       "Database systems efficiently store, organize, and retrieve large amounts of structured data. Modern databases incorporate AI features for query optimization, automated indexing, and predictive caching to improve performance for machine learning workloads and large-scale applications.";
       "Software engineering practices ensure reliable, maintainable, and scalable application development. AI-powered tools assist in code review, testing automation, and deployment optimization, helping development teams deliver higher quality software more efficiently.";
       "Version control systems track code changes and enable collaborative software development. Advanced platforms integrate machine learning to suggest merge conflict resolutions, detect code patterns, and automate routine development tasks." ]);
    ("data_science_business",
     [ "Data analytics forms the foundation for many business intelligence strategies. By analyzing historical data, companies can identify market trends, understand customer behavior, and make informed decisions. This process often precedes the implementation of predictive machine learning models.";
       "Businesses leverage data warehousing solutions to store and manage vast amounts of information from various sources. A well-organized data warehouse is critical for running complex queries and feeding clean data into machine learning pipelines for predictive analytics and forecasting.";
       "A/B testing is a common method used in business to compare two versions of a product or marketing campaign. While not AI itself, the results from extensive A/B tests provide valuable data that can be used to train machine learning models to personalize user experiences automatically.";
       "Supply chain management is being revolutionized by data analysis. Companies use predictive models to forecast demand, optimize inventory levels, and identify potential disruptions, leading to increased efficiency and reduced operational costs across their logistics networks.";
       "Customer Relationship Management (CRM) systems integrate data analytics to provide a 360-degree view of the customer. This allows businesses to segment their audience, personalize marketing efforts, and predict customer churn, thereby improving retention and loyalty.";
       "Data visualization tools help analysts present complex information in understandable formats. Interactive dashboards and charts make it easier for business stakeholders to interpret data insights and make informed decisions based on analytical findings.";
       "Business intelligence platforms combine data from multiple sources to provide comprehensive insights. These systems often incorporate basic machine learning capabilities for trend analysis, anomaly detection, and automated reporting.";
       "Mobile app development requires optimizing user interfaces for different device platforms. Analytics and user behavior data inform design decisions and feature prioritization to improve user engagement and retention." ]);
    ("hard_science",
     [ "Photosynthesis is the fundamental biological process by which plants, algae, and some bacteria convert light energy into chemical energy. They use sunlight, water, and carbon dioxide to create glucose, which serves as their food, and release oxygen as a byproduct, which is vital for most life on Earth.";
       "The theory of plate tectonics explains the large-scale motion of Earth's lithosphere. The planet's outer shell is divided into several plates that glide over the mantle, the rocky inner layer above the core. This movement is responsible for earthquakes, volcanic eruptions, and the formation of mountains.";
       "Quantum mechanics describes the strange behavior of matter and energy at the atomic and subatomic levels. Concepts like superposition and entanglement defy classical physics, stating that a particle can exist in multiple states at once and two particles can be linked in such a way that their fates are intertwined, regardless of the distance separating them.";
       "In chemistry, a covalent bond is a chemical link between two atoms in which electron pairs are shared between them. This sharing allows atoms to achieve a stable electron configuration and form molecules. Covalent bonds are responsible for the structure of most organic compounds, including DNA and proteins.";
       "The human immune system is a complex network of cells, tissues, and organs that work together to defend the body against pathogens. It includes two main subsystems: the innate immune system, which provides a general defense, and the adaptive immune system, which targets specific pathogens and creates long-lasting memory of them.";
       "Ecological systems maintain delicate balances between different species and their environment. Food webs illustrate how energy and nutrients flow through ecosystems, with producers, consumers, and decomposers each playing critical roles in sustaining biodiversity.";
       "Geological formations reveal Earth's history through layers of sedimentary rock deposits. By studying these strata, scientists can understand past climate conditions, extinction events, and the evolution of life over millions of years.";
       "Ocean currents distribute heat globally, influencing regional climate and weather patterns. These massive water movements are driven by differences in temperature, salinity, and wind patterns, affecting everything from local weather to global climate systems." ]);
    ("humanities",
     [ "The Renaissance was a fervent period of European cultural, artistic, political, and economic 'rebirth' following the Middle Ages. Generally described as taking place from the 14th century to the 17th century, it was characterized by a renewed interest in classical antiquity and a flourishing of art and science.";
       "William Shakespeare's tragedy, Hamlet, explores themes of betrayal, revenge, madness, and moral corruption. The play's protagonist struggles with the task of avenging his father's murder, and his contemplative soliloquies have become some of the most famous passages in English literature.";
       "The construction of the Great Wall of China spanned several dynasties and over two millennia. It was not a single continuous wall but a system of fortifications, walls, watchtowers, and fortresses built to protect Chinese states and empires from raids and invasions of nomadic groups from the Eurasian Steppe.";
       "Impressionism, a 19th-century art movement, was characterized by relatively small, thin, yet visible brush strokes, open composition, and an emphasis on the accurate depiction of light in its changing qualities. Artists like Claude Monet sought to capture the immediate sensory effect of a scene.";
       "The Roman Empire was one of the most powerful and influential civilizations in history, leaving a lasting legacy in law, language, architecture, and government. At its peak, it stretched from Britain in the northwest to Mesopotamia in the east, encompassing the entire Mediterranean basin.";
       "Classical composers like Bach created complex musical structures that remain influential today. His compositions demonstrate mathematical precision in their harmonic progressions and counterpoint, inspiring musicians and composers centuries later.";
       "Ancient Greek architecture featured impressive marble columns and geometric proportions. The Parthenon exemplifies the classical orders and mathematical ratios that influenced architectural design throughout Western civilization.";
       "Renaissance painters pioneered perspective techniques to create realistic artistic representations. Masters like Leonardo da Vinci combined artistic skill with scientific observation to produce works that captured both beauty and anatomical accuracy." ]);
    ("health_lifestyle",
     [ "A balanced diet rich in fruits, vegetables, whole grains, and lean proteins is crucial for maintaining good health. These foods provide essential vitamins, minerals, and fiber, which support bodily functions, boost the immune system, and reduce the risk of chronic diseases such as heart disease and diabetes.";
       "Regular physical activity is vital for cardiovascular health. Aerobic exercises like running, swimming, or cycling strengthen the heart and improve blood circulation. Experts recommend at least 150 minutes of moderate-intensity exercise per week for adults to maintain a healthy lifestyle.";
       "Getting adequate sleep is as important as diet and exercise for overall well-being. During sleep, the body repairs itself, consolidates memories, and regulates hormones. Chronic sleep deprivation can lead to impaired cognitive function, mood disturbances, and an increased risk of serious health problems.";
       "Mindfulness and meditation are practices that can significantly reduce stress and improve mental clarity. By focusing on the present moment and observing thoughts without judgment, individuals can calm their nervous system, lower blood pressure, and enhance their emotional resilience.";
       "Hydration is essential for nearly every function in the body. Drinking enough water throughout the day helps regulate body temperature, deliver nutrients to cells, and keep organs functioning properly. Dehydration can cause fatigue, headaches, and impaired physical and cognitive performance.";
       "The Mediterranean diet emphasizes fresh fruits, vegetables, fish, and healthy olive oil. Research shows this eating pattern can reduce inflammation, improve heart health, and may contribute to longevity and cognitive function.";
       "Professional athletes train rigorously to develop physical strength, speed, and endurance. Their training regimens incorporate nutrition science, biomechanics, and performance psychology to optimize athletic performance and prevent injuries.";
       "Migration patterns help wildlife species adapt to seasonal changes in food availability. Understanding these natural cycles is important for conservation efforts and maintaining healthy ecosystems." ]);
    ("irrelevant",
     [ "The weather forecast predicts rain for the weekend with temperatures dropping to seasonal averages.";
       "Local restaurants are offering new seasonal menu items featuring fresh ingredients from nearby farms.";
       "Traffic patterns in the downtown area have improved following recent infrastructure improvements.";
       "The city library is hosting a book club meeting next Thursday evening for mystery novel enthusiasts.";
       "Gardening experts recommend planting spring flowers after the last frost date in your region.";
       "Pet adoption rates have increased significantly during the past year, with more families welcoming animals.";
       "Construction work on the new bridge is ahead of schedule and should finish before the holiday season.";
       "The local farmers market features organic produce, handmade crafts, and live music every Saturday morning.";
       "Urban planning balances population growth with sustainable infrastructure development needs.";
       "Tourism industry recovery continues with increased visitor numbers to popular destinations." ])
  ].

End Candidates.

(** * Auxiliary definitions

    What the statements and proofs below use besides the embedding: sums
    over index ranges, the terms of the loops, the invariants of the
    initialisation, and the inputs of the examples. *)

Section MetricsAux.
Import EvaluationMetrics.
Local Open Scope R_scope.

(** The sum of [f 0], ..., [f (n - 1)]. *)
Definition sum_to (n : nat) (f : nat -> R) : R :=
  fold_right Rplus 0 (map f (seq 0 n)).

(** The term the loop of [calculateDCG] adds at index [i]. *)
Definition dcg_term (ps : list passage) (i : nat) : R :=
  Spec.discounted (relevance ps i) (S i).

(** The worked example of the specification:
    [relevant, irrelevant, relevant, irrelevant]. *)
Definition worked_example : list passage :=
  [Passage true; Passage false; Passage true; Passage false].

(** The four metrics and the names they are stored under. *)
Definition metricTable : list (string * (list passage -> nat -> R)) :=
  [ ("MRR", calculateMRR); ("NDCG", calculateNDCG);
    ("Precision", calculatePrecisionAtK); ("Recall", calculateRecallAtK) ].

(** One iteration of the loops over [kValues]: four stores. *)
Definition storeMetrics (g : (list passage -> nat -> R) -> nat -> R)
    (m : gmap string R) (k : nat) : gmap string R :=
  <[metricKey "Recall" k := g calculateRecallAtK k]>
  (<[metricKey "Precision" k := g calculatePrecisionAtK k]>
  (<[metricKey "NDCG" k := g calculateNDCG k]>
  (<[metricKey "MRR" k := g calculateMRR k]> m))).

(** The sums of the metrics over the valid results. *)
Definition sumOver (ks : list nat) (sums : gmap string R)
    (rs : list queryResult) : gmap string R :=
  fold_left
    (fun sums r => map_fold addTo sums
                     (calculateAllMetrics (rankedPassages r) ks))
    rs sums.

End MetricsAux.

Section NormalizationAux.
Local Open Scope R_scope.

(** Fixed-point numbers with 40 fractional bits. *)
Definition fx (a : Z) : R := IZR a / IZR (2 ^ 40).

(** The square of a fixed-point number, rounded down. *)
Definition sq_down (a : Z) : Z := ((a * a) / 2 ^ 40)%Z.

End NormalizationAux.

Section RerankAux.
Import ModelLoader NativeEmbeddingReranker.
Local Open Scope R_scope.

(** The item built for index [j] of [documents] from the score [s]. *)
Definition build (documents : list document) (j : nat) (s : value)
  : gmap string value :=
  resultItem j s (documents !! j).

(** The pairs sent to the backend for a chunk. *)
Definition pairs_of (query : string) (chunk : list document)
  : list (string * value) :=
  map (fun doc => (query, text_of doc)) chunk.

(** The batch size and the [topK] a call uses: the option, or its default. *)
Definition batchSize_of (opts : options) : nat :=
  default 128%nat (batchSize opts).

Definition topK_of (opts : options) : Z := default 4%Z (topK opts).

(** The value is a number. *)
Definition is_number (s : value) : Prop := exists r, s = VNumber r.

(** The score a deterministic backend gives to one pair. *)
Definition pair_score (m : model) (cols : nat)
    (rowOf : string -> value -> list R) (q : string) (p : value) : value :=
  if decide (cols = 1%nat) then sigmoid_first (rowOf q p)
  else at_index (positiveClassIndex (id2label m))
         (map (fun x => exp x / fold_right Rplus 0 (map exp (rowOf q p)))
              (rowOf q p)).

(** An example backend: the tokenizer encodes each pair as an empty row and
    the network answers every row with the single logit 0. *)
Definition count_tokenizer : tokenizer :=
  fun queries _ =>
    Ok (Features (map (fun _ => []) queries) (map (fun _ => []) queries)).

Definition zero_model : model :=
  Model ∅ (fun fs => Ok (Tensor [length (input_ids fs); 1%nat]
                                (map (fun _ => [0]) (input_ids fs)))).

Definition example_cache : cache :=
  Cache {[ "m" := zero_model ]} {[ "m" := count_tokenizer ]}.

(** A [StringToNumber] for inputs without numeric strings. *)
Definition no_numbers : string -> option R := fun _ => None.

(** [rerank] called without options. *)
Definition defaults : options := Options None None.

(** A string document followed by a record whose own [_rerank_score] is
    [NaN]. *)
Definition nan_record : gmap string value :=
  <["_rerank_score" := VNaN]> (<["text" := VString "b"]> ∅).

Definition docs_nan : list document := [DString "a"; DObject nan_record].

(** A record that brings a [_rerank_corpus_id] of its own. *)
Definition id_record : gmap string value :=
  <["_rerank_corpus_id" := VNumber 7]> (<["text" := VString "a"]> ∅).

(** A record without a [text] field. *)
Definition textless : gmap string value := <["id" := VString "doc1"]> ∅.

(** A record that brings both reserved fields. *)
Definition both_record : gmap string value :=
  <["_rerank_score" := VString "high"]>
    (<["_rerank_corpus_id" := VNumber 7]> (<["text" := VString "a"]> ∅)).

End RerankAux.

Section InitializationAux.
Import ModelLoader Initialization.

(** Promise numbers and call numbers are handed out in increasing order. *)
Definition fresh (s : state) : Prop :=
  (forall q x, tasks s !! q = Some x -> (q < next_promise s)%nat) /\
  (forall id x, calls s !! id = Some x -> (id < next_call s)%nat).

(** A registered promise belongs to a running initialisation of its key. *)
Definition registered (s : state) : Prop :=
  forall k p, initializationPromises s !! k = Some p ->
              exists ph, tasks s !! p = Some (k, ph).

(** The tokenizer loads requested in a phase of an initialisation. *)
Definition phase_requests (ph : phase) : nat :=
  match ph with
  | LoadingModel => 0
  | LoadingTokenizer _ => 1
  end.

(** The invariant of a running initialisation [p] of [key]: it is the one
    registered for [key], no other one for [key] runs, nothing is cached
    for [key], exactly one model load has been requested for [key] since it
    began (and one tokenizer load once the model is there), and every call
    for [key] numbered [from] or later awaits [p]. *)
Record running (key : string) (p from m0 t0 : nat) (s : state) : Prop := {
  run_task : exists ph, tasks s !! p = Some (key, ph) /\
               Spec.tokenizer_loads key s = (t0 + phase_requests ph)%nat;
  run_registered : initializationPromises s !! key = Some p;
  run_not_cached : models s !! key = None;
  run_fresh : fresh s;
  run_only : forall q ph, tasks s !! q = Some (key, ph) -> q = p;
  run_loads : Spec.model_loads key s = S m0;
  run_first : calls s !! from = Some (key, Waiting p);
  run_next : (from < next_call s)%nat;
  run_callers : forall id, Spec.caller key from s id ->
                  calls s !! id = Some (key, Waiting p)
}.

(** Two more calls for one key while its load is running. *)
Definition two_more_calls : list event := [Initialize "m"; Initialize "m"].

End InitializationAux.

Section ScoringAux.
Import ModelLoader.
Local Open Scope R_scope.

(** A probability, or one of the two non-numbers a score can be. *)
Definition score_in_range (v : value) : Prop :=
  match v with
  | VNumber r => 0 < r <= 1
  | VNaN | VUndefined => True
  | VString _ => False
  end.

(** A tokenizer and a network that fail. *)
Definition failing_tokenizer : tokenizer :=
  fun _ _ => Throw (BackendError "tokenizer").

Definition failing_model : model :=
  Model ∅ (fun _ => Throw (BackendError "session")).

(** A two-class network that answers with rows of no logits. *)
Definition empty_rows_model : model :=
  Model ∅ (fun fs => Ok (Tensor [length (input_ids fs); 0%nat]
                                (map (fun _ => []) (input_ids fs)))).

End ScoringAux.

Section CacheAux.
Import ModelLoader Initialization CacheQueries.

(** The invariant of a cached model: it stays cached, [n] model loads have
    been requested for it, and every call of [initialize] for it numbered
    [from] or later has returned. *)
Record loaded (key : string) (from n : nat) (s : state) : Prop := {
  loaded_model : is_Some (models s !! key);
  loaded_loads : Spec.model_loads key s = n;
  loaded_fresh : fresh s;
  loaded_next : (from <= next_call s)%nat;
  loaded_calls : forall id st, (from <= id)%nat ->
                   calls s !! id = Some (key, st) -> st = Done (Ok ())
}.

(** The event is not the settling of a load of the initialisation [p]. *)
Definition leaves_running (p : nat) (e : event) : Prop :=
  match e with
  | ModelSettles q _ | TokenizerSettles q _ => q <> p
  | _ => True
  end.

(** The load that the initialisation [p] awaits in phase [ph] fails. *)
Definition load_fails (p : nat) (ph : phase) (err : error) : event :=
  match ph with
  | LoadingModel => ModelSettles p (Throw err)
  | LoadingTokenizer _ => TokenizerSettles p (Throw err)
  end.

(** A schedule that loads the model ["m"] successfully. *)
Definition load_m : list event :=
  [Initialize "m"; ModelSettles 0 (Ok zero_model);
   TokenizerSettles 0 (Ok count_tokenizer)].

Definition reranker_m : reranker := Reranker "m" None "info".

End CacheAux.

Section RankingAux.
Import EvaluationMetrics.
Local Open Scope R_scope.

(** The passage at index [i] exists and is relevant. *)
Definition hit (ps : list passage) (i : nat) : bool :=
  match ps !! i with
  | Some p => isRelevant p
  | None => false
  end.

(** The number of relevant passages among the first [m]. *)
Definition hits (ps : list passage) (m : nat) : nat :=
  length (List.filter isRelevant (take m ps)).

(** The discount of the position [i], counted from 0. *)
Definition discount (i : nat) : R := Spec.discounted 1 (S i).

End RankingAux.

(** ** The candidates of the test suite *)

Section CandidatesAux.
Import TestData Candidates.

(** The texts of the pool named [key]; none when there is no such pool. *)
Definition pool_of (pools : list (string * list string)) (key : string)
  : list string :=
  match get pools key with
  | Own pool => pool
  | _ => []
  end.

(** The texts of the pools named by [keys], in order. *)
Definition pool_texts (pools : list (string * list string))
    (keys : list string) : list string :=
  keys ≫= pool_of pools.

(** Every key names a pool of the table. *)
Definition all_pools (pools : list (string * list string))
    (keys : list string) : bool :=
  forallb (fun k => match get pools k with Own _ => true | _ => false end) keys.

(** A picked document comes from one of the pools named by [keys], or, if
    it was picked for the low level, from the irrelevant pool. *)
Definition picked_from (pools : list (string * list string))
    (keys : list string) (relevanceType : string) (d : pooled) : Prop :=
  variation d = 0%nat /\ text d ∈ pool_of pools (category d) /\
  (category d ∈ keys \/
   (relevanceType = "low" /\ category d = "irrelevant")).

(** The candidates built from the picked documents [docs], the first of
    which gets the number [n]. *)
Definition candidates_of (expected : string) (n : nat) (docs : list pooled)
  : list candidate :=
  imap (fun i doc =>
          Candidate ("doc_" +:+ pretty (n + i)) (text doc)
                    ("source_" +:+ pretty (S (n + i))) (category doc)
                    expected (variation doc))
       docs.

(** The pool keys a query expects at a level. *)
Definition expected_pools (q : testQuery) (level : string) : list string :=
  if decide (level = "high") then expectedHighRelevance q
  else if decide (level = "medium") then expectedMediumRelevance q
  else if decide (level = "low") then expectedLowRelevance q
  else [].

(** The query names pools only, and at no level the same text twice. *)
Definition well_formed (pools : list (string * list string)) (q : testQuery)
  : Prop :=
  (forall level, all_pools pools (expected_pools q level) = true /\
                 NoDup (pool_texts pools (expected_pools q level))) /\
  (exists pool, get pools "irrelevant" = Own pool).

(** A candidate was built from a document of a pool that the query
    expects at the candidate's level (or of the irrelevant pool, at the
    low level). *)
Definition candidate_ok (pools : list (string * list string)) (q : testQuery)
    (c : candidate) : Prop :=
  (expected_relevance c = "high" \/ expected_relevance c = "medium" \/
   expected_relevance c = "low") /\
  candidate_variation c = 0%nat /\
  candidate_text c ∈ pool_of pools (candidate_category c) /\
  (candidate_category c ∈ expected_pools q (expected_relevance c) \/
   (expected_relevance c = "low" /\ candidate_category c = "irrelevant")).

(** What has been picked so far: no text twice, none that was used
    before, and the used texts are the earlier ones and the picked ones. *)
Definition picked_ok (pools : list (string * list string))
    (used0 : gset string) (keys : list string) (rt : string)
    (st : list pooled * gset string) : Prop :=
  NoDup (map text st.1) /\
  st.2 = used0 ∪ list_to_set (map text st.1) /\
  (forall t, t ∈ map text st.1 -> t ∉ used0) /\
  Forall (picked_from pools keys rt) st.1.

(** [Math.random()] returning 0 at every call. *)
Definition no_randomness : nat -> random_number :=
  fun _ => RandomNumber 0 (conj (Rle_refl 0) Rlt_0_1).

End CandidatesAux.

(** * Properties *)

(** ** Sums over index ranges *)

Section Sums.
Local Open Scope R_scope.

Lemma fold_left_acc_sum {I : Type} (g : I -> R) (body : R -> I -> R) :
  (forall acc i, body acc i = acc + g i) ->
  forall l a, fold_left body l a = a + fold_right Rplus 0 (map g l).
Proof.
  intros Hb l. induction l as [|i l IH]; intros a; simpl.
  - lra.
  - rewrite IH, Hb. lra.
Qed.

Lemma for_range_sum (g : nat -> R) (body : R -> nat -> R) n a :
  (forall acc i, body acc i = acc + g i) ->
  for_range n body a = a + sum_to n g.
Proof. intros Hb. unfold for_range, sum_to. by apply fold_left_acc_sum. Qed.

Lemma sum_to_S_front n f : sum_to (S n) f = f 0%nat + sum_to n (fun i => f (S i)).
Proof.
  unfold sum_to. simpl. f_equal.
  rewrite <- seq_shift, map_map. reflexivity.
Qed.

Lemma sum_to_S_back n f : sum_to (S n) f = sum_to n f + f n.
Proof.
  revert f. induction n as [|n IH]; intros f.
  - unfold sum_to. simpl. lra.
  - rewrite sum_to_S_front, IH, (sum_to_S_front n). lra.
Qed.

Lemma sum_to_ext n f g :
  (forall i, (i < n)%nat -> f i = g i) -> sum_to n f = sum_to n g.
Proof.
  induction n as [|n IH]; intros H; [reflexivity|].
  rewrite !sum_to_S_back, IH, (H n); [reflexivity|lia|].
  intros i Hi. apply H. lia.
Qed.

Lemma sum_to_zero_tail m n f :
  (m <= n)%nat -> (forall i, (m <= i < n)%nat -> f i = 0) ->
  sum_to n f = sum_to m f.
Proof.
  induction n as [|n IH]; intros Hle Hz.
  - replace m with 0%nat by lia. reflexivity.
  - destruct (decide (m = S n)) as [->|Hne]; [reflexivity|].
    rewrite sum_to_S_back, IH, (Hz n); [lra|lia|lia|].
    intros i Hi. apply Hz. lia.
Qed.

Lemma sum_to_nonneg n f :
  (forall i, (i < n)%nat -> 0 <= f i) -> 0 <= sum_to n f.
Proof.
  induction n as [|n IH]; intros H.
  - unfold sum_to. simpl. lra.
  - rewrite sum_to_S_back.
    assert (0 <= sum_to n f) by (apply IH; intros; apply H; lia).
    assert (0 <= f n) by (apply H; lia). lra.
Qed.

End Sums.

(** ** EvaluationMetrics *)

Section MetricsFacts.
Import EvaluationMetrics.
Local Open Scope R_scope.

Lemma ln_2_pos : 0 < ln 2.
Proof. pose proof ln_lt_2. lra. Qed.

Lemma log2_2 : log2 2 = 1.
Proof. unfold log2. pose proof ln_2_pos. field. lra. Qed.

Lemma log2_pos x : 1 < x -> 0 < log2 x.
Proof.
  intros Hx. unfold log2. apply Rdiv_lt_0_compat; [|apply ln_2_pos].
  rewrite <- ln_1. apply ln_increasing; lra.
Qed.

Lemma log2_rank_pos i : (0 < i)%nat -> 0 < log2 (INR (i + 1)).
Proof.
  intros Hi. apply log2_pos. rewrite plus_INR. simpl.
  assert (1 <= INR i) by (apply (le_INR 1); lia). lra.
Qed.

Lemma calculateDCG_sum ps k :
  calculateDCG ps k = sum_to (Nat.min (length ps) k) (dcg_term ps).
Proof.
  unfold calculateDCG. rewrite (for_range_sum (dcg_term ps)); [lra|].
  intros acc i. unfold dcg_term, Spec.discounted.
  replace (i + 1)%nat with (S i) by lia.
  destruct i; simpl; repeat case_decide; try lia; try congruence; reflexivity.
Qed.

Lemma calculateIDCG_sum ps k :
  calculateIDCG ps k =
  sum_to (Nat.min (length (List.filter isRelevant ps)) k)
         (fun i => Spec.discounted 1 (S i)).
Proof.
  unfold calculateIDCG. cbv zeta.
  rewrite (for_range_sum (fun i => Spec.discounted 1 (S i))); [lra|].
  intros acc i. unfold Spec.discounted.
  replace (i + 1)%nat with (S i) by lia.
  destruct i; simpl; repeat case_decide; try lia; try congruence; reflexivity.
Qed.

Lemma DCG_from_sum l rank :
  Spec.DCG_from rank l =
  sum_to (length l)
    (fun j => Spec.discounted (relevance l j) (rank + j)).
Proof.
  revert rank. induction l as [|p l IH]; intros rank; simpl.
  - reflexivity.
  - rewrite sum_to_S_front, IH. f_equal.
    + unfold relevance, Spec.rel_of. simpl.
      replace (rank + 0)%nat with rank by lia. reflexivity.
    + apply sum_to_ext. intros i _.
      replace (rank + S i)%nat with (S rank + i)%nat by lia. reflexivity.
Qed.

Lemma relevance_take ps k i :
  (i < k)%nat -> relevance (take k ps) i = relevance ps i.
Proof. intros Hi. unfold relevance. by rewrite lookup_take_lt. Qed.

Lemma calculateDCG_spec ps k : calculateDCG ps k = Spec.DCG ps k.
Proof.
  rewrite calculateDCG_sum. unfold Spec.DCG.
  rewrite DCG_from_sum, length_take.
  replace (Nat.min k (length ps)) with (Nat.min (length ps) k) by lia.
  apply sum_to_ext. intros i Hi. unfold dcg_term.
  rewrite relevance_take by lia. reflexivity.
Qed.

Lemma discounted_0 rank : Spec.discounted 0 rank = 0.
Proof. unfold Spec.discounted. case_decide; [reflexivity|]. unfold Rdiv. lra. Qed.

Lemma discounted_1_nonneg rank : (0 < rank)%nat -> 0 <= Spec.discounted 1 rank.
Proof.
  intros Hr. unfold Spec.discounted. case_decide; [lra|].
  apply Rlt_le, Rdiv_lt_0_compat; [lra|].
  replace rank with ((rank - 1) + 1)%nat by lia. apply log2_rank_pos. lia.
Qed.

Lemma filter_all_relevant l :
  Forall (fun p => isRelevant p = true) (List.filter isRelevant l).
Proof. apply List.Forall_forall. intros p Hp. by apply filter_In in Hp as [_ ?]. Qed.

Lemma filter_none_relevant l :
  Forall (fun p => isRelevant p = false)
    (List.filter (fun p => negb (isRelevant p)) l).
Proof.
  apply List.Forall_forall. intros p Hp. apply filter_In in Hp as [_ H].
  by destruct (isRelevant p).
Qed.

Lemma relevance_ideal ps j :
  relevance (Spec.ideal ps) j =
  if decide (j < length (List.filter isRelevant ps))%nat then 1 else 0.
Proof.
  unfold relevance, Spec.ideal. case_decide as Hj.
  - rewrite lookup_app_l by done.
    destruct (lookup_lt_is_Some_2 _ _ Hj) as [p Hp]. rewrite Hp.
    pose proof (filter_all_relevant ps) as Hall.
    rewrite Forall_lookup in Hall. by rewrite (Hall _ _ Hp).
  - rewrite lookup_app_r by lia.
    destruct (_ !! _) as [p|] eqn:Hp; [|reflexivity].
    pose proof (filter_none_relevant ps) as Hall.
    rewrite Forall_lookup in Hall. by rewrite (Hall _ _ Hp).
Qed.

Lemma length_ideal ps : length (Spec.ideal ps) = length ps.
Proof.
  unfold Spec.ideal. rewrite length_app.
  induction ps as [|p ps IH]; simpl; [reflexivity|].
  destruct (isRelevant p); simpl; lia.
Qed.

Lemma filter_length_le {A} (f : A -> bool) l :
  (length (List.filter f l) <= length l)%nat.
Proof. induction l as [|x l IH]; simpl; [lia|]. destruct (f x); simpl; lia. Qed.

Lemma calculateIDCG_spec ps k : calculateIDCG ps k = Spec.IDCG ps k.
Proof.
  rewrite calculateIDCG_sum. unfold Spec.IDCG, Spec.DCG.
  rewrite DCG_from_sum, length_take, length_ideal.
  pose proof (filter_length_le isRelevant ps) as Hle.
  set (c := length (List.filter isRelevant ps)) in *.
  rewrite (sum_to_zero_tail (Nat.min c k) (Nat.min k (length ps))).
  - apply sum_to_ext. intros i Hi.
    rewrite relevance_take by lia. rewrite relevance_ideal.
    fold c. case_decide; [reflexivity|lia].
  - lia.
  - intros i Hi. rewrite relevance_take by lia. rewrite relevance_ideal.
    fold c. case_decide; [lia|]. apply discounted_0.
Qed.

Lemma calculateIDCG_nonneg ps k : 0 <= calculateIDCG ps k.
Proof.
  rewrite calculateIDCG_sum. apply sum_to_nonneg.
  intros i _. apply discounted_1_nonneg. lia.
Qed.

Lemma calculateNDCG_spec ps k : calculateNDCG ps k = Spec.NDCG ps k.
Proof.
  unfold calculateNDCG, Spec.NDCG. cbv zeta.
  rewrite <- calculateIDCG_spec, <- calculateDCG_spec.
  pose proof (calculateIDCG_nonneg ps k).
  destruct (Rlt_dec 0 (calculateIDCG ps k)), (Req_dec_T (calculateIDCG ps k) 0);
    try reflexivity; lra.
Qed.

(** Bounds on [ln 2 / ln 3] from integer powers: [3^306 < 2^485] and
    [2^84 < 3^53]. *)
Lemma pow_lt_of_Z (a b : Z) (m n : nat) :
  (a ^ Z.of_nat m < b ^ Z.of_nat n)%Z -> IZR a ^ m < IZR b ^ n.
Proof. intros H. rewrite !pow_IZR. by apply IZR_lt. Qed.

Lemma lt_div_of_mult a b c : 0 < c -> a * c < b -> a < b / c.
Proof.
  intros Hc H. apply (Rmult_lt_reg_r c); [done|].
  replace (b / c * c) with b by (field; lra). done.
Qed.

Lemma div_lt_of_mult a b c : 0 < c -> a < b * c -> a / c < b.
Proof.
  intros Hc H. apply (Rmult_lt_reg_r c); [done|].
  replace (a / c * c) with a by (field; lra). done.
Qed.

Lemma ln_3_pos : 0 < ln 3.
Proof. rewrite <- ln_1. apply ln_increasing; lra. Qed.

Lemma ln2_ln3_lower : 306 / 485 < ln 2 / ln 3.
Proof.
  assert (H : ln (3 ^ 306) < ln (2 ^ 485)).
  { apply ln_increasing; [apply pow_lt; lra|].
    apply (pow_lt_of_Z 3 2 306 485). reflexivity. }
  rewrite !ln_pow in H by lra.
  rewrite (INR_IZR_INZ 306), (INR_IZR_INZ 485) in H.
  change (Z.of_nat 306) with 306%Z in H. change (Z.of_nat 485) with 485%Z in H.
  pose proof ln_3_pos. pose proof ln_2_pos.
  apply lt_div_of_mult; [done|]. lra.
Qed.

Lemma ln2_ln3_upper : ln 2 / ln 3 < 53 / 84.
Proof.
  assert (H : ln (2 ^ 84) < ln (3 ^ 53)).
  { apply ln_increasing; [apply pow_lt; lra|].
    apply (pow_lt_of_Z 2 3 84 53). reflexivity. }
  rewrite !ln_pow in H by lra.
  rewrite (INR_IZR_INZ 84), (INR_IZR_INZ 53) in H.
  change (Z.of_nat 84) with 84%Z in H. change (Z.of_nat 53) with 53%Z in H.
  pose proof ln_3_pos. pose proof ln_2_pos.
  apply div_lt_of_mult; [done|]. lra.
Qed.

Lemma worked_example_value :
  calculateNDCG worked_example 3 = (1 + ln 2 / ln 3) / 2.
Proof.
  unfold calculateNDCG. cbv zeta.
  assert (Hd : calculateDCG worked_example 3 = 1 + ln 2 / ln 3).
  { rewrite calculateDCG_sum. unfold sum_to, dcg_term, Spec.discounted,
      relevance, log2. simpl.
    pose proof ln_3_pos. pose proof ln_2_pos.
    replace (1 + 1 + 1) with 3 by lra. replace (1 + 1) with 2 by lra.
    field. lra. }
  assert (Hi : calculateIDCG worked_example 3 = 2).
  { rewrite calculateIDCG_sum. unfold sum_to, Spec.discounted. simpl.
    replace (1 + 1) with 2 by lra. rewrite log2_2. lra. }
  rewrite Hd, Hi. destruct (Rlt_dec 0 2); [reflexivity|lra].
Qed.

(** C7: [calculateNDCG] is DCG@k / IDCG@k as the specification defines
    them (rank 1 unscaled, rank r > 1 divided by log2 r, over the first
    min(k, length) items; IDCG as the DCG of the ordering with all relevant
    items first), it is 0 whenever IDCG@k = 0, and on
    [relevant, irrelevant, relevant, irrelevant] with k = 3 it rounds to
    0.8155. *)
Theorem C7_calculateNDCG_is_DCG_over_IDCG :
  (forall ps k,
      calculateDCG ps k = Spec.DCG ps k /\
      calculateIDCG ps k = Spec.IDCG ps k /\
      calculateNDCG ps k = Spec.NDCG ps k /\
      (Spec.IDCG ps k = 0 -> calculateNDCG ps k = 0) /\
      (Spec.IDCG ps k <> 0 ->
       calculateNDCG ps k = Spec.DCG ps k / Spec.IDCG ps k)) /\
  0.81545 < calculateNDCG worked_example 3 < 0.81555.
Proof.
  split.
  - intros ps k. repeat split.
    + apply calculateDCG_spec.
    + apply calculateIDCG_spec.
    + apply calculateNDCG_spec.
    + intros H. rewrite calculateNDCG_spec. unfold Spec.NDCG.
      destruct (Req_dec_T _ _); [reflexivity|contradiction].
    + intros H. rewrite calculateNDCG_spec. unfold Spec.NDCG.
      destruct (Req_dec_T _ _); [contradiction|reflexivity].
  - rewrite worked_example_value.
    pose proof ln2_ln3_lower. pose proof ln2_ln3_upper. lra.
Qed.

(** *** calculateAverageMetrics *)

Lemma in_metricTable name f :
  In (name, f) metricTable ->
  (name = "MRR" /\ f = calculateMRR) \/
  (name = "NDCG" /\ f = calculateNDCG) \/
  (name = "Precision" /\ f = calculatePrecisionAtK) \/
  (name = "Recall" /\ f = calculateRecallAtK).
Proof.
  unfold metricTable. simpl.
  intros [H|[H|[H|[H|[]]]]]; inversion H; subst; tauto.
Qed.

Lemma metricKey_inj n1 f1 k1 n2 f2 k2 :
  In (n1, f1) metricTable -> In (n2, f2) metricTable ->
  metricKey n1 k1 = metricKey n2 k2 -> n1 = n2 /\ f1 = f2 /\ k1 = k2.
Proof.
  intros H1 H2 Hk.
  apply in_metricTable in H1 as [[-> ->]|[[-> ->]|[[-> ->]|[-> ->]]]];
  apply in_metricTable in H2 as [[-> ->]|[[-> ->]|[[-> ->]|[-> ->]]]];
  unfold metricKey in Hk; simpl in Hk; try discriminate;
  (repeat split; injection Hk as Hk; by apply pretty_nat_inj in Hk).
Qed.

Lemma metricKey_not_reserved name f k key :
  In (name, f) metricTable ->
  key = "error" \/ key = "totalQueries" \/ key = "validQueries" \/
    key = "errorQueries" ->
  key <> metricKey name k.
Proof.
  intros H1 Hkey Heq.
  apply in_metricTable in H1 as [[-> ->]|[[-> ->]|[[-> ->]|[-> ->]]]];
  destruct Hkey as [->|[->|[->| ->]]]; unfold metricKey in Heq; simpl in Heq;
  discriminate.
Qed.

Lemma storeMetrics_hit g m k name f :
  In (name, f) metricTable ->
  storeMetrics g m k !! metricKey name k = Some (g f k).
Proof.
  intros H. unfold storeMetrics.
  apply in_metricTable in H as [[-> ->]|[[-> ->]|[[-> ->]|[-> ->]]]];
  repeat (first [ rewrite lookup_insert_eq; reflexivity
                | rewrite lookup_insert_ne
                    by (unfold metricKey; simpl; discriminate) ]).
Qed.

Lemma storeMetrics_miss g m k key :
  (forall name f, In (name, f) metricTable -> key <> metricKey name k) ->
  storeMetrics g m k !! key = m !! key.
Proof.
  intros H. unfold storeMetrics.
  rewrite !lookup_insert_ne; [reflexivity|..];
  intros Heq; symmetry in Heq; revert Heq;
  [ apply (H "MRR" calculateMRR) | apply (H "NDCG" calculateNDCG)
  | apply (H "Precision" calculatePrecisionAtK)
  | apply (H "Recall" calculateRecallAtK) ];
  unfold metricTable; simpl; tauto.
Qed.

Lemma storeAll_miss g ks m key :
  (forall name f k, In (name, f) metricTable -> In k ks ->
                    key <> metricKey name k) ->
  fold_left (storeMetrics g) ks m !! key = m !! key.
Proof.
  revert m. induction ks as [|k ks IH]; intros m H; simpl; [reflexivity|].
  rewrite IH by (intros n0 f0 k0 ? ?; apply (H n0 f0); simpl; tauto).
  apply storeMetrics_miss. intros name f Hin. apply (H name f); simpl; tauto.
Qed.

Lemma storeAll_hit g ks m name f k :
  In (name, f) metricTable -> In k ks ->
  fold_left (storeMetrics g) ks m !! metricKey name k = Some (g f k).
Proof.
  intros Hn. revert m. induction ks as [|k0 ks IH]; intros m Hk; [destruct Hk|].
  simpl. destruct (in_dec Nat.eq_dec k ks) as [Hin|Hnin]; [by apply IH|].
  destruct Hk as [->|Hk]; [|contradiction].
  rewrite storeAll_miss; [by apply storeMetrics_hit|].
  intros n2 f2 k2 Hn2 Hk2 Heq.
  destruct (metricKey_inj _ _ _ _ _ _ Hn Hn2 Heq) as (_ & _ & ->).
  contradiction.
Qed.

Lemma calculateAllMetrics_lookup ps ks name f k :
  In (name, f) metricTable -> In k ks ->
  calculateAllMetrics ps ks !! metricKey name k = Some (f ps k).
Proof. apply (storeAll_hit (fun f k => f ps k)). Qed.

Lemma calculateAllMetrics_reserved ps ks key :
  key = "error" \/ key = "totalQueries" \/ key = "validQueries" \/
    key = "errorQueries" ->
  calculateAllMetrics ps ks !! key = None.
Proof.
  intros Hkey. unfold calculateAllMetrics.
  change (fold_left (storeMetrics (fun f k => f ps k)) ks ∅ !! key = None).
  rewrite storeAll_miss; [apply lookup_empty|].
  intros name f k Hn _. by apply (metricKey_not_reserved name f).
Qed.

(** [for (const [name, value] of Object.entries(metrics)) sums[name] += value] *)
Lemma addAll_lookup (sums metrics : gmap string R) key :
  map_fold addTo sums metrics !! key =
  match metrics !! key with
  | Some v => Some (default 0 (sums !! key) + v)
  | None => sums !! key
  end.
Proof.
  revert key.
  apply (map_fold_weak_ind
    (fun (r : gmap string R) (m : gmap string R) => forall key,
       r !! key = match m !! key with
                  | Some v => Some (default 0 (sums !! key) + v)
                  | None => sums !! key
                  end)).
  - intros key. by rewrite lookup_empty.
  - intros i x m r Hi IH key. unfold addTo.
    destruct (decide (i = key)) as [->|Hne].
    + rewrite !lookup_insert_eq. rewrite IH, Hi. reflexivity.
    + rewrite !lookup_insert_ne by done. apply IH.
Qed.

Lemma averages_lookup (n : R) (sums : gmap string R) key :
  map_fold (fun name sum (avg : gmap string value) =>
              <[name := VNumber (sum / n)]> avg) ∅ sums !! key
  = (fun s => VNumber (s / n)) <$> sums !! key.
Proof.
  revert key.
  apply (map_fold_weak_ind
    (fun (r : gmap string value) (m : gmap string R) => forall key,
       r !! key = (fun s => VNumber (s / n)) <$> m !! key)).
  - intros key. by rewrite !lookup_empty.
  - intros i x m r Hi IH key.
    destruct (decide (i = key)) as [->|Hne].
    + by rewrite !lookup_insert_eq.
    + rewrite !lookup_insert_ne by done. apply IH.
Qed.

Lemma sumOver_metric ks name f k rs : forall sums s,
  In (name, f) metricTable -> In k ks ->
  sums !! metricKey name k = Some s ->
  sumOver ks sums rs !! metricKey name k =
  Some (s + fold_right Rplus 0 (map (fun r => f (rankedPassages r) k) rs)).
Proof.
  induction rs as [|r rs IH]; intros sums s Hn Hk Hs; simpl.
  - rewrite Hs. f_equal. lra.
  - unfold sumOver in *. simpl.
    erewrite IH; [|done|done|].
    2:{ rewrite addAll_lookup, (calculateAllMetrics_lookup _ _ name f) by done.
        rewrite Hs. reflexivity. }
    f_equal. simpl. lra.
Qed.

Lemma sumOver_reserved ks key rs : forall sums,
  key = "error" \/ key = "totalQueries" \/ key = "validQueries" \/
    key = "errorQueries" ->
  sums !! key = None -> sumOver ks sums rs !! key = None.
Proof.
  induction rs as [|r rs IH]; intros sums Hkey Hs; simpl; [done|].
  unfold sumOver in *. simpl. apply IH; [done|].
  by rewrite addAll_lookup, calculateAllMetrics_reserved.
Qed.

Lemma calculateAverageMetrics_unfold qs ks :
  qs <> [] -> List.filter Spec.valid qs <> [] ->
  calculateAverageMetrics qs ks =
  let valid := List.filter Spec.valid qs in
  <["errorQueries" := VNumber (INR (length qs) - INR (length valid))]>
  (<["validQueries" := VNumber (INR (length valid))]>
  (<["totalQueries" := VNumber (INR (length qs))]>
   (map_fold (fun name sum (avg : gmap string value) =>
                <[name := VNumber (sum / INR (length valid))]> avg) ∅
      (sumOver ks (fold_left (storeMetrics (fun _ _ => 0)) ks ∅) valid)))).
Proof.
  intros Hq Hv. unfold calculateAverageMetrics.
  destruct (decide (length qs = 0%nat)) as [H0|_];
    [by apply length_zero_iff_nil in H0|].
  cbv zeta. fold Spec.valid.
  change (fun r => negb (ToBoolean (qr_error r))) with Spec.valid.
  destruct (decide (length (List.filter Spec.valid qs) = 0%nat)) as [H0|_];
    [by apply length_zero_iff_nil in H0|].
  reflexivity.
Qed.

(** C8 (as the code has it): an empty list of results yields the empty
    object; a non-empty list in which every entry recorded an error yields
    the explicit no-valid-results object; with at least one valid result
    every metric at every requested cutoff is the arithmetic mean over the
    valid results only, the three counts are reported, and no error marker
    is present. *)
Theorem C8_calculateAverageMetrics_cases (qs : list queryResult) (ks : list nat) :
  let valid := List.filter Spec.valid qs in
  let out := calculateAverageMetrics qs ks in
  (qs = [] -> out = ∅) /\
  (qs <> [] -> valid = [] -> out = {[ "error" := VString noValidResults ]}) /\
  (valid <> [] ->
     (forall name f k, In (name, f) metricTable -> In k ks ->
        out !! metricKey name k =
        Some (VNumber (Spec.mean (fun r => f (rankedPassages r) k) valid))) /\
     out !! "totalQueries" = Some (VNumber (INR (length qs))) /\
     out !! "validQueries" = Some (VNumber (INR (length valid))) /\
     out !! "errorQueries" =
       Some (VNumber (INR (length qs) - INR (length valid))) /\
     out !! "error" = None).
Proof.
  cbv zeta. split; [|split].
  - intros ->. reflexivity.
  - intros Hq Hv. unfold calculateAverageMetrics.
    destruct (decide (length qs = 0%nat)) as [H0|_];
      [by apply length_zero_iff_nil in H0|].
    cbv zeta. change (fun r => negb (ToBoolean (qr_error r))) with Spec.valid.
    rewrite Hv. reflexivity.
  - intros Hv.
    assert (Hq : qs <> []) by (intros ->; by apply Hv).
    rewrite calculateAverageMetrics_unfold by done. cbv zeta.
    set (valid := List.filter Spec.valid qs) in *.
    repeat split.
    + intros name f k Hn Hk.
      rewrite !lookup_insert_ne
        by (apply (metricKey_not_reserved name f); tauto).
      rewrite averages_lookup.
      rewrite (sumOver_metric ks name f k valid _ 0); [| done | done |].
      * simpl. unfold Spec.mean. do 2 f_equal. lra.
      * by apply (storeAll_hit (fun _ _ => 0) ks ∅ name f k).
    + rewrite lookup_insert_ne by done. rewrite lookup_insert_ne by done.
      by rewrite lookup_insert_eq.
    + rewrite lookup_insert_ne by done. by rewrite lookup_insert_eq.
    + by rewrite lookup_insert_eq.
    + rewrite !lookup_insert_ne by done. rewrite averages_lookup.
      rewrite sumOver_reserved; [done|tauto|].
      rewrite storeAll_miss; [apply lookup_empty|].
      intros name f k Hn _. apply (metricKey_not_reserved name f); tauto.
Qed.

(** C8, as stated, fails on the empty list: the code returns the empty
    object there, which carries no "no valid results" marker. *)
Lemma C8_empty_list_has_no_marker :
  calculateAverageMetrics [] [1; 3; 5; 10]%nat = ∅ /\
  calculateAverageMetrics [] [1; 3; 5; 10]%nat !! "error" = None /\
  calculateAverageMetrics [QueryResult (VString "timeout") []] [1; 3; 5; 10]%nat
    !! "error" = Some (VString noValidResults).
Proof.
  split; [reflexivity|]. split; [reflexivity|].
  unfold calculateAverageMetrics. simpl.
  destruct (decide (1%nat = 0%nat)); [lia|].
  destruct (decide ("timeout" = "")); [discriminate|]. simpl.
  destruct (decide (0%nat = 0%nat)); [|lia].
  apply lookup_singleton_eq.
Qed.

End MetricsFacts.

(** ** ModelLoader: score normalisation *)

Section NormalizationFacts.
Import ModelLoader.
Local Open Scope R_scope.

(** *** The regular expression *)

Lemma append_nil_l s : "" +:+ s = s.
Proof. reflexivity. Qed.

Lemma append_cons ch s t : String ch s +:+ t = String ch (s +:+ t).
Proof. reflexivity. Qed.

Lemma starts_with_ci_spec pat : forall s,
  starts_with_ci pat s = true <->
  exists w post, s = w +:+ post /\ Spec.eq_ci w pat.
Proof.
  unfold Spec.eq_ci. induction pat as [|p pat IH]; intros s; simpl.
  - split; [|done]. intros _. by exists "", s.
  - destruct s as [|ch s].
    + split; [done|]. intros (w & post & Hs & Hw).
      destruct w; [discriminate Hw|]. rewrite append_cons in Hs. discriminate.
    + case_decide as Hc.
      * rewrite IH. split.
        -- intros (w & post & -> & Hw). exists (String ch w), post.
           rewrite append_cons. split; [done|]. simpl. by rewrite Hw, Hc.
        -- intros (w & post & Hs & Hw). destruct w as [|c' w];
             [discriminate Hw|].
           rewrite append_cons in Hs. simpl in Hw.
           injection Hs as -> ->. injection Hw as _ Hw. eauto.
      * split; [done|]. intros (w & post & Hs & Hw).
        destruct w as [|c' w]; [discriminate Hw|].
        rewrite append_cons in Hs. simpl in Hw.
        injection Hs as -> ->. injection Hw as Hl _. congruence.
Qed.

Lemma search_ci_spec pat : forall s,
  search_ci pat s = true <-> Spec.occurs_ci pat s.
Proof.
  unfold Spec.occurs_ci. induction s as [|ch s IH]; simpl.
  - rewrite orb_false_r, starts_with_ci_spec. split.
    + intros (w & post & Hs & Hw). by exists "", w, post.
    + intros (pre & w & post & Hs & Hw).
      destruct pre; [|rewrite append_cons in Hs; discriminate].
      rewrite append_nil_l in Hs. eauto.
  - rewrite orb_true_iff, starts_with_ci_spec, IH. split.
    + intros [(w & post & Hs & Hw)|(pre & w & post & Hs & Hw)].
      * by exists "", w, post.
      * exists (String ch pre), w, post. rewrite append_cons. by rewrite Hs.
    + intros (pre & w & post & Hs & Hw). destruct pre as [|c' pre].
      * left. rewrite append_nil_l in Hs. eauto.
      * right. rewrite append_cons in Hs. injection Hs as -> ->. eauto.
Qed.

Lemma regex_test_spec l : regex_test l = true <-> Spec.positive_label l.
Proof.
  unfold regex_test, Spec.positive_label.
  by rewrite orb_true_iff, !search_ci_spec.
Qed.

(** *** The positive-class index *)

Lemma find_least (f : nat -> bool) l x :
  StronglySorted le l -> List.find f l = Some x ->
  f x = true /\ In x l /\ forall j, In j l -> (j < x)%nat -> f j = false.
Proof.
  intros Hs. induction Hs as [|y l Hs IH Hall]; simpl; [done|].
  destruct (f y) eqn:Hy.
  - intros [= ->]. repeat split; [done|tauto|].
    intros j [->|Hj] Hlt; [lia|].
    rewrite List.Forall_forall in Hall. specialize (Hall _ Hj). lia.
  - intros Hf. destruct (IH Hf) as (Hx & Hin & Hleast).
    repeat split; [done|tauto|]. intros j [->|Hj] Hlt; [done|by apply Hleast].
Qed.

Lemma Object_keys_sorted o : StronglySorted le (Object_keys o).
Proof. unfold Object_keys. apply StronglySorted_merge_sort; apply _. Qed.

Lemma in_Object_keys o j : In j (Object_keys o) <-> is_Some (o !! j).
Proof.
  unfold Object_keys. rewrite <- list_elem_of_In.
  rewrite merge_sort_Permutation, elem_of_elements. apply elem_of_dom.
Qed.

Lemma positiveClassIndex_spec o :
  Spec.is_positive_index o (positiveClassIndex o).
Proof.
  unfold positiveClassIndex, Spec.is_positive_index.
  destruct (List.find _ _) as [x|] eqn:Hf; simpl.
  - left. apply find_least in Hf as (Hx & Hin & Hleast);
      [|apply Object_keys_sorted].
    destruct (o !! x) as [l|] eqn:Hl; [|done].
    exists l. split; [done|]. split; [by apply regex_test_spec|].
    intros j l' Hj Hl' Hpos.
    specialize (Hleast j). rewrite Hl' in Hleast.
    apply regex_test_spec in Hpos. rewrite Hleast in Hpos; [done| |done].
    apply in_Object_keys. by rewrite Hl'.
  - right. split; [done|]. intros j l' Hl' Hpos.
    pose proof (find_none _ _ Hf j) as Hn. simpl in Hn. rewrite Hl' in Hn.
    apply regex_test_spec in Hpos. rewrite Hn in Hpos; [done|].
    apply in_Object_keys. by rewrite Hl'.
Qed.

Lemma is_positive_index_unique o i j :
  Spec.is_positive_index o i -> Spec.is_positive_index o j -> i = j.
Proof.
  intros [(l & Hl & Hp & Hleast)|[-> Hnone]] [(l' & Hl' & Hp' & Hleast')|[-> Hnone']].
  - destruct (Nat.lt_total i j) as [Hlt|[->|Hlt]]; [|done|].
    + by destruct (Hleast' _ _ Hlt Hl).
    + by destruct (Hleast _ _ Hlt Hl').
  - by destruct (Hnone' _ _ Hl).
  - by destruct (Hnone _ _ Hl').
  - done.
Qed.

(** The index on some label maps: without labels and without a match it
    is 1; the search is unanchored, so [NOT_RELEVANT] matches too. *)
Example positiveClassIndex_examples :
  positiveClassIndex ∅ = 1%nat /\
  positiveClassIndex {[ 0%nat := "LABEL_0"; 1%nat := "LABEL_1" ]} = 1%nat /\
  positiveClassIndex {[ 0%nat := "negative"; 1%nat := "Positive" ]} = 1%nat /\
  positiveClassIndex {[ 0%nat := "Relevant"; 1%nat := "other" ]} = 0%nat /\
  positiveClassIndex {[ 2%nat := "relevant"; 0%nat := "no"; 1%nat := "no" ]}
    = 2%nat /\
  positiveClassIndex {[ 0%nat := "NOT_RELEVANT"; 1%nat := "RELEVANT" ]} = 0%nat.
Proof. repeat split; vm_compute; reflexivity. Qed.

(** *** Sigmoid and softmax *)

Lemma sigmoid_logistic x : sigmoid x = Spec.logistic x.
Proof. unfold sigmoid, Spec.logistic, Rdiv. lra. Qed.

Lemma sum_exp_pos (row : list R) :
  row <> [] -> 0 < fold_right Rplus 0 (map exp row).
Proof.
  destruct row as [|x row]; [done|]. intros _. simpl.
  assert (0 <= fold_right Rplus 0 (map exp row)).
  { induction row as [|y row IH]; simpl; [lra|]. pose proof (exp_pos y). lra. }
  pose proof (exp_pos x). lra.
Qed.

Lemma softmax_ok (row : list R) :
  row <> [] ->
  softmax row =
  Ok (map (fun x => exp x / fold_right Rplus 0 (map exp row)) row).
Proof.
  destruct row as [|x row]; [done|]. intros _.
  unfold softmax. cbv zeta. simpl reduce_sum.
  rewrite (fold_left_acc_sum (fun e => e) Rplus) by done.
  rewrite map_id. simpl. f_equal. f_equal.
  change (exp x :: map exp row) with (map exp (x :: row)).
  by rewrite map_map.
Qed.

Lemma at_index_softmax (row : list R) i :
  at_index i (map (fun x => exp x / fold_right Rplus 0 (map exp row)) row)
  = from_option VNumber VUndefined (Spec.softmax_at row i).
Proof.
  unfold at_index, Spec.softmax_at.
  rewrite list_lookup_fmap. by destruct (row !! i).
Qed.

Lemma mapM_softmax (rows : list (list R)) :
  Forall (fun row => row <> []) rows ->
  mapM softmax rows =
  Ok (map (fun row =>
             map (fun x => exp x / fold_right Rplus 0 (map exp row)) row) rows).
Proof.
  induction 1 as [|row rows Hrow _ IH]; [done|].
  simpl. rewrite softmax_ok by done. simpl. unfold mbind at 1. simpl.
  rewrite IH. reflexivity.
Qed.

Lemma getScores_unfold c name m tok pairs fs t :
  models c !! name = Some m -> tokenizers c !! name = Some tok ->
  pairs <> [] ->
  tok (map fst pairs) (map snd pairs) = Ok fs -> forward m fs = Ok t ->
  getScores c name pairs =
  (scores ← (if single_logit (dims t) then Ok (map sigmoid_first (tolist t))
             else probabilities ← mapM softmax (tolist t);
                  Ok (map (at_index (positiveClassIndex (id2label m)))
                          probabilities));
   Ok (map (fun s => Scored s (label_of s)) scores)).
Proof.
  intros Hm Ht Hp Htok Hfw. unfold getScores. rewrite Hm, Ht.
  destruct (decide (length pairs = 0%nat)) as [H0|_];
    [by apply length_zero_iff_nil in H0|].
  cbv zeta. rewrite Htok. simpl. rewrite Hfw. reflexivity.
Qed.

(** *** Bounds on [exp] by repeated squaring *)

Lemma fx_sq_down a : (0 <= a)%Z -> 0 <= fx (sq_down a) <= fx a * fx a.
Proof.
  intros Ha. unfold fx, sq_down.
  assert (Hp : 0 < IZR (2 ^ 40)) by (apply IZR_lt; done).
  pose proof (Z.mul_div_le (a * a) (2 ^ 40) eq_refl) as Hd.
  assert (Hq : (0 <= a * a / 2 ^ 40)%Z) by (apply Z.div_pos; nia).
  apply IZR_le in Hd, Hq. rewrite !mult_IZR in Hd.
  split.
  - apply Rmult_le_pos; [done|]. apply Rlt_le, Rinv_0_lt_compat, Hp.
  - apply (Rmult_le_reg_r (IZR (2 ^ 40) * IZR (2 ^ 40))); [nra|].
    replace (IZR (a * a / 2 ^ 40) / IZR (2 ^ 40) * (IZR (2 ^ 40) * IZR (2 ^ 40)))
      with (IZR (2 ^ 40) * IZR (a * a / 2 ^ 40)) by (field; lra).
    replace (IZR a / IZR (2 ^ 40) * (IZR a / IZR (2 ^ 40)) *
             (IZR (2 ^ 40) * IZR (2 ^ 40)))
      with (IZR a * IZR a) by (field; lra).
    done.
Qed.

Lemma iter_sq_down_nonneg n a : (0 <= a)%Z -> (0 <= Nat.iter n sq_down a)%Z.
Proof.
  intros Ha. induction n as [|n IH]; simpl; [done|].
  unfold sq_down at 1. apply Z.div_pos; nia.
Qed.

Lemma exp_iter_lower n a t :
  (0 <= a)%Z -> fx a <= exp t ->
  fx (Nat.iter n sq_down a) <= exp (2 ^ n * t).
Proof.
  intros Ha Hb. induction n as [|n IH]; simpl.
  - by rewrite Rmult_1_l.
  - pose proof (iter_sq_down_nonneg n a Ha) as Hn.
    destruct (fx_sq_down _ Hn) as [H0 H1].
    assert (Hf : 0 <= fx (Nat.iter n sq_down a)).
    { unfold fx. apply Rmult_le_pos; [by apply IZR_le|].
      apply Rlt_le, Rinv_0_lt_compat, IZR_lt. done. }
    replace (2 * 2 ^ n * t) with (2 ^ n * t + 2 ^ n * t) by lra.
    rewrite exp_plus. nra.
Qed.

Lemma exp_minus_4_lower : 0.01828 < exp (- 4).
Proof.
  pose proof (exp_iter_lower 13 1098974756864 (- / 2048)) as H.
  assert (Ha : fx 1098974756864 <= exp (- / 2048)).
  { eapply Rle_trans; [|apply exp_ineq1_le]. unfold fx.
    change (2 ^ 40)%Z with 1099511627776%Z. lra. }
  specialize (H ltac:(done) Ha).
  replace (2 ^ 13 * - / 2048) with (- 4) in H by (simpl; lra).
  eapply Rlt_le_trans; [|exact H].
  unfold fx.
  match goal with |- _ < IZR ?z / _ =>
    let v := eval vm_compute in z in change z with v end.
  change (2 ^ 40)%Z with 1099511627776%Z. lra.
Qed.

Lemma exp_minus_4_upper : exp (- 4) < 0.01838.
Proof.
  pose proof (exp_iter_lower 13 1100048498688 (/ 2048)) as H.
  assert (Ha : fx 1100048498688 <= exp (/ 2048)).
  { eapply Rle_trans; [|apply exp_ineq1_le]. unfold fx.
    change (2 ^ 40)%Z with 1099511627776%Z. lra. }
  specialize (H ltac:(done) Ha).
  replace (2 ^ 13 * / 2048) with 4 in H by (simpl; lra).
  replace (exp (- 4)) with (/ exp 4) by (rewrite <- exp_Ropp; f_equal; lra).
  assert (Hl : 54.41 < exp 4).
  { eapply Rlt_le_trans; [|exact H]. unfold fx.
    match goal with |- _ < IZR ?z / _ =>
      let v := eval vm_compute in z in change z with v end.
    change (2 ^ 40)%Z with 1099511627776%Z. lra. }
  apply (Rmult_lt_reg_r (exp 4)); [lra|].
  rewrite Rinv_l by lra. lra.
Qed.

Lemma softmax_example_value :
  Spec.softmax_at [-2; 2] 1 = Some (/ (1 + exp (- 4))).
Proof.
  unfold Spec.softmax_at. simpl. f_equal.
  replace (exp (- 4)) with (exp (-2) * exp (-2))
    by (rewrite <- exp_plus; f_equal; lra).
  assert (He : exp (-2) * exp 2 = 1)
    by (rewrite <- exp_plus, <- exp_0; f_equal; lra).
  pose proof (exp_pos 2). pose proof (exp_pos (-2)).
  replace (exp 2) with (/ exp (-2)).
  2:{ apply (Rmult_eq_reg_l (exp (-2))); [|lra]. rewrite Rinv_r by lra. lra. }
  field. nra.
Qed.


End NormalizationFacts.

(** ** NativeEmbeddingReranker: the sort *)

Section SortFacts.
Import ModelLoader NativeEmbeddingReranker.
Local Open Scope R_scope.

Variable StringToNumber : string -> option R.

Local Abbreviation item := (gmap string value).
Local Abbreviation score_of := (Spec.score_of StringToNumber).
Local Abbreviation keeps_order := (keeps_order StringToNumber).
Local Abbreviation insert_sorted := (insert_sorted StringToNumber).
Local Abbreviation Array_sort := (Array_sort StringToNumber).
Local Abbreviation not_below := (Spec.not_below StringToNumber).

Lemma keeps_order_false (a b : item) :
  keeps_order a b = false ->
  exists x y, score_of a = Some x /\ score_of b = Some y /\ x < y.
Proof.
  unfold NativeEmbeddingReranker.keeps_order, compareFn, Spec.score_of.
  destruct (ToNumber _ (field _ b)) as [y|]; [|done].
  destruct (ToNumber _ (field _ a)) as [x|]; [|done].
  destruct (Rle_dec (y - x) 0); [done|]. intros _. exists x, y.
  repeat split. lra.
Qed.

Lemma keeps_order_true (a b : item) x y :
  score_of a = Some x -> score_of b = Some y ->
  keeps_order a b = true -> y <= x.
Proof.
  unfold NativeEmbeddingReranker.keeps_order, compareFn, Spec.score_of.
  intros -> ->. destruct (Rle_dec (y - x) 0); [|done]. intros _. lra.
Qed.

Lemma insert_sorted_perm (a : item) l : insert_sorted a l ≡ₚ a :: l.
Proof.
  induction l as [|b l IH]; simpl; [done|].
  destruct (keeps_order a b); [done|].
  rewrite IH. apply Permutation_swap.
Qed.

Lemma Array_sort_perm (l : list item) : Array_sort l ≡ₚ l.
Proof.
  induction l as [|a l IH]; simpl; [done|].
  rewrite insert_sorted_perm. by rewrite IH.
Qed.

Lemma Array_sort_length (l : list item) : length (Array_sort l) = length l.
Proof. by rewrite Array_sort_perm. Qed.

(** An element is moved behind another only when its score is strictly
    smaller, so elements of equal score never change places. *)
Lemma insert_sorted_same_score r (a : item) l :
  filter (fun it => score_of it = Some r) (insert_sorted a l) =
  filter (fun it => score_of it = Some r) (a :: l).
Proof.
  induction l as [|b l IH]; simpl; [done|].
  destruct (keeps_order a b) eqn:Hk; [done|].
  apply keeps_order_false in Hk as (x & y & Hx & Hy & Hlt).
  rewrite (filter_cons _ b), IH, !filter_cons.
  repeat case_decide; try done.
  exfalso. assert (x = r) by congruence. assert (y = r) by congruence. lra.
Qed.

Lemma Array_sort_stable r (l : list item) :
  filter (fun it => score_of it = Some r) (Array_sort l) =
  filter (fun it => score_of it = Some r) l.
Proof.
  induction l as [|a l IH]; simpl; [done|].
  rewrite insert_sorted_same_score, !filter_cons, IH. done.
Qed.

Lemma insert_sorted_head (a : item) l :
  (exists l', insert_sorted a l = a :: l') \/
  (exists b l1 l2, l = b :: l1 /\ insert_sorted a l = b :: l2 /\
                   keeps_order a b = false).
Proof.
  destruct l as [|b l]; simpl; [left; eauto|].
  destruct (keeps_order a b) eqn:Hk; [left; eauto|].
  right. by exists b, l, (insert_sorted a l).
Qed.

Lemma insert_sorted_sorted (a : item) l :
  is_Some (score_of a) -> Forall (fun it => is_Some (score_of it)) l ->
  Sorted not_below l -> Sorted not_below (insert_sorted a l).
Proof.
  intros [x Hx]. induction l as [|b l IH]; intros Hnum Hs; simpl.
  - by repeat constructor.
  - apply Forall_cons in Hnum as [[y Hy] Hnum].
    apply Sorted_inv in Hs as [Hs Hhd].
    destruct (keeps_order a b) eqn:Hk.
    + constructor; [by constructor|]. constructor.
      exists x, y. repeat split; [done..|]. by eapply keeps_order_true.
    + constructor; [by apply IH|].
      destruct (insert_sorted_head a l) as [[l' ->]|(b' & l1 & l2 & -> & -> & _)].
      * constructor. apply keeps_order_false in Hk as (x' & y' & Hx' & Hy' & Hlt).
        exists y', x'. repeat split; [done..|]. lra.
      * constructor. by apply HdRel_inv in Hhd.
Qed.

Lemma Array_sort_sorted (l : list item) :
  Forall (fun it => is_Some (score_of it)) l -> Sorted not_below (Array_sort l).
Proof.
  induction 1 as [|a l Ha Hl IH]; simpl; [constructor|].
  apply insert_sorted_sorted; [done| |done].
  by rewrite Array_sort_perm.
Qed.

(** For scores that are numbers the result of a stable descending sort is
    determined: the insertion sort above stands for any implementation of
    [Array.prototype.sort] that meets ECMAScript 2019. *)
Lemma not_below_trans : Transitive not_below.
Proof.
  intros a b c (x & y & Hx & Hy & Hxy) (y' & z & Hy' & Hz & Hyz).
  exists x, z. repeat split; [done..|].
  assert (y = y') by congruence. lra.
Qed.

Lemma sorted_stable_unique (l1 l2 : list item) :
  Forall (fun it => is_Some (score_of it)) l1 ->
  Forall (fun it => is_Some (score_of it)) l2 ->
  Sorted not_below l1 -> Sorted not_below l2 ->
  (forall r, filter (fun it => score_of it = Some r) l1 =
             filter (fun it => score_of it = Some r) l2) ->
  l1 = l2.
Proof.
  intros Hn1 Hn2 Hs1 Hs2.
  apply Sorted_StronglySorted in Hs1, Hs2; try apply not_below_trans.
  revert l2 Hn2 Hs2.
  induction l1 as [|a t1 IH]; intros l2 Hn2 Hs2 Hfil.
  - destruct l2 as [|b t2]; [done|].
    apply Forall_cons in Hn2 as [[r' Hb] _].
    specialize (Hfil r'). rewrite filter_nil, filter_cons in Hfil.
    by case_decide.
  - apply Forall_cons in Hn1 as [[r Ha] Hn1].
    destruct l2 as [|b t2].
    { specialize (Hfil r). rewrite filter_cons, filter_nil in Hfil.
      by case_decide. }
    apply Forall_cons in Hn2 as [[r' Hb] Hn2].
    apply StronglySorted_inv in Hs1 as [Hs1 Ha1].
    apply StronglySorted_inv in Hs2 as [Hs2 Hb2].
    assert (Hle : r <= r').
    { pose proof (Hfil r) as H. rewrite (filter_cons _ a) in H.
      case_decide; [|done].
      assert (Hin : a ∈ b :: t2).
      { eapply list_elem_of_filter. rewrite <- H. left. }
      apply elem_of_cons in Hin as [->|Hin]; [assert (r = r') by congruence; lra|].
      rewrite List.Forall_forall in Hb2.
      apply list_elem_of_In in Hin.
      destruct (Hb2 _ Hin) as (x & y & Hx & Hy & Hxy).
      assert (x = r') by congruence. assert (y = r) by congruence. lra. }
    assert (Hge : r' <= r).
    { pose proof (Hfil r') as H. rewrite (filter_cons _ b) in H.
      case_decide; [|done].
      assert (Hin : b ∈ a :: t1).
      { eapply list_elem_of_filter. rewrite H. left. }
      apply elem_of_cons in Hin as [->|Hin]; [assert (r = r') by congruence; lra|].
      rewrite List.Forall_forall in Ha1.
      apply list_elem_of_In in Hin.
      destruct (Ha1 _ Hin) as (x & y & Hx & Hy & Hxy).
      assert (x = r) by congruence. assert (y = r') by congruence. lra. }
    assert (r = r') as <- by lra.
    pose proof (Hfil r) as Hr. rewrite !filter_cons in Hr.
    do 2 (case_decide; [|done]). injection Hr as <- Hr.
    f_equal. apply IH; [done..|].
    intros s. destruct (decide (s = r)) as [->|Hne]; [done|].
    specialize (Hfil s). rewrite !filter_cons in Hfil.
    case_decide; [congruence|done].
Qed.

Lemma Array_sort_unique (l l' : list item) :
  Forall (fun it => is_Some (score_of it)) l ->
  l' ≡ₚ l -> Sorted not_below l' ->
  (forall r, filter (fun it => score_of it = Some r) l' =
             filter (fun it => score_of it = Some r) l) ->
  l' = Array_sort l.
Proof.
  intros Hn Hp Hs Hst. apply sorted_stable_unique.
  - by rewrite Hp.
  - by rewrite Array_sort_perm.
  - done.
  - by apply Array_sort_sorted.
  - intros r. by rewrite Array_sort_stable.
Qed.

Lemma Sorted_take {A} (R : relation A) n (l : list A) :
  Sorted R l -> Sorted R (take n l).
Proof.
  revert n. induction l as [|a l IH]; intros [|n] Hs; simpl; try constructor.
  - apply IH. by apply Sorted_inv in Hs as [? _].
  - apply Sorted_inv in Hs as [_ Hhd].
    destruct l as [|b l], n as [|n]; simpl; constructor.
    by apply HdRel_inv in Hhd.
Qed.

(** [slice(0, topK)] for a non-negative [topK]. *)
Lemma Array_slice_0 {A} (l : list A) (k : Z) :
  (0 <= k)%Z -> Array_slice l 0 k = take (Z.to_nat k) l.
Proof.
  intros Hk. unfold Array_slice. cbv zeta.
  destruct (k <? 0)%Z eqn:Hlt; [lia|]. simpl.
  replace (0 `min` Z.of_nat (length l))%Z with 0%Z by lia.
  simpl. rewrite drop_0, Z.sub_0_r.
  destruct (decide (k <= Z.of_nat (length l))%Z).
  - by rewrite Z.min_l.
  - rewrite Z.min_r by lia. rewrite Nat2Z.id.
    rewrite !take_ge by lia. done.
Qed.

(** [slice(i, e)] for positions inside the array. *)
Lemma Array_slice_chunk {A} (l : list A) (i b : nat) :
  (i <= length l)%nat ->
  Array_slice l (Z.of_nat i) (Z.of_nat (Nat.min (i + b) (length l))) =
  take b (drop i l).
Proof.
  intros Hi. unfold Array_slice. cbv zeta.
  destruct (Z.ltb_spec (Z.of_nat i) 0) as [H1|_]; [lia|].
  destruct (Z.ltb_spec (Z.of_nat (Nat.min (i + b) (length l))) 0) as [H2|_];
    [lia|].
  rewrite !Z.min_l by lia. rewrite Nat2Z.id.
  destruct (decide (i + b <= length l)%nat).
  - f_equal. lia.
  - rewrite !take_ge; [done|rewrite length_drop; lia..].
Qed.

End SortFacts.

(** ** NativeEmbeddingReranker: the batching loop *)

Section LoopFacts.
Import ModelLoader NativeEmbeddingReranker.
Local Open Scope R_scope.

Variable c : cache.
Variable modelName query : string.
Variable documents : list document.
Variable b : nat.
Hypothesis b_pos : (1 <= b)%nat.

Local Abbreviation item := (gmap string value).
Local Abbreviation build := (build documents).
Local Abbreviation pairs_of := (pairs_of query).

Lemma rerank_loop_eq fuel i (allResults : list item) :
  rerank_loop c modelName query documents b fuel i allResults =
  if decide (i < length documents)%nat then
    match fuel with
    | O => Diverged
    | S fuel' =>
        match getScores c modelName (pairs_of (take b (drop i documents))) with
        | Throw e => Thrown e
        | Ok chunkScores =>
            rerank_loop c modelName query documents b fuel' (i + b)
              (allResults ++
               imap (fun j r => resultItem (i + j) (score r)
                                  (documents !! (i + j)%nat)) chunkScores)
        end
    end
  else Returned allResults.
Proof.
  destruct fuel; simpl; case_decide; try reflexivity.
  rewrite Array_slice_chunk by lia. reflexivity.
Qed.

Lemma chunk_nonempty i :
  (i < length documents)%nat -> take b (drop i documents) <> [].
Proof.
  intros Hi Hnil. apply (f_equal length) in Hnil.
  rewrite length_take, length_drop in Hnil. simpl in Hnil. lia.
Qed.

Lemma chunk_sublist i : take b (drop i documents) `sublist_of` documents.
Proof.
  etrans; [apply sublist_take|]. apply sublist_drop.
Qed.

(** What the loop does, for any property [Rel] that relates the scores
    returned by [getScores] to the documents they were computed for. *)
Lemma loop_outcome (Rel : document -> value -> Prop) :
  (forall chunk out, chunk <> [] ->
     getScores c modelName (pairs_of chunk) = Ok out ->
     Forall2 (fun d s => Rel d (score s)) chunk out) ->
  forall fuel i sc,
    (length documents - i <= fuel)%nat ->
    Forall2 Rel (take i documents) sc ->
    match rerank_loop c modelName query documents b fuel i (imap build sc) with
    | Returned res =>
        exists scores, res = imap build scores /\ Forall2 Rel documents scores
    | Thrown e =>
        exists chunk, chunk <> [] /\ chunk `sublist_of` documents /\
                      getScores c modelName (pairs_of chunk) = Throw e
    | Diverged => False
    end.
Proof.
  intros Hrel fuel. induction fuel as [|fuel IH]; intros i sc Hfuel Hsc;
    rewrite rerank_loop_eq; case_decide as Hi; try lia.
  - exists sc. split; [done|]. by rewrite take_ge in Hsc by lia.
  - destruct (getScores _ _ _) as [out|e] eqn:Hg.
    + pose proof (Hrel _ _ (chunk_nonempty i Hi) Hg) as Hout.
      assert (Hlen : length sc = i).
      { apply Forall2_length in Hsc. rewrite length_take in Hsc. lia. }
      replace (imap build sc ++ _) with (imap build (sc ++ map score out)).
      2:{ rewrite imap_app, imap_fmap, Hlen. reflexivity. }
      apply IH; [lia|].
      rewrite <- take_take_drop. apply Forall2_app; [done|].
      by apply Forall2_fmap_r.
    + exists (take b (drop i documents)).
      split; [by apply chunk_nonempty|]. split; [apply chunk_sublist|done].
  - exists sc. split; [done|]. by rewrite take_ge in Hsc by lia.
Qed.

(** Whatever the backend does, the loop finishes, and what it throws was
    thrown by [getScores] on one of the chunks. *)
Lemma loop_finishes fuel : forall i (acc : list item),
  (length documents - i <= fuel)%nat ->
  match rerank_loop c modelName query documents b fuel i acc with
  | Returned _ => True
  | Thrown e =>
      exists chunk, chunk <> [] /\ chunk `sublist_of` documents /\
                    getScores c modelName (pairs_of chunk) = Throw e
  | Diverged => False
  end.
Proof.
  induction fuel as [|fuel IH]; intros i acc Hfuel;
    rewrite rerank_loop_eq; case_decide as Hi; try lia; try done.
  destruct (getScores _ _ _) as [out|e] eqn:Hg.
  - apply IH. lia.
  - exists (take b (drop i documents)).
    split; [by apply chunk_nonempty|]. split; [apply chunk_sublist|done].
Qed.

End LoopFacts.

(** ** NativeEmbeddingReranker: rerank *)

Section RerankFacts.
Import ModelLoader NativeEmbeddingReranker.
Local Open Scope R_scope.

Variable StringToNumber : string -> option R.

Local Abbreviation item := (gmap string value).
Local Abbreviation rerank := (rerank StringToNumber).
Local Abbreviation Array_sort := (Array_sort StringToNumber).

(** [rerank], once the loop is understood. *)
Lemma rerank_outcome (Rel : document -> value -> Prop) c name query docs opts :
  (1 <= batchSize_of opts)%nat ->
  (forall chunk out, chunk <> [] ->
     getScores c name (pairs_of query chunk) = Ok out ->
     Forall2 (fun d s => Rel d (score s)) chunk out) ->
  match rerank c name query docs opts with
  | Returned out =>
      exists scores, Forall2 Rel docs scores /\
        out = Array_slice (Array_sort (imap (build docs) scores)) 0 (topK_of opts)
  | Thrown e =>
      exists chunk, chunk <> [] /\ chunk `sublist_of` docs /\
                    getScores c name (pairs_of query chunk) = Throw e
  | Diverged => False
  end.
Proof.
  intros Hb Hrel. unfold NativeEmbeddingReranker.rerank.
  case_decide as Hn.
  - apply length_zero_iff_nil in Hn as ->. exists []. split; [constructor|].
    unfold Array_slice. cbv zeta. simpl Array_sort. simpl length.
    by rewrite drop_nil, take_nil.
  - cbv zeta.
    pose proof (loop_outcome c name query docs (batchSize_of opts) Hb Rel Hrel
                  (length docs) 0 []) as H.
    simpl in H. fold (batchSize_of opts).
    destruct (rerank_loop _ _ _ _ _ _ _ _) as [res|e|].
    + destruct H as (scores & -> & HF); [lia|constructor|]. by exists scores.
    + apply H; [lia|constructor].
    + apply H; [lia|constructor].
Qed.

(** Under the backend contract [getScores] returns one numeric score per
    pair. *)
Lemma getScores_contract c name (pairs : list (string * value)) :
  Spec.backend_contract c name -> pairs <> [] ->
  exists out, getScores c name pairs = Ok out /\
    Forall2 (fun (_ : string * value) s => exists r, score s = VNumber r)
            pairs out.
Proof.
  intros (m & tok & Hm & Ht & Hc) Hp.
  destruct (Hc pairs Hp) as (fs & t & cols & Htok & Hfw & Hd & Hl & Hrows & Hcols).
  rewrite (getScores_unfold c name m tok pairs fs t) by done.
  rewrite Hd. unfold single_logit. simpl.
  assert (Hlen : forall (f : list R -> scored),
             Forall (fun row => exists r, score (f row) = VNumber r) (tolist t) ->
             Forall2 (fun (_ : string * value) s => exists r, score s = VNumber r)
                     pairs (map f (tolist t))).
  { intros f Hf. apply Forall2_fmap_r.
    apply Forall2_same_length_lookup. split; [by rewrite Hl|].
    intros i p row _ Hrow. rewrite Forall_lookup in Hf. eauto. }
  destruct (decide (cols = 1%nat)) as [->|Hne].
  - simpl. eexists. split; [reflexivity|]. rewrite map_map. apply Hlen.
    eapply Forall_impl; [exact Hrows|].
    intros [|x [|y row]] Hr; simpl in Hr; try lia. simpl. eauto.
  - destruct Hcols as [->|Hpci]; [done|].
    destruct cols as [|[|cols]]; [lia|done|].
    rewrite mapM_softmax.
    2:{ eapply Forall_impl; [exact Hrows|]. intros [|] ?; simpl in *; [lia|done]. }
    simpl. eexists. split; [reflexivity|]. rewrite !map_map. apply Hlen.
    eapply Forall_impl; [exact Hrows|]. intros row Hr. simpl in Hr. simpl.
    rewrite at_index_softmax. unfold Spec.softmax_at.
    assert (Hlt : (positiveClassIndex (id2label m) < length row)%nat) by lia.
    apply lookup_lt_is_Some_2 in Hlt as [x ->]. simpl. eauto.
Qed.

Lemma getScores_deterministic c name :
  Spec.deterministic_backend c name ->
  exists f : string -> value -> value,
    forall pairs : list (string * value), pairs <> [] ->
      exists out, getScores c name pairs = Ok out /\
        Forall2 (fun qp s => score s = f (fst qp) (snd qp)) pairs out.
Proof.
  intros (m & tok & cols & rowOf & Hm & Ht & Hcols & Hrow & Hc).
  exists (pair_score m cols rowOf). intros pairs Hp.
  destruct (Hc pairs Hp) as (fs & Htok & Hfw).
  rewrite (getScores_unfold c name m tok pairs fs _ Hm Ht Hp Htok Hfw).
  unfold single_logit, pair_score. simpl.
  destruct (decide (cols = 1%nat)) as [->|Hne].
  - simpl. eexists. split; [reflexivity|]. rewrite !map_map.
    apply Forall2_fmap_r, Forall_Forall2_diag, Forall_forall. done.
  - destruct cols as [|[|cols]]; [lia|done|].
    rewrite mapM_softmax.
    2:{ apply Forall_fmap, Forall_forall. intros [q p] _. simpl.
        specialize (Hrow q p). destruct (rowOf q p); simpl in *; [lia|done]. }
    simpl. eexists. split; [reflexivity|]. rewrite !map_map.
    apply Forall2_fmap_r, Forall_Forall2_diag, Forall_forall. done.
Qed.

End RerankFacts.

(** *** The items that are built *)

Section ItemFacts.
Import ModelLoader NativeEmbeddingReranker.
Local Open Scope R_scope.

Local Abbreviation item := (gmap string value).

Lemma resultItem_own i s (o : gmap string value) k v :
  o !! k = Some v -> resultItem i s (Some (DObject o)) !! k = Some v.
Proof. intros H. unfold resultItem. by apply lookup_union_Some_l. Qed.

Lemma resultItem_exposes i s d : Spec.exposes (resultItem i s (Some d)) d.
Proof.
  destruct d as [t|o]; simpl.
  - apply lookup_insert_eq.
  - intros k v. apply resultItem_own.
Qed.

Lemma resultItem_corpus_id i s d :
  Spec.lacks "_rerank_corpus_id" d ->
  resultItem i s (Some d) !! "_rerank_corpus_id" = Some (VNumber (INR i)).
Proof.
  destruct d as [t|o]; simpl; intros H.
  - rewrite lookup_insert_ne by done. rewrite lookup_insert_ne by done.
    apply lookup_insert_eq.
  - rewrite lookup_union_r by done. rewrite lookup_insert_ne by done.
    apply lookup_insert_eq.
Qed.

Lemma resultItem_score i s d :
  field "_rerank_score" (resultItem i s (Some d)) =
  match d with
  | DString _ => s
  | DObject o => default s (o !! "_rerank_score")
  end.
Proof.
  unfold field. destruct d as [t|o]; simpl.
  - rewrite lookup_insert_ne by done. by rewrite lookup_insert_eq.
  - destruct (o !! "_rerank_score") as [v|] eqn:Hv.
    + by erewrite lookup_union_Some_l.
    + rewrite lookup_union_r by done. by rewrite lookup_insert_eq.
Qed.

End ItemFacts.

(** *** An example backend: every pair gets the single logit 0 *)

Section ExampleBackend.
Import ModelLoader NativeEmbeddingReranker.
Local Open Scope R_scope.

Lemma example_deterministic : Spec.deterministic_backend example_cache "m".
Proof.
  exists zero_model, count_tokenizer, 1%nat, (fun _ _ => [0]).
  repeat split; [lia|]. intros pairs _. eexists. split; [reflexivity|].
  simpl. rewrite !length_map, !map_map. reflexivity.
Qed.

Lemma example_contract : Spec.backend_contract example_cache "m".
Proof.
  exists zero_model, count_tokenizer. repeat split.
  intros pairs _. eexists _, _, 1%nat. split; [reflexivity|].
  split; [reflexivity|]. simpl. rewrite !length_map.
  repeat split; [|by left].
  apply Forall_fmap, Forall_forall. done.
Qed.

Lemma example_getScores (pairs : list (string * value)) :
  pairs <> [] ->
  getScores example_cache "m" pairs =
  Ok (map (fun _ => Scored (VNumber (sigmoid 0)) (label_of (VNumber (sigmoid 0))))
          pairs).
Proof.
  intros Hp.
  rewrite (getScores_unfold example_cache "m" zero_model count_tokenizer pairs
             _ _ eq_refl eq_refl Hp eq_refl eq_refl).
  simpl. by rewrite !map_map.
Qed.

End ExampleBackend.

(** *** The properties of [rerank] *)

Section RerankTheorems.
Import ModelLoader NativeEmbeddingReranker.
Local Open Scope R_scope.

Variable StringToNumber : string -> option R.

Local Abbreviation item := (gmap string value).
Local Abbreviation rerank := (rerank StringToNumber).
Local Abbreviation Array_sort := (Array_sort StringToNumber).
Local Abbreviation score_of := (Spec.score_of StringToNumber).

(** Under the backend contract [rerank] returns: the scores are numbers,
    one per document, and the result is the sorted, truncated list of the
    items built from them in index order. *)
Lemma rerank_returns c name query docs opts :
  Spec.backend_contract c name -> (1 <= batchSize_of opts)%nat ->
  exists scores,
    Forall2 (fun (_ : document) s => is_number s) docs scores /\
    rerank c name query docs opts =
    Returned (Array_slice (Array_sort (imap (build docs) scores)) 0
                          (topK_of opts)).
Proof.
  intros Hc Hb.
  pose proof (rerank_outcome StringToNumber (fun _ s => is_number s)
                c name query docs opts Hb) as H.
  assert (Hrel : forall chunk out, chunk <> [] ->
            getScores c name (pairs_of query chunk) = Ok out ->
            Forall2 (fun (_ : document) s => is_number (score s)) chunk out).
  { intros chunk out Hne Hg.
    destruct (getScores_contract c name (pairs_of query chunk) Hc)
      as (out' & Hg' & HF).
    { unfold pairs_of. by destruct chunk. }
    rewrite Hg in Hg'. injection Hg' as <-.
    unfold pairs_of in HF. by apply Forall2_fmap_l in HF. }
  specialize (H Hrel).
  destruct (rerank c name query docs opts) as [out|e|]; [|exfalso..].
  - destruct H as (scores & HF & ->). by exists scores.
  - destruct H as (chunk & Hne & _ & Hg).
    destruct (getScores_contract c name (pairs_of query chunk) Hc)
      as (out' & Hg' & _).
    { unfold pairs_of. by destruct chunk. }
    congruence.
  - done.
Qed.

Lemma build_numeric docs j s :
  (j < length docs)%nat -> is_number s ->
  Forall (Spec.own_score_numeric StringToNumber) docs ->
  is_Some (score_of (build docs j s)).
Proof.
  intros Hj [r ->] Hown. unfold build, Spec.score_of.
  destruct (lookup_lt_is_Some_2 docs j Hj) as [d Hd]. rewrite Hd.
  rewrite resultItem_score. rewrite Forall_lookup in Hown.
  specialize (Hown _ _ Hd). destruct d as [t|o]; simpl in *; [eauto|].
  destruct (o !! "_rerank_score") as [v|]; simpl; eauto.
Qed.


Lemma rerank_eq_loop c name query docs opts :
  docs <> [] ->
  rerank c name query docs opts =
  match rerank_loop c name query docs (batchSize_of opts) (length docs) 0 []
  with
  | Returned allResults =>
      Returned (Array_slice (Array_sort allResults) 0 (topK_of opts))
  | Thrown e => Thrown e
  | Diverged => Diverged
  end.
Proof.
  intros Hne. unfold NativeEmbeddingReranker.rerank.
  case_decide as Hn; [by apply length_zero_iff_nil in Hn|]. reflexivity.
Qed.

Lemma rerank_nil c name query opts : rerank c name query [] opts = Returned [].
Proof. reflexivity. Qed.

Lemma Array_slice_nil {A} (s e : Z) : Array_slice (@nil A) s e = [].
Proof. unfold Array_slice. cbv zeta. by rewrite drop_nil, take_nil. Qed.

(** [slice(0, k)] is always an initial segment. *)
Lemma Array_slice_0_take {A} (l : list A) (k : Z) :
  exists m, Array_slice l 0 k = take m l.
Proof.
  unfold Array_slice. cbv zeta. simpl.
  replace (0 `min` Z.of_nat (length l))%Z with 0%Z by lia.
  simpl. rewrite drop_0. eauto.
Qed.

(** Under the backend contract the loop returns the items of all documents
    in index order. *)
Lemma loop_returns c name query docs b :
  Spec.backend_contract c name -> (1 <= b)%nat ->
  exists scores,
    Forall2 (fun (_ : document) s => is_number s) docs scores /\
    rerank_loop c name query docs b (length docs) 0 [] =
    Returned (imap (build docs) scores).
Proof.
  intros Hc Hb.
  pose proof (loop_outcome c name query docs b Hb (fun _ s => is_number s))
    as H.
  assert (Hok : forall chunk, chunk <> [] ->
            exists out, getScores c name (pairs_of query chunk) = Ok out /\
              Forall2 (fun (_ : document) s => is_number (score s)) chunk out).
  { intros chunk Hne.
    destruct (getScores_contract c name (pairs_of query chunk) Hc)
      as (out & Hg & HF).
    { unfold pairs_of. by destruct chunk. }
    exists out. split; [done|].
    unfold pairs_of in HF. by apply Forall2_fmap_l in HF. }
  assert (Hrel : forall chunk out, chunk <> [] ->
            getScores c name (pairs_of query chunk) = Ok out ->
            Forall2 (fun (_ : document) s => is_number (score s)) chunk out).
  { intros chunk out Hne Hg. destruct (Hok chunk Hne) as (out' & Hg' & HF).
    congruence. }
  specialize (H Hrel (length docs) 0%nat [] ltac:(lia) ltac:(constructor)).
  simpl in H.
  destruct (rerank_loop _ _ _ _ _ _ _ _) as [res|e|]; [|exfalso..].
  - destruct H as (scores & -> & HF). by exists scores.
  - destruct H as (chunk & Hne & _ & Hg).
    destruct (Hok chunk Hne) as (out & Hg' & _). congruence.
  - done.
Qed.

Lemma Forall2_functional {A B} (g : A -> B) l k :
  Forall2 (fun a y => y = g a) l k -> k = map g l.
Proof. induction 1 as [|a y l k -> _ IH]; simpl; by f_equal. Qed.


(** Splitting a list at an element that survives a filter. *)
Lemma filter_split {A} (P : A -> Prop) `{!forall x, Decision (P x)}
    (l : list A) X a T :
  filter P l = X ++ a :: T ->
  exists l1 l2, l = l1 ++ a :: l2 /\ filter P l1 = X /\ filter P l2 = T.
Proof.
  revert X. induction l as [|x l IH]; intros X Hf.
  - by destruct X.
  - rewrite filter_cons in Hf. case_decide as Hx.
    + destruct X as [|x' X]; simpl in Hf.
      * injection Hf as -> <-. by exists [], l.
      * injection Hf as -> Hf. destruct (IH _ Hf) as (l1 & l2 & -> & <- & <-).
        exists (x' :: l1), l2. rewrite filter_cons. by case_decide.
    + destruct (IH _ Hf) as (l1 & l2 & -> & <- & <-).
      exists (x :: l1), l2. rewrite filter_cons. by case_decide.
Qed.

(** If the [P]-elements of [out] are an initial segment of the
    [P]-elements of [merged], two [P]-elements of [out] stand in [merged]
    in the same order. *)
Lemma same_relative_order {A} (P : A -> Prop) `{!forall x, Decision (P x)}
    (out merged : list A) p p' a a' :
  filter P out `prefix_of` filter P merged ->
  (p < p')%nat -> out !! p = Some a -> out !! p' = Some a' -> P a -> P a' ->
  exists i i', (i < i')%nat /\ merged !! i = Some a /\ merged !! i' = Some a'.
Proof.
  intros [rest Hpre] Hlt Ha Ha' HPa HPa'.
  assert (Hout : exists u v w, out = u ++ a :: v ++ a' :: w).
  { exists (take p out), (take (p' - S p) (drop (S p) out)),
           (drop (S (p' - S p)) (drop (S p) out)).
    rewrite <- (take_drop_middle out p a Ha) at 1. f_equal. f_equal.
    symmetry. apply take_drop_middle.
    rewrite lookup_drop. rewrite <- Ha'. f_equal. lia. }
  destruct Hout as (u & v & w & ->).
  rewrite !filter_app, !filter_cons, !filter_app, !filter_cons in Hpre.
  do 2 (case_decide; [|done]).
  rewrite <- !app_assoc in Hpre. simpl in Hpre. rewrite <- !app_assoc in Hpre.
  simpl in Hpre.
  apply filter_split in Hpre as (l1 & l2 & -> & _ & Hl2).
  apply filter_split in Hl2 as (l3 & l4 & -> & _ & _).
  exists (length l1), (length l1 + S (length l3))%nat.
  split; [lia|]. split.
  - by rewrite list_lookup_middle.
  - rewrite lookup_app_r by lia.
    replace (length l1 + S (length l3) - length l1)%nat with (S (length l3))
      by lia.
    simpl. by rewrite list_lookup_middle.
Qed.

Lemma filter_take_prefix {A} (P : A -> Prop) `{!forall x, Decision (P x)}
    m (l : list A) :
  filter P (take m l) `prefix_of` filter P l.
Proof.
  exists (filter P (drop m l)). by rewrite <- filter_app, take_drop.
Qed.





End RerankTheorems.

Section RerankExamples.
Import ModelLoader NativeEmbeddingReranker.
Local Open Scope R_scope.


Lemma Array_sort_two S2N (a b : gmap string value) :
  Array_sort S2N [a; b] = if keeps_order S2N a b then [a; b] else [b; a].
Proof. reflexivity. Qed.

Lemma keeps_order_nan S2N (a b : gmap string value) :
  Spec.score_of S2N b = None -> keeps_order S2N a b = true.
Proof.
  unfold Spec.score_of, keeps_order, compareFn. by intros ->.
Qed.

(** One batch of the example backend: every document scores [sigmoid 0]. *)
Lemma example_rerank_one_batch S2N (docs : list document) :
  docs <> [] -> (length docs <= 128)%nat ->
  rerank S2N example_cache "m" "q" docs defaults =
  Returned (take 4 (Array_sort S2N
    (imap (fun j (_ : document) =>
             resultItem j (VNumber (sigmoid 0)) (docs !! j)) docs))).
Proof.
  intros Hne Hlen. unfold rerank.
  case_decide as Hn; [by apply length_zero_iff_nil in Hn|]. cbv zeta.
  change (default 128%nat (batchSize defaults)) with 128%nat.
  change (default 4%Z (topK defaults)) with 4%Z.
  assert (H0 : (0 < length docs)%nat) by (destruct docs; simpl; [done|lia]).
  rewrite rerank_loop_eq by lia. case_decide; [|lia].
  destruct (length docs) as [|n] eqn:Hl; [lia|].
  rewrite drop_0, take_ge by lia.
  rewrite example_getScores by (unfold pairs_of; by destruct docs).
  rewrite rerank_loop_eq by lia. case_decide; [lia|].
  rewrite Array_slice_0 by lia. simpl app.
  unfold pairs_of. rewrite !imap_fmap. reflexivity.
Qed.

Lemma rerank_docs_nan :
  rerank no_numbers example_cache "m" "q" docs_nan defaults =
  Returned [ resultItem 0 (VNumber (sigmoid 0)) (Some (DString "a"));
             resultItem 1 (VNumber (sigmoid 0)) (Some (DObject nan_record)) ].
Proof.
  rewrite example_rerank_one_batch by (simpl; done || lia).
  change (imap _ docs_nan) with
    [ resultItem 0 (VNumber (sigmoid 0)) (Some (DString "a"));
      resultItem 1 (VNumber (sigmoid 0)) (Some (DObject nan_record)) ].
  rewrite Array_sort_two, keeps_order_nan; [reflexivity|].
  unfold Spec.score_of. rewrite resultItem_score.
  unfold nan_record. by rewrite lookup_insert_eq.
Qed.









(** The override on a concrete call: the only returned item carries the
    record's own corpus id and score. *)
Example C10_example :
  rerank no_numbers example_cache "m" "q" [DObject both_record] defaults =
    Returned [resultItem 0 (VNumber (sigmoid 0)) (Some (DObject both_record))]
  /\ resultItem 0 (VNumber (sigmoid 0)) (Some (DObject both_record))
       !! "_rerank_corpus_id" = Some (VNumber 7)
  /\ resultItem 0 (VNumber (sigmoid 0)) (Some (DObject both_record))
       !! "_rerank_score" = Some (VString "high").
Proof.
  split; [|split].
  - rewrite example_rerank_one_batch by (simpl; done || lia). reflexivity.
  - apply resultItem_own. unfold both_record.
    rewrite lookup_insert_ne by done. apply lookup_insert_eq.
  - apply resultItem_own. unfold both_record. apply lookup_insert_eq.
Qed.

End RerankExamples.

(** ** ModelLoader: concurrent initialisation *)

Section InitializationFacts.
Import ModelLoader Initialization.

Ltac step_cases s e :=
  destruct e as [key0|q r|q r|o]; simpl;
  [ unfold initialize; cbv zeta; case_decide;
    [|destruct (initializationPromises s !! key0) eqn:?]
  | unfold model_settles;
    destruct (tasks s !! q) as [[key0 [|m]]|] eqn:?; [destruct r as [m|err]|..]
  | unfold tokenizer_settles;
    destruct (tasks s !! q) as [[key0 [|m]]|] eqn:?;
    [|destruct r as [t|err]|]
  | unfold clearCache; destruct o as [key0|]; [case_decide|] ];
  simpl.

Lemma settle_lookup p r (cs : gmap nat (string * call_status)) id :
  settle p r cs !! id =
  (fun kc : string * call_status =>
     match snd kc with
     | Waiting q => if decide (q = p) then (fst kc, Done r) else kc
     | Done _ => kc
     end) <$> cs !! id.
Proof. unfold settle. apply lookup_fmap. Qed.

Lemma settle_same p r cs id k :
  cs !! id = Some (k, Waiting p) -> settle p r cs !! id = Some (k, Done r).
Proof.
  intros H. rewrite settle_lookup, H. simpl. by case_decide.
Qed.

Lemma settle_other p q r cs id k :
  q <> p -> cs !! id = Some (k, Waiting p) ->
  settle q r cs !! id = Some (k, Waiting p).
Proof.
  intros Hne H. rewrite settle_lookup, H. simpl. by case_decide.
Qed.

Lemma settle_key p r cs id k st :
  settle p r cs !! id = Some (k, st) -> exists st', cs !! id = Some (k, st').
Proof.
  rewrite settle_lookup. destruct (cs !! id) as [[k' st']|]; [|done].
  simpl. destruct st' as [q|r']; [case_decide|]; intros [= <- <-]; eauto.
Qed.

Lemma fresh_step s e :
  fresh s ->
  fresh (step s e) /\
  (next_promise s <= next_promise (step s e))%nat /\
  (next_call s <= next_call (step s e))%nat.
Proof.
  intros [Hf Hc]. unfold fresh.
  assert (Hins : forall v id x,
            <[next_call s := v]> (calls s) !! id = Some x ->
            (id < S (next_call s))%nat).
  { intros v id x H. destruct (decide (id = next_call s)) as [->|Hne]; [lia|].
    rewrite lookup_insert_ne in H by done. apply Hc in H. lia. }
  assert (Hset : forall p r id x,
            settle p r (calls s) !! id = Some x -> (id < next_call s)%nat).
  { intros p r id [k st] H. apply settle_key in H as [st' H]. eauto. }
  step_cases s e; (split; [split|split; lia]); try done; eauto;
    intros q' x Hq'.
  - destruct (decide (q' = next_promise s)) as [->|Hne]; [lia|].
    rewrite lookup_insert_ne in Hq' by done. apply Hf in Hq'. lia.
  - destruct (decide (q' = q)) as [->|Hne]; [by eapply Hf|].
    rewrite lookup_insert_ne in Hq' by done. by eapply Hf.
  - apply lookup_delete_Some in Hq' as [_ Hq']. by eapply Hf.
  - apply lookup_delete_Some in Hq' as [_ Hq']. by eapply Hf.
  - apply lookup_delete_Some in Hq' as [_ Hq']. by eapply Hf.
Qed.

Lemma pending_back s e p :
  fresh s -> (p < next_promise s)%nat ->
  Spec.pending p (step s e) -> Spec.pending p s.
Proof.
  unfold Spec.pending. intros [Hf _] Hp.
  step_cases s e; try done; intros [x Hx].
  - rewrite lookup_insert_ne in Hx by lia. eauto.
  - destruct (decide (p = q)) as [->|Hne]; [eauto|].
    rewrite lookup_insert_ne in Hx by done. eauto.
  - apply lookup_delete_Some in Hx as [_ Hx]. eauto.
  - apply lookup_delete_Some in Hx as [_ Hx]. eauto.
  - apply lookup_delete_Some in Hx as [_ Hx]. eauto.
Qed.

Lemma fresh_run tr : forall s,
  fresh s -> fresh (run s tr) /\ (next_promise s <= next_promise (run s tr))%nat.
Proof.
  induction tr as [|e tr IH]; intros s Hf; simpl; [split; [done|lia]|].
  destruct (fresh_step s e Hf) as (Hf' & Hle & _).
  destruct (IH _ Hf') as [Hf'' Hle']. split; [done|lia].
Qed.

Lemma run_snoc s tr e : run s (tr ++ [e]) = step (run s tr) e.
Proof. unfold run. by rewrite fold_left_app. Qed.

Lemma registered_step s e : fresh s -> registered s -> registered (step s e).
Proof.
  intros [Hf _] Hr. unfold registered in *.
  step_cases s e; try done; intros k p Hk.
  - destruct (decide (k = key0)) as [->|Hne].
    + rewrite lookup_insert_eq in Hk. injection Hk as <-.
      rewrite lookup_insert_eq. eauto.
    + rewrite lookup_insert_ne in Hk by done.
      destruct (Hr _ _ Hk) as [ph Hph]. exists ph.
      rewrite lookup_insert_ne; [done|]. apply Hf in Hph. lia.
  - destruct (Hr _ _ Hk) as [ph Hph].
    destruct (decide (p = q)) as [->|Hne].
    + rewrite lookup_insert_eq. rewrite Hph in *. simplify_eq. eauto.
    + rewrite lookup_insert_ne by done. eauto.
  - apply lookup_delete_Some in Hk as [Hne Hk].
    destruct (Hr _ _ Hk) as [ph Hph]. exists ph.
    rewrite lookup_delete_ne; [done|]. intros ->. congruence.
  - apply lookup_delete_Some in Hk as [Hne Hk].
    destruct (Hr _ _ Hk) as [ph Hph]. exists ph.
    rewrite lookup_delete_ne; [done|]. intros ->. congruence.
  - apply lookup_delete_Some in Hk as [Hne Hk].
    destruct (Hr _ _ Hk) as [ph Hph]. exists ph.
    rewrite lookup_delete_ne; [done|]. intros ->. congruence.
  - apply lookup_delete_Some in Hk as [Hne Hk]. eauto.
Qed.

Lemma reachable_wf tr : fresh (run initial tr) /\ registered (run initial tr).
Proof.
  induction tr as [|e tr [Hf Hr]] using rev_ind.
  - split; [split|]; intros ? ? H; simpl in H; by rewrite lookup_empty in H.
  - rewrite run_snoc. split; [by apply fresh_step|by apply registered_step].
Qed.

(** *** Counting requests *)

Lemma model_loads_snoc key s s' x :
  requests s' = requests s ++ [x] ->
  Spec.model_loads key s' =
  (Spec.model_loads key s + if decide (x = ModelRequest key) then 1 else 0)%nat.
Proof.
  intros H. unfold Spec.model_loads. rewrite H.
  rewrite filter_app, length_app, filter_cons, filter_nil. by case_decide.
Qed.

Lemma tokenizer_loads_snoc key s s' x :
  requests s' = requests s ++ [x] ->
  Spec.tokenizer_loads key s' =
  (Spec.tokenizer_loads key s +
   if decide (x = TokenizerRequest key) then 1 else 0)%nat.
Proof.
  intros H. unfold Spec.tokenizer_loads. rewrite H.
  rewrite filter_app, length_app, filter_cons, filter_nil. by case_decide.
Qed.

(** *** The invariant of a running initialisation *)

Lemma running_start key s :
  fresh s -> registered s ->
  models s !! key = None ->
  (forall q ph, tasks s !! q <> Some (key, ph)) ->
  running key (next_promise s) (next_call s)
          (Spec.model_loads key s) (Spec.tokenizer_loads key s)
          (initialize key s).
Proof.
  intros Hf Hr Hm Hnone.
  assert (Hp : initializationPromises s !! key = None).
  { destruct (initializationPromises s !! key) as [p|] eqn:Hp; [|done].
    destruct (Hr _ _ Hp) as [ph Hph]. by destruct (Hnone p ph). }
  pose proof (fresh_step s (Initialize key) Hf) as (Hf' & _ & _).
  simpl in Hf'. revert Hf'.
  unfold initialize. cbv zeta.
  case_decide as Hc; [rewrite Hm in Hc; by destruct Hc|].
  rewrite Hp. intros Hf'. destruct Hf as [Hft Hfc].
  split; simpl.
  - exists LoadingModel. rewrite lookup_insert_eq. split; [done|].
    erewrite tokenizer_loads_snoc by reflexivity.
    case_decide; [done|]. simpl. lia.
  - apply lookup_insert_eq.
  - done.
  - done.
  - intros q ph Hq. destruct (decide (q = next_promise s)) as [->|Hne]; [done|].
    rewrite lookup_insert_ne in Hq by done. by destruct (Hnone q ph).
  - erewrite model_loads_snoc by reflexivity.
    case_decide; [lia|done].
  - apply lookup_insert_eq.
  - lia.
  - intros id [Hle [st Hst]]. simpl in Hst.
    destruct (decide (id = next_call s)) as [->|Hne]; [apply lookup_insert_eq|].
    rewrite lookup_insert_ne in Hst by done. apply Hfc in Hst. lia.
Qed.

(** A step that neither evicts [key] nor ends the initialisation [p]
    keeps the invariant. *)
Lemma running_step key p from m0 t0 s e :
  running key p from m0 t0 s -> Spec.keeps key e ->
  Spec.pending p (step s e) ->
  running key p from m0 t0 (step s e).
Proof.
  intros [(ph & Htask & Htok) Hreg Hnc Hf Honly Hloads Hfirst Hnext Hcallers]
         Hkeep Hpend.
  pose proof (fresh_step s e Hf) as (Hf' & _ & _).
  assert (Hplt : (p < next_promise s)%nat) by (destruct Hf as [Hf _]; eauto).
  assert (Hnew : forall k' st' id,
            (k' = key -> st' = Waiting p) ->
            Spec.caller key from
              (State (models s) (tokenizers s) (initializationPromises s)
                     (tasks s) (<[next_call s := (k', st')]> (calls s))
                     (requests s) (next_promise s) (S (next_call s))) id ->
            <[next_call s := (k', st')]> (calls s) !! id
              = Some (key, Waiting p)).
  { intros k' st' id Hk [Hle [st Hst]]. simpl in Hst.
    destruct (decide (id = next_call s)) as [->|Hne].
    - rewrite lookup_insert_eq in *. injection Hst as -> ->.
      by rewrite Hk.
    - rewrite lookup_insert_ne in * by done. apply Hcallers. split; eauto. }
  assert (Hsettled : forall q r id st,
            q <> p -> (from <= id)%nat ->
            settle q r (calls s) !! id = Some (key, st) ->
            settle q r (calls s) !! id = Some (key, Waiting p)).
  { intros q r id st Hq Hle Hst. apply settle_key in Hst as [st' Hst'].
    apply settle_other; [done|]. apply Hcallers. split; eauto. }
  revert Hpend Hf'. unfold Spec.pending.
  step_cases s e; intros Hpend Hf'; try (by split; eauto).
  - (* initialize: already cached, so a call for another key *)
    assert (key0 <> key) by (intros ->; rewrite Hnc in *; by destruct H).
    split; simpl; eauto.
    + rewrite lookup_insert_ne by lia. done.
    + intros id Hid. eapply Hnew; [|exact Hid]. done.
  - (* initialize: a promise is registered *)
    split; simpl; eauto.
    + rewrite lookup_insert_ne by lia. done.
    + intros id Hid. eapply Hnew; [|exact Hid]. intros ->. congruence.
  - (* initialize: a new initialisation, for another key *)
    assert (key0 <> key) by (intros ->; congruence).
    split; simpl.
    + exists ph. rewrite lookup_insert_ne by lia. split; [done|].
      erewrite tokenizer_loads_snoc by reflexivity. rewrite Htok. case_decide; [done|lia].
    + by rewrite lookup_insert_ne.
    + done.
    + done.
    + intros q ph' Hq. destruct (decide (q = next_promise s)) as [->|Hne].
      * rewrite lookup_insert_eq in Hq. congruence.
      * rewrite lookup_insert_ne in Hq by done. eauto.
    + erewrite model_loads_snoc by reflexivity. rewrite Hloads. case_decide; [congruence|lia].
    + rewrite lookup_insert_ne by lia. done.
    + lia.
    + intros id [Hle [st Hst]]. simpl in Hst.
      destruct (decide (id = next_call s)) as [->|Hne].
      * rewrite lookup_insert_eq in Hst. congruence.
      * rewrite lookup_insert_ne in * by done. apply Hcallers. split; eauto.
  - (* the model is loaded *)
    destruct (decide (q = p)) as [->|Hne].
    + assert (key0 = key /\ ph = LoadingModel) as [-> ->] by (split; congruence).
      split; simpl; eauto.
      * exists (LoadingTokenizer m). rewrite lookup_insert_eq. split; [done|].
        erewrite tokenizer_loads_snoc by reflexivity. rewrite Htok. case_decide; [simpl; lia|done].
      * intros q' ph' Hq'. destruct (decide (q' = p)) as [->|Hne]; [done|].
        rewrite lookup_insert_ne in Hq' by done. eauto.
      * erewrite model_loads_snoc by reflexivity. rewrite Hloads. case_decide; [done|lia].
    + assert (key0 <> key) by (intros ->; by apply Hne, (Honly q LoadingModel)).
      split; simpl; eauto.
      * exists ph. rewrite lookup_insert_ne by done. split; [done|].
        erewrite tokenizer_loads_snoc by reflexivity. rewrite Htok. case_decide; [congruence|lia].
      * intros q' ph' Hq'. destruct (decide (q' = q)) as [->|Hne'].
        -- rewrite lookup_insert_eq in Hq'. congruence.
        -- rewrite lookup_insert_ne in Hq' by done. eauto.
      * erewrite model_loads_snoc by reflexivity. rewrite Hloads. case_decide; [done|lia].
  - (* the model load fails *)
    destruct (decide (q = p)) as [->|Hne].
    { rewrite lookup_delete_eq in Hpend. by destruct Hpend. }
    assert (key0 <> key) by (intros ->; by apply Hne, (Honly q LoadingModel)).
    split; simpl; eauto.
    + exists ph. by rewrite lookup_delete_ne.
    + by rewrite lookup_delete_ne.
    + intros q' ph' Hq'. apply lookup_delete_Some in Hq' as [_ Hq']. eauto.
    + by apply settle_other.
    + intros id [Hle [st Hst]]. simpl in Hst. eauto.
  - (* the tokenizer is loaded *)
    destruct (decide (q = p)) as [->|Hne].
    { rewrite lookup_delete_eq in Hpend. by destruct Hpend. }
    assert (key0 <> key)
      by (intros ->; by apply Hne, (Honly q (LoadingTokenizer m))).
    split; simpl; eauto.
    + exists ph. by rewrite lookup_delete_ne.
    + by rewrite lookup_delete_ne.
    + by rewrite lookup_insert_ne.
    + intros q' ph' Hq'. apply lookup_delete_Some in Hq' as [_ Hq']. eauto.
    + by apply settle_other.
    + intros id [Hle [st Hst]]. simpl in Hst. eauto.
  - (* the tokenizer load fails *)
    destruct (decide (q = p)) as [->|Hne].
    { rewrite lookup_delete_eq in Hpend. by destruct Hpend. }
    assert (key0 <> key)
      by (intros ->; by apply Hne, (Honly q (LoadingTokenizer m))).
    split; simpl; eauto.
    + exists ph. by rewrite lookup_delete_ne.
    + by rewrite lookup_delete_ne.
    + intros q' ph' Hq'. apply lookup_delete_Some in Hq' as [_ Hq']. eauto.
    + by apply settle_other.
    + intros id [Hle [st Hst]]. simpl in Hst. eauto.
  - (* clearCache with an empty name *)
    destruct Hkeep as [Hk _]. done.
  - (* clearCache of another key *)
    destruct Hkeep as [_ Hk].
    split; simpl; eauto.
    + by rewrite lookup_delete_ne.
    + by rewrite lookup_delete_ne.
Qed.

Lemma running_run key p from m0 t0 tr : forall s,
  running key p from m0 t0 s -> Forall (Spec.keeps key) tr ->
  Spec.pending p (run s tr) ->
  running key p from m0 t0 (run s tr).
Proof.
  induction tr as [|e tr IH] using rev_ind; intros s Hrun Hkeep Hpend;
    [done|].
  rewrite run_snoc in *. apply Forall_app in Hkeep as [Hkeep He].
  rewrite Forall_singleton in He.
  destruct (fresh_run tr s (run_fresh _ _ _ _ _ _ Hrun)) as [Hf Hle].
  assert (Hp : (p < next_promise s)%nat).
  { destruct (run_task _ _ _ _ _ _ Hrun) as (ph & Hph & _).
    destruct (run_fresh _ _ _ _ _ _ Hrun) as [Hft _]. eauto. }
  apply running_step; [|done..].
  apply IH; [done..|]. eapply pending_back; [done| |done]. lia.
Qed.

(** How a running initialisation ends. *)
Lemma running_succeeds key p from m0 t0 s m t :
  running key p from m0 t0 s ->
  tasks s !! p = Some (key, LoadingTokenizer m) ->
  let s' := step s (TokenizerSettles p (Ok t)) in
  models s' !! key = Some m /\ tokenizers s' !! key = Some t /\
  initializationPromises s' !! key = None /\
  Spec.model_loads key s' = S m0 /\ Spec.tokenizer_loads key s' = S t0 /\
  forall id, Spec.caller key from s id ->
             calls s' !! id = Some (key, Done (Ok ())).
Proof.
  intros [(ph & Htask & Htok) Hreg Hnc Hf Honly Hloads Hfirst Hnext Hcallers]
         Hph.
  rewrite Hph in Htask. injection Htask as <-.
  simpl. unfold tokenizer_settles. rewrite Hph. simpl.
  rewrite !lookup_insert_eq, lookup_delete_eq.
  repeat split; [done| |].
  - unfold Spec.tokenizer_loads in *. simpl in *. lia.
  - intros id Hid. apply settle_same. by apply Hcallers.
Qed.

Lemma running_fails_on_model key p from m0 t0 s err :
  running key p from m0 t0 s ->
  tasks s !! p = Some (key, LoadingModel) ->
  let s' := step s (ModelSettles p (Throw err)) in
  models s' !! key = None /\ initializationPromises s' !! key = None /\
  Spec.model_loads key s' = S m0 /\
  forall id, Spec.caller key from s id ->
             calls s' !! id = Some (key, Done (Throw err)).
Proof.
  intros [(ph & Htask & Htok) Hreg Hnc Hf Honly Hloads Hfirst Hnext Hcallers]
         Hph.
  simpl. unfold model_settles. rewrite Hph. simpl.
  rewrite lookup_delete_eq. repeat split; [done..|].
  intros id Hid. apply settle_same. by apply Hcallers.
Qed.

Lemma running_fails_on_tokenizer key p from m0 t0 s m err :
  running key p from m0 t0 s ->
  tasks s !! p = Some (key, LoadingTokenizer m) ->
  let s' := step s (TokenizerSettles p (Throw err)) in
  models s' !! key = None /\ initializationPromises s' !! key = None /\
  Spec.model_loads key s' = S m0 /\
  forall id, Spec.caller key from s id ->
             calls s' !! id = Some (key, Done (Throw err)).
Proof.
  intros [(ph & Htask & Htok) Hreg Hnc Hf Honly Hloads Hfirst Hnext Hcallers]
         Hph.
  simpl. unfold tokenizer_settles. rewrite Hph. simpl.
  rewrite lookup_delete_eq. repeat split; [done..|].
  intros id Hid. apply settle_same. by apply Hcallers.
Qed.

(** C6: let a call of [initialize] for [key] find nothing cached and no
    initialisation of [key] running, and let any schedule follow that
    does not evict [key] and in which that first initialisation has not yet
    ended. Then exactly one model load (and at most one tokenizer load) has
    been requested for [key] since the first call, and every call for
    [key] made since then awaits the same promise. When the initialisation
    ends, all of them finish with its outcome: on success the model and
    the tokenizer are cached, on failure nothing is cached and all receive
    the same error. *)
Theorem C6_one_load_and_one_outcome_per_key tr0 key tr1 :
  let s0 := run initial tr0 in
  let p := next_promise s0 in
  let from := next_call s0 in
  let s1 := run (initialize key s0) tr1 in
  models s0 !! key = None ->
  (forall q ph, tasks s0 !! q <> Some (key, ph)) ->
  Forall (Spec.keeps key) tr1 ->
  Spec.pending p s1 ->
  (Spec.model_loads key s1 = S (Spec.model_loads key s0) /\
   (Spec.tokenizer_loads key s1 <= S (Spec.tokenizer_loads key s0))%nat) /\
  Spec.caller key from s1 from /\
  (forall id, Spec.caller key from s1 id ->
              calls s1 !! id = Some (key, Waiting p)) /\
  (forall m t, tasks s1 !! p = Some (key, LoadingTokenizer m) ->
     let s2 := step s1 (TokenizerSettles p (Ok t)) in
     models s2 !! key = Some m /\ tokenizers s2 !! key = Some t /\
     Spec.model_loads key s2 = S (Spec.model_loads key s0) /\
     forall id, Spec.caller key from s1 id ->
                calls s2 !! id = Some (key, Done (Ok ()))) /\
  (forall err, tasks s1 !! p = Some (key, LoadingModel) ->
     let s2 := step s1 (ModelSettles p (Throw err)) in
     models s2 !! key = None /\ initializationPromises s2 !! key = None /\
     Spec.model_loads key s2 = S (Spec.model_loads key s0) /\
     forall id, Spec.caller key from s1 id ->
                calls s2 !! id = Some (key, Done (Throw err))) /\
  (forall m err, tasks s1 !! p = Some (key, LoadingTokenizer m) ->
     let s2 := step s1 (TokenizerSettles p (Throw err)) in
     models s2 !! key = None /\ initializationPromises s2 !! key = None /\
     Spec.model_loads key s2 = S (Spec.model_loads key s0) /\
     forall id, Spec.caller key from s1 id ->
                calls s2 !! id = Some (key, Done (Throw err))).
Proof.
  intros s0 p from s1 Hm Hnone Hkeep Hpend.
  destruct (reachable_wf tr0) as [Hf Hr]. fold s0 in Hf, Hr.
  pose proof (running_start key s0 Hf Hr Hm Hnone) as Hstart.
  pose proof (running_run key p from _ _ tr1 _ Hstart Hkeep Hpend) as Hrun.
  fold s1 in Hrun.
  split; [|split; [|split; [|split; [|split]]]].
  - split; [apply (run_loads _ _ _ _ _ _ Hrun)|].
    destruct (run_task _ _ _ _ _ _ Hrun) as (ph & _ & ->).
    destruct ph; simpl; lia.
  - split; [done|]. exists (Waiting p). apply (run_first _ _ _ _ _ _ Hrun).
  - apply (run_callers _ _ _ _ _ _ Hrun).
  - intros m t Hph.
    destruct (running_succeeds _ _ _ _ _ _ m t Hrun Hph)
      as (? & ? & _ & ? & _ & ?). done.
  - intros err Hph. by apply (running_fails_on_model _ _ _ _ _ _ err Hrun).
  - intros m err Hph.
    by apply (running_fails_on_tokenizer _ _ _ _ _ _ m err Hrun).
Qed.

Lemma C6_witness :
  let s0 := run initial [] in
  let p := next_promise s0 in
  let from := next_call s0 in
  let s1 := run (initialize "m" s0) two_more_calls in
  (Spec.model_loads "m" s1 = S (Spec.model_loads "m" s0) /\
   (Spec.tokenizer_loads "m" s1 <= S (Spec.tokenizer_loads "m" s0))%nat) /\
  Spec.caller "m" from s1 from /\
  (forall id, Spec.caller "m" from s1 id ->
              calls s1 !! id = Some ("m", Waiting p)) /\
  (forall m t, tasks s1 !! p = Some ("m", LoadingTokenizer m) ->
     let s2 := step s1 (TokenizerSettles p (Ok t)) in
     models s2 !! "m" = Some m /\ tokenizers s2 !! "m" = Some t /\
     Spec.model_loads "m" s2 = S (Spec.model_loads "m" s0) /\
     forall id, Spec.caller "m" from s1 id ->
                calls s2 !! id = Some ("m", Done (Ok ()))) /\
  (forall err, tasks s1 !! p = Some ("m", LoadingModel) ->
     let s2 := step s1 (ModelSettles p (Throw err)) in
     models s2 !! "m" = None /\ initializationPromises s2 !! "m" = None /\
     Spec.model_loads "m" s2 = S (Spec.model_loads "m" s0) /\
     forall id, Spec.caller "m" from s1 id ->
                calls s2 !! id = Some ("m", Done (Throw err))) /\
  (forall m err, tasks s1 !! p = Some ("m", LoadingTokenizer m) ->
     let s2 := step s1 (TokenizerSettles p (Throw err)) in
     models s2 !! "m" = None /\ initializationPromises s2 !! "m" = None /\
     Spec.model_loads "m" s2 = S (Spec.model_loads "m" s0) /\
     forall id, Spec.caller "m" from s1 id ->
                calls s2 !! id = Some ("m", Done (Throw err))).
Proof.
  apply (C6_one_load_and_one_outcome_per_key [] "m" two_more_calls).
  - reflexivity.
  - intros q ph. simpl. by rewrite lookup_empty.
  - repeat constructor.
  - unfold Spec.pending. vm_compute. eauto.
Defined.

(** The same schedule, run: one request, three calls awaiting promise 0;
    after the two loads have succeeded all three calls have returned and
    still one model load has been requested. *)
Example three_calls_example :
  let s1 := run initial (Initialize "m" :: two_more_calls) in
  requests s1 = [ModelRequest "m"] /\
  calls s1 !! 0%nat = Some ("m", Waiting 0) /\
  calls s1 !! 1%nat = Some ("m", Waiting 0) /\
  calls s1 !! 2%nat = Some ("m", Waiting 0) /\
  forall m t,
    let s2 := run s1 [ModelSettles 0 (Ok m); TokenizerSettles 0 (Ok t)] in
    requests s2 = [ModelRequest "m"; TokenizerRequest "m"] /\
    models s2 !! "m" = Some m /\ tokenizers s2 !! "m" = Some t /\
    calls s2 !! 0%nat = Some ("m", Done (Ok ())) /\
    calls s2 !! 1%nat = Some ("m", Done (Ok ())) /\
    calls s2 !! 2%nat = Some ("m", Done (Ok ())).
Proof.
  cbv zeta. repeat split; vm_compute; reflexivity.
Qed.

End InitializationFacts.

(** ** ModelLoader: sigmoid and softmax *)

Section ScoringExtras.
Import ModelLoader.
Local Open Scope R_scope.

Lemma sigmoid_range x : 0 < sigmoid x < 1.
Proof.
  unfold sigmoid. pose proof (exp_pos (- x)) as He.
  split.
  - apply Rdiv_lt_0_compat; lra.
  - apply (Rmult_lt_reg_r (1 + exp (- x))); [lra|].
    unfold Rdiv. rewrite Rmult_assoc, Rinv_l by lra. lra.
Qed.

Lemma sigmoid_increasing x y : x < y -> sigmoid x < sigmoid y.
Proof.
  intros Hxy. unfold sigmoid, Rdiv. rewrite !Rmult_1_l.
  pose proof (exp_pos (- x)). pose proof (exp_pos (- y)).
  apply Rinv_lt_contravar; [nra|].
  assert (exp (- y) < exp (- x)) by (apply exp_increasing; lra). lra.
Qed.

Lemma sigmoid_opp x : sigmoid (- x) = 1 - sigmoid x.
Proof.
  unfold sigmoid. rewrite Ropp_involutive.
  pose proof (exp_pos x) as Hx.
  replace (exp (- x)) with (/ exp x) by (symmetry; apply exp_Ropp).
  field. split; lra.
Qed.

Lemma sigmoid_half x : 0.5 < sigmoid x <-> 0 < x.
Proof.
  assert (H0 : sigmoid 0 = 0.5) by (unfold sigmoid; rewrite Ropp_0, exp_0; lra).
  split; intros H.
  - destruct (Rlt_le_dec 0 x) as [|Hle]; [done|].
    destruct Hle as [Hlt|Heq].
    + apply sigmoid_increasing in Hlt. lra.
    + subst. lra.
  - apply sigmoid_increasing in H. lra.
Qed.


Lemma sum_exp_ge (row : list R) x :
  x ∈ row -> exp x <= fold_right Rplus 0 (map exp row).
Proof.
  induction row as [|y row IH]; [by intros ?%elem_of_nil|].
  intros [->|Hin]%elem_of_cons; simpl.
  - assert (0 <= fold_right Rplus 0 (map exp row)).
    { clear. induction row as [|z row IH]; simpl; [lra|].
      pose proof (exp_pos z). lra. }
    lra.
  - pose proof (exp_pos y). specialize (IH Hin). lra.
Qed.

Lemma sum_div (l : list R) (d : R) :
  fold_right Rplus 0 (map (fun e => e / d) l) = fold_right Rplus 0 l / d.
Proof.
  induction l as [|x l IH]; simpl; [unfold Rdiv; lra|].
  rewrite IH. unfold Rdiv. lra.
Qed.

Lemma softmax_values (x : R) (row : list R) :
  exists ps, softmax (x :: row) = Ok ps /\ length ps = S (length row) /\
    Forall (fun p => 0 < p <= 1) ps /\ fold_right Rplus 0 ps = 1.
Proof.
  rewrite softmax_ok by done. eexists. split; [reflexivity|].
  set (l := x :: row).
  assert (Hpos : 0 < fold_right Rplus 0 (map exp l)) by (by apply sum_exp_pos).
  split; [by rewrite length_map|]. split.
  - apply Forall_fmap, Forall_forall. intros y Hy. simpl.
    pose proof (sum_exp_ge l y Hy). pose proof (exp_pos y).
    split; [by apply Rdiv_lt_0_compat|].
    apply (Rmult_le_reg_r (fold_right Rplus 0 (map exp l))); [done|].
    unfold Rdiv. rewrite Rmult_assoc, Rinv_l by lra. lra.
  - rewrite <- (map_map exp (fun e => e / fold_right Rplus 0 (map exp l))).
    rewrite sum_div. field. lra.
Qed.



End ScoringExtras.

(** ** ModelLoader: what getScores returns and throws *)

Section GetScoresExtras.
Import ModelLoader.
Local Open Scope R_scope.

Lemma mapM_softmax_inv (rows : list (list R)) probs :
  mapM softmax rows = Ok probs ->
  Forall2 (fun row p => softmax row = Ok p) rows probs.
Proof.
  revert probs. induction rows as [|row rows IH]; intros probs H; simpl in H.
  - injection H as <-. constructor.
  - destruct (softmax row) as [p|e] eqn:Hp; [|done].
    unfold mbind at 1 in H. simpl in H.
    destruct (mapM softmax rows) as [k|e] eqn:Hk; [|done].
    injection H as <-. constructor; [done|]. by apply IH.
Qed.

Lemma mapM_softmax_empty_row (rows : list (list R)) :
  [] ∈ rows -> mapM softmax rows = Throw TypeError.
Proof.
  induction rows as [|row rows IH]; [by intros ?%elem_of_nil|].
  intros Hin. simpl. destruct row as [|x row]; [reflexivity|].
  rewrite softmax_ok by done. unfold mbind at 1. simpl.
  apply elem_of_cons in Hin as [?|Hin]; [done|]. by rewrite IH.
Qed.

Lemma softmax_in_range row p i :
  softmax row = Ok p -> score_in_range (at_index i p).
Proof.
  destruct row as [|x row]; [done|]. intros Hp.
  destruct (softmax_values x row) as (ps & Hps & _ & Hall & _).
  rewrite Hp in Hps. injection Hps as <-.
  unfold at_index. destruct (p !! i) as [r|] eqn:Hr; [|done]. simpl.
  rewrite Forall_lookup in Hall. eauto.
Qed.

Lemma sigmoid_first_in_range row : score_in_range (sigmoid_first row).
Proof.
  destruct row as [|x row]; [done|]. simpl.
  pose proof (sigmoid_range x). lra.
Qed.

Lemma label_of_relevant v :
  label_of v = "RELEVANT" <-> exists r, v = VNumber r /\ 0.5 < r.
Proof.
  destruct v as [| |r|s]; simpl; try (split; [done|by intros (? & ? & _)]).
  destruct (Rlt_dec 0.5 r) as [Hr|Hr].
  - split; [eauto|done].
  - split; [done|]. intros (r' & [= <-] & ?). done.
Qed.

(** What [getScores] returns: range of the scores and their labels. *)
Lemma getScores_scores c name pairs out :
  getScores c name pairs = Ok out ->
  Forall (fun s => score_in_range (score s) /\ label s = label_of (score s)) out.
Proof.
  unfold getScores.
  destruct (models c !! name) as [m|]; [|done].
  destruct (tokenizers c !! name) as [tok|]; [|done].
  case_decide; [intros [= <-]; constructor|]. cbv zeta.
  destruct (tok _ _) as [fs|e]; [|done]. simpl.
  destruct (forward m fs) as [t|e]; [|done]. simpl.
  destruct (single_logit (dims t)).
  - simpl. intros [= <-]. rewrite map_map.
    apply Forall_fmap, Forall_forall. intros row _. simpl.
    split; [apply sigmoid_first_in_range|done].
  - destruct (mapM softmax (tolist t)) as [probs|e] eqn:Hm; [|done].
    simpl. intros [= <-]. rewrite map_map.
    apply mapM_softmax_inv in Hm.
    apply Forall_fmap. apply Forall_forall. intros p Hp. simpl.
    split; [|done].
    apply list_elem_of_lookup in Hp as [i Hi].
    destruct (Forall2_lookup_r _ _ _ _ _ Hm Hi) as (row & _ & Hrow).
    by eapply softmax_in_range.
Qed.



(** X5: [getScores] checks the cache before it looks at its argument: if
    the model or the tokenizer is missing it throws the not-initialised
    error for every argument, the empty array included; if both are there
    an empty array returns [[]] without the backend being consulted. *)
Theorem getScores_needs_initialization_but_not_for_nothing c name :
  (models c !! name = None \/ tokenizers c !! name = None ->
   forall pairs, getScores c name pairs = Throw (NotInitialized name)) /\
  (is_Some (models c !! name) -> is_Some (tokenizers c !! name) ->
   getScores c name [] = Ok []).
Proof.
  split.
  - intros H pairs. unfold getScores, tokenizer in *.
    destruct H as [-> | ->]; [done|]. by destruct (models c !! name).
  - intros [m Hm] [t Ht]. unfold getScores, tokenizer in *. by rewrite Hm, Ht.
Qed.

Lemma getScores_needs_initialization_witness :
  getScores (Cache ∅ ∅) "m" [] = Throw (NotInitialized "m") /\
  getScores (Cache ∅ ∅) "m" [("q", VString "a")] = Throw (NotInitialized "m") /\
  getScores (Cache {[ "m" := failing_model ]} {[ "m" := failing_tokenizer ]})
    "m" [] = Ok [].
Proof.
  pose proof (getScores_needs_initialization_but_not_for_nothing
                (Cache ∅ ∅) "m") as [H1 _].
  pose proof (getScores_needs_initialization_but_not_for_nothing
                (Cache {[ "m" := failing_model ]} {[ "m" := failing_tokenizer ]})
                "m") as [_ H2].
  split; [apply H1; by left|]. split; [apply H1; by left|].
  apply H2; simpl; rewrite lookup_singleton_eq; eauto.
Defined.

(** X6: for a non-empty batch on an initialised loader, [getScores] throws
    what the tokenizer throws, else what the network throws, and it throws
    a [TypeError] when a multi-logit output contains an empty row. *)
Theorem getScores_passes_backend_errors_on c name m tok pairs :
  models c !! name = Some m -> tokenizers c !! name = Some tok ->
  pairs <> [] ->
  (forall e, tok (map fst pairs) (map snd pairs) = Throw e ->
             getScores c name pairs = Throw e) /\
  (forall fs e, tok (map fst pairs) (map snd pairs) = Ok fs ->
                forward m fs = Throw e ->
                getScores c name pairs = Throw e) /\
  (forall fs t, tok (map fst pairs) (map snd pairs) = Ok fs ->
                forward m fs = Ok t ->
                single_logit (dims t) = false -> [] ∈ tolist t ->
                getScores c name pairs = Throw TypeError).
Proof.
  intros Hm Ht Hp.
  assert (Hlen : length pairs <> 0%nat) by (by destruct pairs).
  split; [|split].
  - intros e He. unfold getScores, tokenizer in *. rewrite Hm, Ht.
    case_decide; [done|]. cbv zeta. by rewrite He.
  - intros fs e Hfs He. unfold getScores, tokenizer in *. rewrite Hm, Ht.
    case_decide; [done|]. cbv zeta. rewrite Hfs. simpl. by rewrite He.
  - intros fs t Hfs Hfw Hs Hin.
    rewrite (getScores_unfold c name m tok pairs fs t) by done.
    rewrite Hs. by rewrite mapM_softmax_empty_row.
Qed.

Lemma getScores_passes_backend_errors_on_witness :
  getScores (Cache {[ "m" := zero_model ]} {[ "m" := failing_tokenizer ]}) "m"
    [("q", VString "a")] = Throw (BackendError "tokenizer") /\
  getScores (Cache {[ "m" := failing_model ]} {[ "m" := count_tokenizer ]}) "m"
    [("q", VString "a")] = Throw (BackendError "session") /\
  getScores (Cache {[ "m" := empty_rows_model ]} {[ "m" := count_tokenizer ]}) "m"
    [("q", VString "a")] = Throw TypeError.
Proof.
  split; [|split].
  - apply (getScores_passes_backend_errors_on _ "m" zero_model failing_tokenizer
             [("q", VString "a")]); [reflexivity|reflexivity|done|reflexivity].
  - eapply (getScores_passes_backend_errors_on _ "m" failing_model count_tokenizer
              [("q", VString "a")]); [reflexivity|reflexivity|done|
                                      reflexivity|reflexivity].
  - eapply (getScores_passes_backend_errors_on _ "m" empty_rows_model
              count_tokenizer [("q", VString "a")]);
      [reflexivity|reflexivity|done|reflexivity|reflexivity|reflexivity|].
    simpl. apply list_elem_of_here.
Defined.



End GetScoresExtras.

(** ** NativeEmbeddingReranker: edge cases of rerank *)

Section RerankExtras.
Import ModelLoader NativeEmbeddingReranker.
Local Open Scope R_scope.

Variable StringToNumber : string -> option R.

Local Abbreviation item := (gmap string value).
Local Abbreviation rerank := (rerank StringToNumber).
Local Abbreviation Array_sort := (Array_sort StringToNumber).
Local Abbreviation score_of := (Spec.score_of StringToNumber).
Local Abbreviation not_below := (Spec.not_below StringToNumber).

Lemma getScores_not_initialized c name pairs :
  models c !! name = None \/ tokenizers c !! name = None ->
  getScores c name pairs = Throw (NotInitialized name).
Proof.
  intros H. unfold getScores, tokenizer in *.
  destruct H as [-> | ->]; [done|]. by destruct (models c !! name).
Qed.

Lemma getScores_nil c name :
  is_Some (models c !! name) -> is_Some (tokenizers c !! name) ->
  getScores c name [] = Ok [].
Proof.
  intros [m Hm] [t Ht]. unfold getScores, tokenizer in *. by rewrite Hm, Ht.
Qed.

(** X8: on a reranker whose model or tokenizer is not cached, [rerank]
    returns [[]] for an empty document list and throws the not-initialised
    error for every other list, whatever the options. *)
Theorem rerank_needs_initialization_unless_there_is_nothing_to_rank
    c name query docs opts :
  models c !! name = None \/ tokenizers c !! name = None ->
  rerank c name query docs opts =
  if decide (docs = []) then Returned [] else Thrown (NotInitialized name).
Proof.
  intros H. case_decide as Hd; [by subst|].
  rewrite rerank_eq_loop by done.
  destruct docs as [|d docs']; [done|]. simpl.
  by rewrite getScores_not_initialized.
Qed.

Lemma Array_slice_empty {A} (l : list A) : Array_slice l 0 0 = [].
Proof. by rewrite Array_slice_0. Qed.

Lemma loop_batch_size_zero c name query docs :
  is_Some (models c !! name) -> is_Some (tokenizers c !! name) ->
  docs <> [] ->
  forall fuel acc, rerank_loop c name query docs 0 fuel 0 acc = Diverged.
Proof.
  intros Hm Ht Hd fuel.
  assert (Hlen : (0 < length docs)%nat) by (destruct docs; simpl; [done|lia]).
  induction fuel as [|fuel IH]; intros acc; simpl; case_decide; try lia;
    [done|].
  change (Z.of_nat 0) with 0%Z. rewrite Array_slice_empty. simpl.
  rewrite getScores_nil by done. simpl. rewrite app_nil_r. apply IH.
Qed.

(** X9: with [batchSize: 0] on an initialised reranker and a non-empty
    document list the loop of [rerank] never ends: every chunk is empty,
    the index does not advance, and however many iterations are unfolded
    the loop has not finished. *)
Theorem rerank_with_batch_size_zero_never_finishes c name query docs k :
  is_Some (models c !! name) -> is_Some (tokenizers c !! name) ->
  docs <> [] ->
  (forall fuel acc, rerank_loop c name query docs 0 fuel 0 acc = Diverged) /\
  rerank c name query docs (Options k (Some 0%nat)) = Diverged.
Proof.
  intros Hm Ht Hd. split; [by apply loop_batch_size_zero|].
  rewrite rerank_eq_loop by done. unfold batchSize_of. simpl.
  by rewrite loop_batch_size_zero.
Qed.

(** [slice(0, k)] for a negative [k]: all but the last [-k] elements. *)
Lemma Array_slice_0_negative {A} (l : list A) (k : Z) :
  (k < 0)%Z -> Array_slice l 0 k = take (length l - Z.to_nat (- k)) l.
Proof.
  intros Hk. unfold Array_slice. cbv zeta.
  destruct (Z.ltb_spec k 0) as [_|?]; [|lia]. simpl.
  replace (0 `min` Z.of_nat (length l))%Z with 0%Z by lia.
  simpl. rewrite drop_0, Z.sub_0_r. f_equal. lia.
Qed.

(** The result of [rerank] as a slice of the full ranking. *)
Lemma rerank_as_slice c name query docs opts :
  Spec.backend_contract c name -> (1 <= batchSize_of opts)%nat ->
  exists ranking,
    length ranking = length docs /\
    rerank c name query docs
      (Options (Some (Z.of_nat (length docs))) (batchSize opts))
      = Returned ranking /\
    rerank c name query docs opts
      = Returned (Array_slice ranking 0 (topK_of opts)) /\
    exists scores,
      Forall2 (fun (_ : document) s => is_number s) docs scores /\
      ranking = Array_sort (imap (build docs) scores).
Proof.
  intros Hc Hb.
  destruct (loop_returns c name query docs (batchSize_of opts) Hc Hb)
    as (scores & HF & Hloop).
  exists (Array_sort (imap (build docs) scores)).
  assert (Hlen : length (Array_sort (imap (build docs) scores)) = length docs).
  { rewrite Array_sort_length, length_imap. by apply Forall2_length in HF. }
  split; [done|].
  destruct (decide (docs = [])) as [->|Hne].
  - apply Forall2_nil_inv_l in HF as ->. simpl.
    rewrite !rerank_nil, Array_slice_nil. eauto using Forall2_nil.
  - rewrite !rerank_eq_loop by done.
    change (batchSize_of (Options _ (batchSize opts))) with (batchSize_of opts).
    rewrite Hloop. split; [|split; [done|eauto]].
    f_equal. unfold topK_of at 1. simpl.
    rewrite Array_slice_0 by lia. rewrite take_ge; [done|].
    rewrite Hlen. lia.
Qed.



Lemma StronglySorted_take_drop {A} (R : relation A) n (l : list A) a b :
  StronglySorted R l -> a ∈ take n l -> b ∈ drop n l -> R a b.
Proof.
  intros Hs Ha Hb. rewrite <- (take_drop n l) in Hs.
  by eapply StronglySorted_app_1_elem_of.
Qed.


(** Under the backend contract the scores are probabilities. *)
Lemma loop_returns_probabilities c name query docs b :
  Spec.backend_contract c name -> (1 <= b)%nat ->
  exists scores,
    Forall2 (fun (_ : document) s => exists r, s = VNumber r /\ 0 < r <= 1)
            docs scores /\
    rerank_loop c name query docs b (length docs) 0 [] =
    Returned (imap (build docs) scores).
Proof.
  intros Hc Hb.
  set (Rel := fun (_ : document) s => exists r, s = VNumber r /\ 0 < r <= 1).
  assert (Hok : forall chunk, chunk <> [] ->
            exists out, getScores c name (pairs_of query chunk) = Ok out /\
              Forall2 (fun d s => Rel d (score s)) chunk out).
  { intros chunk Hne.
    destruct (getScores_contract c name (pairs_of query chunk) Hc)
      as (out & Hg & HF).
    { unfold pairs_of. by destruct chunk. }
    exists out. split; [done|].
    pose proof (getScores_scores _ _ _ _ Hg) as Hr.
    unfold pairs_of in HF. apply Forall2_fmap_l in HF.
    apply Forall2_same_length_lookup. split; [by eapply Forall2_length|].
    intros i d s Hd Hs.
    destruct (Forall2_lookup_lr _ _ _ _ _ _ HF Hd Hs) as [r Hsr].
    rewrite Forall_lookup in Hr. destruct (Hr _ _ Hs) as [Hin _].
    rewrite Hsr in Hin. simpl in Hin. exists r. by rewrite Hsr. }
  pose proof (loop_outcome c name query docs b Hb Rel) as H.
  assert (Hrel : forall chunk out, chunk <> [] ->
            getScores c name (pairs_of query chunk) = Ok out ->
            Forall2 (fun d s => Rel d (score s)) chunk out).
  { intros chunk out Hne Hg. destruct (Hok chunk Hne) as (out' & Hg' & HF).
    congruence. }
  specialize (H Hrel (length docs) 0%nat [] ltac:(lia) ltac:(constructor)).
  simpl in H.
  destruct (rerank_loop _ _ _ _ _ _ _ _) as [res|e|]; [|exfalso..].
  - destruct H as (scores & -> & HF). by exists scores.
  - destruct H as (chunk & Hne & _ & Hg).
    destruct (Hok chunk Hne) as (out & Hg' & _). congruence.
  - done.
Qed.


End RerankExtras.

Section RerankExtrasExamples.
Import ModelLoader NativeEmbeddingReranker.
Local Open Scope R_scope.

Lemma rerank_needs_initialization_witness :
  rerank no_numbers (Cache ∅ ∅) "m" "q" [DString "a"] defaults
    = Thrown (NotInitialized "m").
Proof.
  apply (rerank_needs_initialization_unless_there_is_nothing_to_rank
           no_numbers (Cache ∅ ∅) "m" "q" [DString "a"] defaults).
  by left.
Defined.

Lemma rerank_with_batch_size_zero_witness :
  (forall fuel acc,
     rerank_loop example_cache "m" "q" [DString "a"] 0 fuel 0 acc = Diverged) /\
  rerank no_numbers example_cache "m" "q" [DString "a"]
    (Options None (Some 0%nat)) = Diverged.
Proof.
  apply (rerank_with_batch_size_zero_never_finishes no_numbers example_cache
           "m" "q" [DString "a"] None).
  - simpl. rewrite lookup_singleton_eq. eauto.
  - simpl. rewrite lookup_singleton_eq. eauto.
  - done.
Defined.





End RerankExtrasExamples.

(** ** ModelLoader: the cache over time *)

Section CacheFacts.
Import ModelLoader Initialization CacheQueries.

Ltac step_cases s e :=
  destruct e as [key0|q r|q r|o]; simpl;
  [ unfold initialize; cbv zeta; case_decide;
    [|destruct (initializationPromises s !! key0) eqn:?]
  | unfold model_settles;
    destruct (tasks s !! q) as [[key0 [|m]]|] eqn:?; [destruct r as [m|err]|..]
  | unfold tokenizer_settles;
    destruct (tasks s !! q) as [[key0 [|m]]|] eqn:?;
    [|destruct r as [t|err]|]
  | unfold clearCache; destruct o as [key0|]; [case_decide|] ];
  simpl.

Lemma cached_together_step s e :
  (forall k, is_Some (models s !! k) <-> is_Some (tokenizers s !! k)) ->
  forall k, is_Some (models (step s e) !! k) <->
            is_Some (tokenizers (step s e) !! k).
Proof.
  intros H. step_cases s e; try done; intros k.
  - rewrite !lookup_insert_is_Some. by rewrite H.
  - by rewrite !lookup_empty.
  - rewrite !lookup_delete_is_Some. by rewrite H.
  - by rewrite !lookup_empty.
Qed.

Lemma cached_together tr k :
  is_Some (models (run initial tr) !! k) <->
  is_Some (tokenizers (run initial tr) !! k).
Proof.
  revert k. induction tr as [|e tr IH] using rev_ind; intros k.
  - simpl. by rewrite !lookup_empty.
  - rewrite run_snoc. by apply cached_together_step.
Qed.

Lemma isLoaded_true key s :
  isLoaded key s = true <->
  is_Some (models s !! key) /\ is_Some (tokenizers s !! key).
Proof.
  unfold isLoaded. rewrite andb_true_iff, !bool_decide_eq_true. done.
Qed.

(** X14: in every state the cache can reach, a model is cached for a name
    exactly when a tokenizer is. So [isLoaded()] holds exactly for the
    names [getCachedModels()] lists, and [getModelInfo()] reports
    [isLoaded] exactly when its [currentModel] is among its
    [cachedModels], in which case [totalCachedModels] is at least 1. *)
Theorem a_model_and_its_tokenizer_are_cached_together tr key r :
  let s := run initial tr in
  (is_Some (models s !! key) <-> is_Some (tokenizers s !! key)) /\
  (isLoaded key s = true <-> key ∈ getCachedModels s) /\
  (info_isLoaded (getModelInfo r s) = true <->
   currentModel (getModelInfo r s) ∈ cachedModels (getModelInfo r s)) /\
  (info_isLoaded (getModelInfo r s) = true ->
   (1 <= totalCachedModels (getModelInfo r s))%nat).
Proof.
  cbv zeta.
  assert (Hl : forall k, isLoaded k (run initial tr) = true <->
                         k ∈ getCachedModels (run initial tr)).
  { intros k. rewrite isLoaded_true. unfold getCachedModels.
    rewrite elem_of_dom. pose proof (cached_together tr k). tauto. }
  split; [apply cached_together|]. split; [apply Hl|].
  split; [apply Hl|]. simpl. intros H%Hl.
  destruct (decide (size (getCachedModels (run initial tr)) = 0%nat)) as [H0|];
    [|lia].
  apply size_empty_inv in H0. by apply H0 in H.
Qed.

(** *** A cached model is not loaded again *)

Lemma settle_done p r cs id k r' :
  cs !! id = Some (k, Done r') -> settle p r cs !! id = Some (k, Done r').
Proof. intros H. by rewrite settle_lookup, H. Qed.

Lemma loaded_step key from n s e :
  loaded key from n s -> Spec.keeps key e -> loaded key from n (step s e).
Proof.
  intros [Hm Hl Hf Hn Hc] Hkeep.
  pose proof (fresh_step s e Hf) as (Hf' & _ & Hn').
  assert (Hset : forall q r id st, (from <= id)%nat ->
            settle q r (calls s) !! id = Some (key, st) -> st = Done (Ok ())).
  { intros q r id st Hle Hst.
    destruct (settle_key _ _ _ _ _ _ Hst) as [st' Hst'].
    pose proof (Hc _ _ Hle Hst') as ->.
    erewrite settle_done in Hst by done. congruence. }
  assert (Hins : forall k st0, (k = key -> st0 = Done (Ok ())) ->
            forall id st, (from <= id)%nat ->
              <[next_call s := (k, st0)]> (calls s) !! id = Some (key, st) ->
              st = Done (Ok ())).
  { intros k st0 Hk id st Hle Hst.
    destruct (decide (id = next_call s)) as [->|Hne].
    - rewrite lookup_insert_eq in Hst. injection Hst as -> <-. by apply Hk.
    - rewrite lookup_insert_ne in Hst by done. eauto. }
  split.
  - revert Hkeep. clear Hf' Hn'. step_cases s e; intros Hkeep; try done.
    + rewrite lookup_insert_is_Some. destruct (decide (key0 = key)); eauto.
    + by destruct Hkeep.
    + destruct Hkeep as [_ Hk]. by rewrite lookup_delete_ne.
  - revert Hkeep. clear Hf' Hn'. step_cases s e; intros Hkeep; try done.
    + assert (key0 <> key) by (intros ->; done).
      erewrite model_loads_snoc by reflexivity. case_decide; [congruence|lia].
    + erewrite model_loads_snoc by reflexivity. case_decide; [done|lia].
  - done.
  - lia.
  - revert Hkeep. clear Hf' Hn'. step_cases s e; intros Hkeep; try done; eauto.
    + apply Hins. by intros ->.
    + apply Hins. by intros ->.
Qed.

Lemma loaded_run key from n tr : forall s,
  loaded key from n s -> Forall (Spec.keeps key) tr ->
  loaded key from n (run s tr).
Proof.
  induction tr as [|e tr IH]; intros s Hl Hk; [done|].
  apply Forall_cons in Hk as [He Hk]. simpl. apply IH; [|done].
  by apply loaded_step.
Qed.

(** X15: once a model is cached, and as long as no [clearCache] evicts it,
    it stays loaded, no further model load is requested for it, and every
    later call of [initialize] for it has returned successfully, whatever
    else happens in between. *)
Theorem a_cached_model_is_not_loaded_again tr0 key tr :
  let s := run initial tr0 in
  let s' := run s tr in
  is_Some (models s !! key) -> Forall (Spec.keeps key) tr ->
  isLoaded key s' = true /\
  Spec.model_loads key s' = Spec.model_loads key s /\
  forall id st, (next_call s <= id)%nat ->
                calls s' !! id = Some (key, st) -> st = Done (Ok ()).
Proof.
  intros s s' Hm Hk.
  destruct (reachable_wf tr0) as [Hf _]. fold s in Hf.
  assert (Hl : loaded key (next_call s) (Spec.model_loads key s) s).
  { split; [done..|lia|]. intros id st Hle Hst.
    destruct Hf as [_ Hc]. apply Hc in Hst. lia. }
  apply (loaded_run _ _ _ tr) in Hl; [|done]. fold s' in Hl.
  destruct Hl as [Hm' Hl' _ _ Hc'].
  split; [|split; [done|done]].
  apply isLoaded_true. split; [done|].
  unfold s', s, run in *. rewrite <- fold_left_app in *.
  by apply cached_together.
Qed.

Lemma a_cached_model_is_not_loaded_again_witness :
  let s := run initial load_m in
  let s' := run s [Initialize "m"; Initialize "m"] in
  isLoaded "m" s' = true /\
  Spec.model_loads "m" s' = Spec.model_loads "m" s /\
  forall id st, (next_call s <= id)%nat ->
                calls s' !! id = Some ("m", st) -> st = Done (Ok ()).
Proof.
  apply (a_cached_model_is_not_loaded_again load_m "m"
           [Initialize "m"; Initialize "m"]).
  - vm_compute. eauto.
  - repeat constructor.
Defined.

(** *** Emptying the cache *)

(** X16: [dispose()] removes the reranker's own model and tokenizer from
    the cache and nothing else: every other name keeps its model, its
    tokenizer and its loaded status, and running initialisations, sent
    requests and pending calls are left as they are. *)
Theorem dispose_unloads_one_model_only (r : reranker) (s : state) :
  model_name r <> "" ->
  let s' := dispose r s in
  isLoaded (model_name r) s' = false /\
  getModelAndTokenizer (model_name r) s' = (None, None) /\
  getCachedModels s' = getCachedModels s ∖ {[ model_name r ]} /\
  (forall k, k <> model_name r ->
     getModelAndTokenizer k s' = getModelAndTokenizer k s /\
     isLoaded k s' = isLoaded k s) /\
  tasks s' = tasks s /\ requests s' = requests s /\ calls s' = calls s.
Proof.
  intros Hne. unfold dispose, clearCache. case_decide; [done|]. simpl.
  unfold isLoaded, getModelAndTokenizer, getCachedModels. simpl.
  rewrite !lookup_delete_eq.
  split; [by rewrite bool_decide_eq_false_2 by (by intros [? ?])|].
  split; [done|]. split; [apply dom_delete_L|].
  split; [|done]. intros k Hk. by rewrite !lookup_delete_ne.
Qed.

Lemma dispose_unloads_one_model_only_witness :
  let s' := dispose reranker_m (run initial load_m) in
  isLoaded "m" s' = false /\
  getModelAndTokenizer "m" s' = (None, None) /\
  getCachedModels s' = getCachedModels (run initial load_m) ∖ {[ "m" ]} /\
  (forall k, k <> "m" ->
     getModelAndTokenizer k s' = getModelAndTokenizer k (run initial load_m) /\
     isLoaded k s' = isLoaded k (run initial load_m)) /\
  tasks s' = tasks (run initial load_m) /\
  requests s' = requests (run initial load_m) /\
  calls s' = calls (run initial load_m).
Proof.
  apply (dispose_unloads_one_model_only reranker_m (run initial load_m)).
  done.
Defined.

(** X17: after [dispose()] the next [initialize()] always requests a new
    model load and registers a new promise, even when an initialisation
    of the same model is still running: [dispose] does not cancel it, it
    only makes later calls stop waiting for it. *)
Theorem initialize_after_dispose_starts_a_new_load (r : reranker) tr :
  model_name r <> "" ->
  let key := model_name r in
  let s := run initial tr in
  let s' := initialize key (dispose r s) in
  Spec.model_loads key s' = S (Spec.model_loads key s) /\
  initializationPromises s' !! key = Some (next_promise s) /\
  calls s' !! next_call s = Some (key, Waiting (next_promise s)) /\
  forall p x, tasks s !! p = Some x -> tasks s' !! p = Some x.
Proof.
  intros Hne key s s'.
  destruct (reachable_wf tr) as [[Hf _] _]. fold s in Hf.
  unfold s', dispose, clearCache. fold key. case_decide; [done|].
  unfold initialize. cbv zeta. simpl.
  rewrite !lookup_delete_eq.
  case_decide as Hc; [by destruct Hc|]. simpl.
  split; [|split; [|split]].
  - erewrite model_loads_snoc by reflexivity. simpl.
    case_decide; [|done]. unfold Spec.model_loads. simpl. lia.
  - apply lookup_insert_eq.
  - apply lookup_insert_eq.
  - intros p x Hp. rewrite lookup_insert_ne; [done|].
    apply Hf in Hp. lia.
Qed.

Lemma initialize_after_dispose_witness :
  let key := model_name reranker_m in
  let s := run initial [Initialize "m"] in
  let s' := initialize key (dispose reranker_m s) in
  Spec.model_loads key s' = S (Spec.model_loads key s) /\
  initializationPromises s' !! key = Some (next_promise s) /\
  calls s' !! next_call s = Some (key, Waiting (next_promise s)) /\
  forall p x, tasks s !! p = Some x -> tasks s' !! p = Some x.
Proof.
  apply (initialize_after_dispose_starts_a_new_load reranker_m
           [Initialize "m"]).
  done.
Defined.

(** *** [clearCache] does not cancel a running initialisation *)

Lemma leaves_running_step p s e x :
  fresh s -> tasks s !! p = Some x -> leaves_running p e ->
  tasks (step s e) !! p = Some x.
Proof.
  intros [Hf _] Hp. step_cases s e; intros Hl; try done.
  - rewrite lookup_insert_ne; [done|]. apply Hf in Hp. lia.
  - by rewrite lookup_insert_ne.
  - by rewrite lookup_delete_ne.
  - by rewrite lookup_delete_ne.
  - by rewrite lookup_delete_ne.
Qed.

Lemma leaves_running_run p x tr : forall s,
  fresh s -> tasks s !! p = Some x -> Forall (leaves_running p) tr ->
  tasks (run s tr) !! p = Some x.
Proof.
  induction tr as [|e tr IH]; intros s Hf Hp Hl; [done|].
  apply Forall_cons in Hl as [He Hl]. simpl. apply IH; [|by apply leaves_running_step|done].
  by apply fresh_step.
Qed.

(** X18: [clearCache] does not cancel an initialisation that is running.
    If the initialisation [p] of [key] is waiting for its tokenizer, then
    after any events that are not a settling of [p] (calls of
    [clearCache] included), the arrival of the tokenizer caches the model
    and the tokenizer for [key]. *)
Theorem clearCache_does_not_cancel_a_running_load tr0 p key m tr t :
  let s := run initial tr0 in
  let s' := step (run s tr) (TokenizerSettles p (Ok t)) in
  tasks s !! p = Some (key, LoadingTokenizer m) ->
  Forall (leaves_running p) tr ->
  models s' !! key = Some m /\ tokenizers s' !! key = Some t /\
  isLoaded key s' = true /\ key ∈ getCachedModels s'.
Proof.
  intros s s' Hp Hl.
  destruct (reachable_wf tr0) as [Hf _]. fold s in Hf.
  pose proof (leaves_running_run p _ tr s Hf Hp Hl) as Hp'.
  unfold s'. simpl. unfold tokenizer_settles. rewrite Hp'. simpl.
  unfold isLoaded, getCachedModels. simpl.
  rewrite !lookup_insert_eq. split; [done|]. split; [done|].
  split; [|apply elem_of_dom; rewrite lookup_insert_eq; eauto].
  rewrite !bool_decide_eq_true_2 by eauto. done.
Qed.

Lemma clearCache_does_not_cancel_witness :
  let s := run initial [Initialize "m"; ModelSettles 0 (Ok zero_model)] in
  let s' := step (run s [ClearCache None])
                 (TokenizerSettles 0 (Ok count_tokenizer)) in
  models s' !! "m" = Some zero_model /\
  tokenizers s' !! "m" = Some count_tokenizer /\
  isLoaded "m" s' = true /\ "m" ∈ getCachedModels s'.
Proof.
  apply (clearCache_does_not_cancel_a_running_load
           [Initialize "m"; ModelSettles 0 (Ok zero_model)] 0 "m" zero_model
           [ClearCache None] count_tokenizer).
  - reflexivity.
  - repeat constructor.
Defined.

(** *** A failed load is not remembered *)

(** X19: a failed load is not remembered. When the model load or the
    tokenizer load of an initialisation of [key] fails, nothing is cached
    for [key] and no promise stays registered, so the next [initialize()]
    for [key] requests a new model load. *)
Theorem a_failed_load_can_be_tried_again s p key ph err :
  tasks s !! p = Some (key, ph) -> models s !! key = None ->
  let s1 := step s (load_fails p ph err) in
  let s2 := initialize key s1 in
  models s1 !! key = None /\ initializationPromises s1 !! key = None /\
  isLoaded key s1 = false /\
  Spec.model_loads key s2 = S (Spec.model_loads key s) /\
  initializationPromises s2 !! key = Some (next_promise s) /\
  calls s2 !! next_call s = Some (key, Waiting (next_promise s)).
Proof.
  intros Hp Hm.
  assert (Hs1 : let s1 := step s (load_fails p ph err) in
            models s1 = models s /\ initializationPromises s1 !! key = None /\
            requests s1 = requests s /\ next_promise s1 = next_promise s /\
            next_call s1 = next_call s).
  { destruct ph as [|m]; simpl; unfold model_settles, tokenizer_settles;
      rewrite Hp; simpl; by rewrite lookup_delete_eq. }
  cbv zeta in *. destruct Hs1 as (Hmod & Hprom & Hreq & Hnp & Hnc).
  set (s1 := step s (load_fails p ph err)) in *.
  split; [by rewrite Hmod|]. split; [done|].
  split.
  { unfold isLoaded. rewrite Hmod, Hm.
    by rewrite bool_decide_eq_false_2 by (by intros [? ?]). }
  unfold initialize. cbv zeta. rewrite Hmod, Hm, Hprom.
  case_decide as Hc; [by destruct Hc|]. simpl.
  rewrite Hnp, Hnc, !lookup_insert_eq. split; [|by split].
  unfold Spec.model_loads. simpl. rewrite Hreq.
  rewrite filter_app, length_app, filter_cons, filter_nil.
  case_decide; [simpl; lia|done].
Qed.

Lemma a_failed_load_can_be_tried_again_witness :
  let s := run initial [Initialize "m"] in
  let s1 := step s (load_fails 0 LoadingModel (BackendError "offline")) in
  let s2 := initialize "m" s1 in
  models s1 !! "m" = None /\ initializationPromises s1 !! "m" = None /\
  isLoaded "m" s1 = false /\
  Spec.model_loads "m" s2 = S (Spec.model_loads "m" s) /\
  initializationPromises s2 !! "m" = Some (next_promise s) /\
  calls s2 !! next_call s = Some ("m", Waiting (next_promise s)).
Proof.
  apply (a_failed_load_can_be_tried_again (run initial [Initialize "m"]) 0 "m"
           LoadingModel (BackendError "offline")); reflexivity.
Defined.

End CacheFacts.

(** ** NativeEmbeddingReranker: the default logger *)

Section LoggerFacts.
Import Logger.

Lemma createDefaultLogger_some level m message out :
  createDefaultLogger level m message = Some out ->
  out = (m, tag m +:+ message).
Proof.
  unfold createDefaultLogger. cbv zeta.
  destruct (at_most _ _); [|done]. by intros [= <-].
Qed.

(** X20: the default logger is a severity threshold. If it writes a
    message given to one method, it writes the message given to every
    method of the same or a higher severity (debug < info < warn <
    error), to the console method of the same name and with the method's
    tag in front. *)
Theorem the_default_logger_is_a_severity_threshold level m m' message :
  (threshold m <= threshold m')%nat ->
  is_Some (createDefaultLogger level m message) ->
  createDefaultLogger level m' message = Some (m', tag m' +:+ message).
Proof.
  unfold createDefaultLogger. cbv zeta. intros Hle.
  destruct (currentLevel level) as [n|name]; simpl; [|by intros [? ?]].
  destruct (Nat.leb_spec n (threshold m)) as [Hn|Hn]; [|by intros [? ?]].
  intros _. destruct (Nat.leb_spec n (threshold m')) as [|Hn']; [done|lia].
Qed.

Lemma the_default_logger_is_a_severity_threshold_witness :
  createDefaultLogger "warn" Error "disk full" =
  Some (Error, tag Error +:+ "disk full").
Proof.
  apply (the_default_logger_is_a_severity_threshold "warn" Warn Error
           "disk full").
  - simpl. lia.
  - vm_compute. eauto.
Defined.

Lemma own_level_None level :
  level ∉ (fst <$> levels) -> own_level level = None.
Proof.
  intros H. unfold own_level, levels in *. simpl in *.
  rewrite !not_elem_of_cons in H. destruct H as (?&?&?&?&?&_).
  repeat (rewrite bool_decide_eq_false_2 by done). done.
Qed.

(** X21: the levels of the default logger. ['debug'] writes everything,
    ['silent'] nothing, and a level of the table writes the methods whose
    number is not below its own. A level name that is unknown behaves as
    ['info'] (which is also the level of a reranker built without
    options), except that a name inherited from [Object.prototype], such
    as ['toString'], silences the logger. *)
Theorem the_default_logger_levels :
  (forall m message,
     createDefaultLogger "debug" m message = Some (m, tag m +:+ message)) /\
  (forall m message, createDefaultLogger "silent" m message = None) /\
  (forall level n m message, (level, n) ∈ levels ->
     createDefaultLogger level m message =
     if (n <=? threshold m)%nat then Some (m, tag m +:+ message) else None) /\
  (forall level m message,
     level ∉ (fst <$> levels) -> level ∉ Object_prototype ->
     createDefaultLogger level m message =
     createDefaultLogger "info" m message) /\
  (forall level m message,
     level ∈ Object_prototype -> createDefaultLogger level m message = None) /\
  (forall m message,
     logger_of None None m message = createDefaultLogger "info" m message).
Proof.
  split; [by intros []|]. split; [by intros []|].
  split; [|split; [|split]].
  - intros level n m message Hin. unfold levels in Hin.
    rewrite !elem_of_cons, elem_of_nil in Hin.
    destruct Hin as [[= -> ->]|[[= -> ->]|[[= -> ->]|[[= -> ->]|[[= -> ->]|[]]]]]];
      by destruct m.
  - intros level m message Hown Hin.
    unfold createDefaultLogger, currentLevel. cbv zeta.
    rewrite own_level_None by done. by rewrite decide_False by done.
  - intros level m message Hin.
    unfold createDefaultLogger, currentLevel. cbv zeta.
    rewrite own_level_None.
    + by rewrite decide_True by done.
    + unfold Object_prototype, levels in *. simpl.
      rewrite !elem_of_cons, elem_of_nil in Hin.
      rewrite !not_elem_of_cons.
      repeat (destruct Hin as [->|Hin]; [repeat split; (done || apply not_elem_of_nil)|]).
      done.
  - done.
Qed.

Lemma the_default_logger_levels_witness :
  createDefaultLogger "warn" Info "ready" = None /\
  createDefaultLogger "warn" Warn "slow" = Some (Warn, "[WARN] slow") /\
  createDefaultLogger "verbose" Debug "x" = createDefaultLogger "info" Debug "x" /\
  createDefaultLogger "toString" Error "x" = None.
Proof.
  destruct the_default_logger_levels as (_ & _ & H3 & H4 & H5 & _).
  split; [|split; [|split]].
  - apply (H3 "warn" 3%nat Info "ready").
    apply (bool_decide_unpack _). vm_compute. exact I.
  - apply (H3 "warn" 3%nat Warn "slow").
    apply (bool_decide_unpack _). vm_compute. exact I.
  - apply H4; apply (bool_decide_unpack _); vm_compute; exact I.
  - apply H5. apply (bool_decide_unpack _). vm_compute. exact I.
Defined.

End LoggerFacts.

(** ** EvaluationMetrics: MRR, precision and recall *)

Section MetricsExtras.
Import EvaluationMetrics.
Local Open Scope R_scope.

(** *** calculateMRR *)

Lemma relevantRanks_eq ps n :
  for_range n
    (fun ranks i =>
       match ps !! i with
       | Some p => if isRelevant p then ranks ++ [S i] else ranks
       | None => ranks
       end) [] =
  map S (List.filter (hit ps) (seq 0 n)).
Proof.
  unfold for_range. induction n as [|n IH]; [done|].
  rewrite seq_S, fold_left_app, IH. simpl.
  rewrite List.filter_app, map_app. simpl. assert (Hh : hit ps n = match ps !! n with Some p => isRelevant p | None => false end) by done.
  rewrite Hh.
  destruct (ps !! n) as [p|]; [destruct (isRelevant p)|]; simpl;
    by rewrite ?app_nil_r.
Qed.

Lemma calculateMRR_eq ps k :
  calculateMRR ps k =
  match List.filter (hit ps) (seq 0 (Nat.min (length ps) k)) with
  | [] => 0
  | i :: _ => 1 / INR (S i)
  end.
Proof.
  unfold calculateMRR. cbv zeta. rewrite relevantRanks_eq.
  by destruct (List.filter _ _).
Qed.

Lemma filter_seq_none (f : nat -> bool) a n :
  (forall j, (a <= j < a + n)%nat -> f j = false) ->
  List.filter f (seq a n) = [].
Proof.
  revert a. induction n as [|n IH]; intros a H; [done|]. simpl.
  rewrite H by lia. apply IH. intros j Hj. apply H. lia.
Qed.

Lemma filter_seq_first (f : nat -> bool) n i :
  (i < n)%nat -> f i = true -> (forall j, (j < i)%nat -> f j = false) ->
  exists rest, List.filter f (seq 0 n) = i :: rest.
Proof.
  intros Hi Hf Hb.
  replace n with (i + S (n - S i))%nat by lia.
  rewrite seq_app, List.filter_app, filter_seq_none
    by (intros j Hj; apply Hb; lia).
  simpl. rewrite Hf. eauto.
Qed.

Lemma reciprocal_rank_range i : 0 < 1 / INR (S i) <= 1.
Proof.
  assert (1 <= INR (S i)) by (apply (le_INR 1); lia).
  split.
  - apply Rdiv_lt_0_compat; lra.
  - apply (Rmult_le_reg_r (INR (S i))); [lra|].
    unfold Rdiv. rewrite Rmult_assoc, Rinv_l by lra. lra.
Qed.

(** X22: [calculateMRR] is the reciprocal of the 1-based rank of the first
    relevant passage among the first [k]; it is 0 when none of them is
    relevant, and it always lies in [0, 1]. *)
Theorem calculateMRR_is_the_reciprocal_rank_of_the_first_hit ps k :
  (forall i p,
     (i < k)%nat -> ps !! i = Some p -> isRelevant p = true ->
     (forall j q, (j < i)%nat -> ps !! j = Some q -> isRelevant q = false) ->
     calculateMRR ps k = 1 / INR (i + 1)) /\
  ((forall i p, (i < k)%nat -> ps !! i = Some p -> isRelevant p = false) ->
   calculateMRR ps k = 0) /\
  0 <= calculateMRR ps k <= 1.
Proof.
  rewrite calculateMRR_eq. split; [|split].
  - intros i p Hi Hp Hrel Hbefore.
    destruct (filter_seq_first (hit ps) (Nat.min (length ps) k) i)
      as [rest ->].
    + apply lookup_lt_Some in Hp. lia.
    + unfold hit. by rewrite Hp.
    + intros j Hj. unfold hit.
      destruct (ps !! j) as [q|] eqn:Hq; [|done]. eauto.
    + do 2 f_equal. lia.
  - intros Hnone. rewrite filter_seq_none; [done|].
    intros j Hj. unfold hit. destruct (ps !! j) as [q|] eqn:Hq; [|done].
    apply (Hnone j); [lia|done].
  - destruct (List.filter _ _) as [|i rest]; [lra|].
    pose proof (reciprocal_rank_range i). lra.
Qed.

Lemma calculateMRR_witness :
  calculateMRR [Passage false; Passage true; Passage true] 10 = 1 / INR (1 + 1).
Proof.
  destruct (calculateMRR_is_the_reciprocal_rank_of_the_first_hit
              [Passage false; Passage true; Passage true] 10) as [H _].
  apply (H 1%nat (Passage true)); [lia|reflexivity|reflexivity|].
  intros [|j] q Hj Hq; [|lia]. by injection Hq as <-.
Defined.

(** *** Precision and recall *)

Lemma filter_take_le {A} (f : A -> bool) m (l : list A) :
  (length (List.filter f (take m l)) <= Nat.min m (length l))%nat /\
  (length (List.filter f (take m l)) <= length (List.filter f l))%nat.
Proof.
  split.
  - etrans; [apply filter_length_le|]. rewrite length_take. lia.
  - rewrite <- (take_drop m l) at 2. rewrite List.filter_app, length_app. lia.
Qed.

Lemma filter_take_mono {A} (f : A -> bool) m m' (l : list A) :
  (m <= m')%nat ->
  (length (List.filter f (take m l)) <= length (List.filter f (take m' l)))%nat.
Proof.
  intros Hm. replace (take m l) with (take m (take m' l)).
  - apply filter_take_le.
  - rewrite take_take. f_equal. lia.
Qed.

Lemma ratio_range (a b : nat) : (a <= b)%nat -> (0 < b)%nat -> 0 <= INR a / INR b <= 1.
Proof.
  intros Hab Hb. apply le_INR in Hab. apply lt_INR in Hb. simpl in Hb.
  pose proof (pos_INR a). split.
  - apply Rmult_le_pos; [done|]. apply Rlt_le, Rinv_0_lt_compat, Hb.
  - apply (Rmult_le_reg_r (INR b)); [done|].
    unfold Rdiv. rewrite Rmult_assoc, Rinv_l by lra. lra.
Qed.

Lemma take_min_length {A} k (l : list A) :
  take (Nat.min k (length l)) l = take k l.
Proof.
  destruct (decide (k <= length l)%nat).
  - by rewrite Nat.min_l.
  - rewrite Nat.min_r by lia. rewrite !take_ge by lia. done.
Qed.

Lemma precision_count ps k :
  0 <= calculatePrecisionAtK ps k <= 1 /\
  calculatePrecisionAtK ps k * INR (Nat.min k (length ps)) = INR (hits ps k).
Proof.
  unfold calculatePrecisionAtK, hits. cbv zeta. rewrite take_min_length.
  destruct (filter_take_le isRelevant k ps) as [H1 H2].
  case_decide as Hz.
  - split; [lra|]. rewrite Rmult_0_l.
    replace (length (List.filter isRelevant (take k ps))) with 0%nat; [done|].
    lia.
  - split; [apply ratio_range; lia|].
    assert (0 < INR (Nat.min k (length ps))) by (apply (lt_INR 0); lia).
    field. lra.
Qed.

Lemma recall_count ps k :
  0 <= calculateRecallAtK ps k <= 1 /\
  calculateRecallAtK ps k * INR (hits ps (length ps)) = INR (hits ps k).
Proof.
  unfold calculateRecallAtK, hits. cbv zeta.
  rewrite take_min_length, firstn_all.
  destruct (filter_take_le isRelevant k ps) as [H1 H2].
  case_decide as Hz.
  - split; [lra|]. rewrite Rmult_0_l.
    replace (length (List.filter isRelevant (take k ps))) with 0%nat; [done|].
    lia.
  - split; [apply ratio_range; lia|].
    assert (0 < INR (length (List.filter isRelevant ps)))
      by (apply (lt_INR 0); lia).
    field. lra.
Qed.

(** X23: [calculatePrecisionAtK] and [calculateRecallAtK] lie in [0, 1]
    and are fractions of the same count, the number of relevant passages
    among the first [k]: precision divides it by [min(k, length)] (not by
    [k]), recall by the number of relevant passages in the whole list. *)
Theorem precision_and_recall_are_fractions_of_the_same_count ps k :
  0 <= calculatePrecisionAtK ps k <= 1 /\
  0 <= calculateRecallAtK ps k <= 1 /\
  calculatePrecisionAtK ps k * INR (Nat.min k (length ps)) = INR (hits ps k) /\
  calculateRecallAtK ps k * INR (hits ps (length ps)) = INR (hits ps k).
Proof.
  pose proof (precision_count ps k). pose proof (recall_count ps k). tauto.
Qed.

Lemma calculateRecallAtK_eq ps k :
  calculateRecallAtK ps k =
  if decide (hits ps (length ps) = 0%nat) then 0
  else INR (hits ps k) / INR (hits ps (length ps)).
Proof.
  unfold calculateRecallAtK, hits. cbv zeta.
  by rewrite take_min_length, firstn_all.
Qed.

(** X24: recall and MRR never decrease when the cutoff grows, and recall
    is 1 once the cutoff covers the whole list and the list has a
    relevant passage. *)
Theorem recall_and_MRR_grow_with_the_cutoff ps k k' :
  (k <= k')%nat ->
  calculateRecallAtK ps k <= calculateRecallAtK ps k' /\
  calculateMRR ps k <= calculateMRR ps k' /\
  ((length ps <= k)%nat -> hits ps (length ps) <> 0%nat ->
   calculateRecallAtK ps k = 1).
Proof.
  intros Hk. split; [|split].
  - rewrite !calculateRecallAtK_eq. case_decide as Hz; [lra|].
    assert (0 < INR (hits ps (length ps))) by (apply (lt_INR 0); lia).
    apply Rmult_le_compat_r; [apply Rlt_le, Rinv_0_lt_compat; lra|].
    apply le_INR. by apply filter_take_mono.
  - rewrite !calculateMRR_eq.
    replace (Nat.min (length ps) k') with
      (Nat.min (length ps) k + (Nat.min (length ps) k' - Nat.min (length ps) k))%nat
      by lia.
    rewrite seq_app, List.filter_app.
    destruct (List.filter (hit ps) (seq 0 (Nat.min (length ps) k)))
      as [|i rest]; cbn [app]; [|lra].
    destruct (List.filter _ _) as [|i rest]; [lra|].
    pose proof (reciprocal_rank_range i). lra.
  - intros Hlen Hz. rewrite calculateRecallAtK_eq. case_decide; [done|].
    unfold hits. rewrite !take_ge by lia.
    assert (0 < INR (length (List.filter isRelevant ps))).
    { apply (lt_INR 0). unfold hits in Hz. rewrite firstn_all in Hz. lia. }
    field. lra.
Qed.

Lemma recall_and_MRR_grow_witness :
  calculateRecallAtK [Passage false; Passage true] 1 <=
    calculateRecallAtK [Passage false; Passage true] 2 /\
  calculateMRR [Passage false; Passage true] 1 <=
    calculateMRR [Passage false; Passage true] 2 /\
  ((length [Passage false; Passage true] <= 1)%nat ->
   hits [Passage false; Passage true] (length [Passage false; Passage true])
     <> 0%nat ->
   calculateRecallAtK [Passage false; Passage true] 1 = 1).
Proof.
  apply (recall_and_MRR_grow_with_the_cutoff [Passage false; Passage true] 1 2).
  lia.
Defined.

End MetricsExtras.

(** ** EvaluationMetrics: the range of NDCG, and calculateAllMetrics *)

Section NDCGExtras.
Import EvaluationMetrics.
Local Open Scope R_scope.

Lemma discount_pos i : 0 < discount i.
Proof.
  unfold discount, Spec.discounted. case_decide; [lra|].
  apply Rdiv_lt_0_compat; [lra|].
  replace (S i) with (i + 1)%nat by lia. apply log2_rank_pos. lia.
Qed.

Lemma log2_le x y : 0 < x -> x <= y -> log2 x <= log2 y.
Proof.
  intros Hx Hxy. unfold log2. pose proof ln_2_pos.
  apply Rmult_le_compat_r; [apply Rlt_le, Rinv_0_lt_compat; lra|].
  destruct Hxy as [Hlt| ->]; [|lra]. apply Rlt_le, ln_increasing; lra.
Qed.

Lemma discount_le_1 i : discount i <= 1.
Proof.
  unfold discount, Spec.discounted. case_decide; [lra|].
  assert (H2 : log2 2 <= log2 (INR (S i))).
  { apply log2_le; [lra|]. apply (le_INR 2). lia. }
  rewrite log2_2 in H2.
  apply (Rmult_le_reg_r (log2 (INR (S i)))); [lra|].
  unfold Rdiv. rewrite Rmult_assoc, Rinv_l by lra. lra.
Qed.

Lemma discount_antitone i j : (i <= j)%nat -> discount j <= discount i.
Proof.
  intros Hij. destruct (decide (i = 0%nat)) as [->|Hi].
  { replace (discount 0) with 1; [apply discount_le_1|].
    unfold discount, Spec.discounted. by case_decide. }
  unfold discount, Spec.discounted. do 2 (case_decide; [lia|]).
  assert (H1 : 0 < log2 (INR (S i))).
  { replace (S i) with (i + 1)%nat by lia. apply log2_rank_pos. lia. }
  assert (H2 : log2 (INR (S i)) <= log2 (INR (S j))).
  { apply log2_le; [apply (lt_INR 0); lia|]. apply le_INR. lia. }
  unfold Rdiv. rewrite !Rmult_1_l. apply Rinv_le_contravar; lra.
Qed.

Lemma sum_to_mono n n' f :
  (n <= n')%nat -> (forall i, 0 <= f i) -> sum_to n f <= sum_to n' f.
Proof.
  intros Hn Hf. induction Hn as [|n' Hn IH]; [lra|].
  rewrite sum_to_S_back. specialize (Hf n'). lra.
Qed.

Lemma dcg_term_eq ps i :
  dcg_term ps i = if hit ps i then discount i else 0.
Proof.
  unfold dcg_term, hit, relevance, discount.
  destruct (ps !! i) as [p|]; [destruct (isRelevant p)|];
    by rewrite ?discounted_0.
Qed.

Lemma hits_S ps m :
  (m < length ps)%nat ->
  hits ps (S m) = (hits ps m + if hit ps m then 1 else 0)%nat.
Proof.
  intros Hm. unfold hits, hit.
  destruct (lookup_lt_is_Some_2 ps m Hm) as [p Hp]. rewrite Hp.
  rewrite (take_S_r _ _ _ Hp), List.filter_app, length_app. simpl.
  by destruct (isRelevant p).
Qed.

Lemma hits_le ps m : (hits ps m <= m)%nat /\ (hits ps m <= hits ps (length ps))%nat.
Proof.
  unfold hits. rewrite firstn_all.
  destruct (filter_take_le isRelevant m ps). lia.
Qed.

(** The gain collected over the first [m] positions is at most the gain
    of as many hits placed first. *)
Lemma dcg_le_ideal ps m :
  (m <= length ps)%nat ->
  sum_to m (dcg_term ps) <= sum_to (hits ps m) discount.
Proof.
  induction m as [|m IH]; intros Hm.
  - unfold hits. simpl. unfold sum_to. simpl. lra.
  - rewrite sum_to_S_back, hits_S, dcg_term_eq by lia.
    specialize (IH ltac:(lia)).
    destruct (hit ps m).
    + replace (hits ps m + 1)%nat with (S (hits ps m)) by lia.
      rewrite sum_to_S_back.
      pose proof (discount_antitone (hits ps m) m (proj1 (hits_le ps m))). lra.
    + rewrite Nat.add_0_r. lra.
Qed.

Lemma calculateDCG_le_IDCG ps k :
  0 <= calculateDCG ps k <= calculateIDCG ps k.
Proof.
  rewrite calculateDCG_sum, calculateIDCG_sum. split.
  - apply sum_to_nonneg. intros i _. rewrite dcg_term_eq.
    pose proof (discount_pos i). destruct (hit ps i); lra.
  - etrans; [apply dcg_le_ideal; lia|].
    apply (sum_to_mono _ _ discount).
    + pose proof (hits_le ps (Nat.min (length ps) k)) as [H1 H2].
      unfold hits in H2 at 2. rewrite firstn_all in H2. lia.
    + intros i. apply Rlt_le, discount_pos.
Qed.

Lemma ideal_of_sorted (r m : list passage) :
  Forall (fun p => isRelevant p = true) r ->
  Forall (fun p => isRelevant p = false) m ->
  Spec.ideal (r ++ m) = r ++ m.
Proof.
  intros Hr Hm. unfold Spec.ideal. rewrite !List.filter_app.
  assert (H1 : List.filter isRelevant r = r).
  { clear -Hr. induction Hr as [|p r Hp _ IH]; simpl; [done|].
    by rewrite Hp, IH. }
  assert (H2 : List.filter isRelevant m = []).
  { clear -Hm. induction Hm as [|p m Hp _ IH]; simpl; [done|].
    by rewrite Hp. }
  assert (H3 : List.filter (fun p => negb (isRelevant p)) r = []).
  { clear -Hr. induction Hr as [|p r Hp _ IH]; simpl; [done|].
    by rewrite Hp. }
  assert (H4 : List.filter (fun p => negb (isRelevant p)) m = m).
  { clear -Hm. induction Hm as [|p m Hp _ IH]; simpl; [done|].
    by rewrite Hp, IH. }
  by rewrite H1, H2, H3, H4, app_nil_r.
Qed.

(** X25: [calculateDCG] never exceeds [calculateIDCG], so
    [calculateNDCG] lies in [0, 1]; and it is exactly 1, for every cutoff
    of at least 1, on a ranking that places all its relevant passages (at
    least one) before all irrelevant ones. *)
Theorem calculateNDCG_is_at_most_1_and_1_for_an_ideal_ranking :
  (forall ps k, 0 <= calculateDCG ps k <= calculateIDCG ps k) /\
  (forall ps k, 0 <= calculateNDCG ps k <= 1) /\
  (forall p r m k,
     isRelevant p = true ->
     Forall (fun p => isRelevant p = true) r ->
     Forall (fun p => isRelevant p = false) m ->
     (0 < k)%nat ->
     calculateNDCG (p :: r ++ m) k = 1).
Proof.
  split; [apply calculateDCG_le_IDCG|]. split.
  - intros ps k. pose proof (calculateDCG_le_IDCG ps k) as [H0 H1].
    unfold calculateNDCG. cbv zeta. destruct (Rlt_dec 0 _) as [Hpos|]; [|lra].
    split.
    + apply Rmult_le_pos; [done|]. apply Rlt_le, Rinv_0_lt_compat, Hpos.
    + apply (Rmult_le_reg_r (calculateIDCG ps k)); [done|].
      unfold Rdiv. rewrite Rmult_assoc, Rinv_l by lra. lra.
  - intros p r m k Hp Hr Hm Hk.
    assert (Hid : calculateIDCG (p :: r ++ m) k = calculateDCG (p :: r ++ m) k).
    { rewrite calculateIDCG_spec, calculateDCG_spec. unfold Spec.IDCG.
      change (p :: r ++ m) with ((p :: r) ++ m).
      rewrite ideal_of_sorted; [done| |done]. by constructor. }
    assert (Hpos : 0 < calculateIDCG (p :: r ++ m) k).
    { rewrite calculateIDCG_sum. simpl List.filter. rewrite Hp.
      apply Rlt_le_trans with (sum_to 1 discount).
      - unfold sum_to. simpl. pose proof (discount_pos 0). lra.
      - apply (sum_to_mono _ _ discount); [cbn [length]; lia|].
        intros i. apply Rlt_le, discount_pos. }
    unfold calculateNDCG. cbv zeta. destruct (Rlt_dec 0 _) as [_|]; [|lra].
    rewrite <- Hid. field. lra.
Qed.

Lemma calculateNDCG_ideal_witness :
  calculateNDCG (Passage true :: [Passage true] ++ [Passage false]) 3 = 1.
Proof.
  destruct calculateNDCG_is_at_most_1_and_1_for_an_ideal_ranking
    as (_ & _ & H).
  apply H; [reflexivity|repeat constructor..|lia].
Defined.

(** *** calculateAllMetrics *)

Lemma in_metricTable_dec key ks :
  (exists name f k, In (name, f) metricTable /\ In k ks /\
                    key = metricKey name k) \/
  (forall name f k, In (name, f) metricTable -> In k ks ->
                    key <> metricKey name k).
Proof.
  induction ks as [|k ks [IH|IH]].
  - right. by intros ? ? ? _ [].
  - left. destruct IH as (name & f & k' & ? & ? & ?).
    exists name, f, k'. simpl. tauto.
  - destruct (decide (key = metricKey "MRR" k)) as [H1|H1];
      [left; exists "MRR", calculateMRR, k; simpl; tauto|].
    destruct (decide (key = metricKey "NDCG" k)) as [H2|H2];
      [left; exists "NDCG", calculateNDCG, k; simpl; tauto|].
    destruct (decide (key = metricKey "Precision" k)) as [H3|H3];
      [left; exists "Precision", calculatePrecisionAtK, k; simpl; tauto|].
    destruct (decide (key = metricKey "Recall" k)) as [H4|H4];
      [left; exists "Recall", calculateRecallAtK, k; simpl; tauto|].
    right. intros name f k' Hn [<-|Hk'].
    + apply in_metricTable in Hn as [[-> ->]|[[-> ->]|[[-> ->]|[-> ->]]]]; done.
    + by apply (IH name f).
Qed.

(** X26: the object returned by [calculateAllMetrics] has an entry under
    a key exactly when the key is [`${name}@${k}`] for one of the four
    metric names and a requested cutoff [k], and the entry is that metric
    at that cutoff. *)
Theorem calculateAllMetrics_has_exactly_the_requested_entries ps ks key v :
  calculateAllMetrics ps ks !! key = Some v <->
  exists name f k, In (name, f) metricTable /\ In k ks /\
                   key = metricKey name k /\ v = f ps k.
Proof.
  split.
  - intros Hv. destruct (in_metricTable_dec key ks)
      as [(name & f & k & Hn & Hk & ->)|Hnone].
    + exists name, f, k. rewrite (calculateAllMetrics_lookup _ _ name f) in Hv
        by done. injection Hv as <-. done.
    + unfold calculateAllMetrics in Hv.
      change (fold_left (storeMetrics (fun f k => f ps k)) ks ∅ !! key = Some v)
        in Hv.
      rewrite storeAll_miss in Hv by done. by rewrite lookup_empty in Hv.
  - intros (name & f & k & Hn & Hk & -> & ->).
    by apply calculateAllMetrics_lookup.
Qed.

End NDCGExtras.

(** ** Test data: shuffleArray *)

Section ShuffleFacts.
Import TestData.
Local Open Scope R_scope.

Lemma floor_bounds (x : R) : IZR (floor x) <= x < IZR (floor x) + 1.
Proof. unfold floor. destruct (base_Int_part x). lra. Qed.

(** [Math.floor(Math.random() * (i + 1))] is one of [0, ..., i]. *)
Lemma random_index (r : random_number) (i : nat) :
  (Z.to_nat (floor (r * INR (i + 1))) <= i)%nat.
Proof.
  destruct r as [r [H0 H1]]. simpl.
  destruct (floor_bounds (r * INR (i + 1))) as [Hf _].
  assert (Hi : 0 < INR (i + 1)) by (apply (lt_INR 0); lia).
  assert (Hlt : IZR (floor (r * INR (i + 1))) < IZR (Z.of_nat (i + 1))).
  { rewrite <- INR_IZR_INZ. eapply Rle_lt_trans; [exact Hf|]. nra. }
  apply lt_IZR in Hlt. lia.
Qed.

Lemma swap_perm {A} (i j : nat) (a : list A) : swap i j a ≡ₚ a.
Proof.
  unfold swap. destruct (a !! i) as [x|] eqn:Hx; [|done].
  destruct (a !! j) as [y|] eqn:Hy; [|done].
  by apply Permutation_insert_swap.
Qed.

Lemma swap_length {A} (i j : nat) (a : list A) :
  length (swap i j a) = length a.
Proof. by rewrite swap_perm. Qed.

Lemma swap_above {A} (i j k : nat) (a : list A) :
  (i < k)%nat -> (j < k)%nat -> swap i j a !! k = a !! k.
Proof.
  intros Hi Hj. unfold swap.
  destruct (a !! i) as [x|]; [|done]. destruct (a !! j) as [y|]; [|done].
  rewrite !list_lookup_insert_ne by lia. done.
Qed.

Lemma shuffle_loop_spec {A} random i : forall calls (l : list A),
  (i < length l \/ l = [])%nat ->
  (shuffle_loop random i calls l).1 ≡ₚ l /\
  (shuffle_loop random i calls l).2 = (calls + i)%nat /\
  (forall k, (i < k)%nat ->
     (shuffle_loop random i calls l).1 !! k = l !! k).
Proof.
  induction i as [|i IH]; intros calls l Hi.
  - simpl. split; [done|]. split; [lia|done].
  - cbn [shuffle_loop]. cbv zeta.
    pose proof (random_index (random calls) (S i)) as Hj.
    set (j := Z.to_nat (floor (random calls * INR (S i + 1)))) in *.
    destruct (IH (S calls) (swap (S i) j l)) as (Hp & Hc & Hk).
    { destruct Hi as [Hi| ->]; [left|by right]. rewrite swap_length. lia. }
    split; [by rewrite Hp, swap_perm|]. split; [lia|].
    intros k Hlt. rewrite Hk by lia. apply swap_above; lia.
Qed.

(** X27: whatever [Math.random()] returns, [shuffleArray] returns a
    permutation of its argument, of the same length, after exactly
    [length - 1] calls of [Math.random()] (none for an empty array); an
    array of at most one element is returned as it is. *)
Theorem shuffleArray_permutes_its_input {A} random (array : list A) calls :
  (shuffleArray random array calls).1 ≡ₚ array /\
  length (shuffleArray random array calls).1 = length array /\
  (shuffleArray random array calls).2 = (calls + (length array - 1))%nat /\
  ((length array <= 1)%nat -> (shuffleArray random array calls).1 = array).
Proof.
  unfold shuffleArray. cbv zeta.
  destruct (shuffle_loop_spec random (length array - 1) calls array)
    as (Hp & Hc & _).
  { destruct array; [by right|]. left. simpl. lia. }
  split; [done|]. split; [by rewrite Hp|]. split; [done|].
  intros Hlen. destruct array as [|x [|y array]]; simpl in *; [done..|lia].
Qed.

End ShuffleFacts.

(** ** generateTestCandidates *)

Section CandidatesFacts.
Import TestData Candidates.
Local Open Scope R_scope.

Variable queries : list (string * testQuery).
Variable pools : list (string * list string).
Variable random : nat -> random_number.

Lemma shuffleArray_perm {A} (array : list A) calls :
  (shuffleArray random array calls).1 ≡ₚ array.
Proof.
  unfold shuffleArray. cbv zeta.
  destruct (shuffle_loop_spec random (length array - 1) calls array)
    as (Hp & _); [|done].
  destruct array; [by right|]. left. simpl. lia.
Qed.

Lemma shuffleArray_length {A} (array : list A) calls :
  length (shuffleArray random array calls).1 = length array.
Proof. by rewrite shuffleArray_perm. Qed.

Lemma get_Own {A} (table : list (string * A)) key v :
  get table key = Own v -> (key, v) ∈ table.
Proof.
  unfold get. destruct (List.find _ table) as [[k v']|] eqn:Hf.
  - intros [= <-]. apply find_some in Hf as [Hin Hk].
    apply bool_decide_eq_true in Hk. simpl in *. subst.
    by apply list_elem_of_In.
  - by case_decide.
Qed.

Lemma pool_texts_cons key keys :
  pool_texts pools (key :: keys) = pool_of pools key ++ pool_texts pools keys.
Proof. reflexivity. Qed.

Lemma pool_of_Own key pool :
  get pools key = Own pool -> pool_of pools key = pool.
Proof. intros H. unfold pool_of. by rewrite H. Qed.

Lemma elem_of_pool_texts t key keys :
  key ∈ keys -> t ∈ pool_of pools key -> t ∈ pool_texts pools keys.
Proof. intros Hk Ht. unfold pool_texts. apply list_elem_of_bind. eauto. Qed.

(** *** Collecting the unused texts *)

Lemma collect_spec used keys0 rt : forall keys acc all,
  keys ⊆ keys0 -> Forall (picked_from pools keys0 rt) acc ->
  collect pools used keys acc = Success all ->
  Forall (picked_from pools keys0 rt) all /\
  map text all =
    map text acc ++ filter (fun t => t ∉ used) (pool_texts pools keys).
Proof.
  induction keys as [|key keys IH]; intros acc all Hsub Hacc;
    cbn [collect].
  - intros [= <-]. split; [done|].
    unfold pool_texts. simpl. by rewrite filter_nil, app_nil_r.
  - destruct (get pools key) as [pool| |] eqn:Hget; [|done..].
    intros Hc. apply IH in Hc as [Hall Htexts].
    + split; [done|]. rewrite Htexts, map_app, map_map. cbn [text].
      rewrite map_id, pool_texts_cons, filter_app, <- app_assoc.
      by rewrite (pool_of_Own _ _ Hget).
    + intros k Hk. apply Hsub. by right.
    + apply Forall_app. split; [done|].
      apply Forall_fmap, Forall_forall. intros t Ht.
      apply list_elem_of_filter in Ht as [_ Ht].
      split; [done|]. cbn [text category]. split.
      * by rewrite (pool_of_Own _ _ Hget).
      * left. apply Hsub. left.
Qed.

Lemma collect_succeeds used : forall keys acc,
  all_pools pools keys = true ->
  exists all, collect pools used keys acc = Success all.
Proof.
  induction keys as [|key keys IH]; intros acc Hall; cbn [collect]; [eauto|].
  simpl in Hall. apply andb_true_iff in Hall as [Hk Hall].
  destruct (get pools key) as [pool| |]; [|done..]. by apply IH.
Qed.

(** *** Marking, slicing and padding *)

Lemma mark_used_eq sel (used : gset string) :
  mark_used sel used = used ∪ list_to_set (map text sel).
Proof.
  unfold mark_used. revert used.
  induction sel as [|d sel IH]; intros used; simpl.
  - by rewrite union_empty_r_L.
  - rewrite IH, (union_comm_L {[ text d ]} used). by rewrite union_assoc_L.
Qed.

Lemma Array_slice_sublist {A} (l : list A) (k : Z) :
  NativeEmbeddingReranker.Array_slice l 0 k `sublist_of` l.
Proof.
  destruct (Array_slice_0_take l k) as [m ->]. apply sublist_take.
Qed.

Lemma pad_step irr bound sel used :
  pad irr (S bound) sel used =
  let st := pad irr bound sel used in
  match irr !! bound with
  | Some t =>
      if decide (t ∈ st.2) then st
      else (st.1 ++ [Pooled t "irrelevant" 0], {[ t ]} ∪ st.2)
  | None => st
  end.
Proof. unfold pad, for_range. by rewrite seq_S, fold_left_app. Qed.

Lemma pad_ok used0 keys irr sel used :
  get pools "irrelevant" = Own irr ->
  picked_ok pools used0 keys "low" (sel, used) ->
  forall bound, picked_ok pools used0 keys "low" (pad irr bound sel used).
Proof.
  intros Hirr H0 bound. induction bound as [|bound IH]; [done|].
  rewrite pad_step. cbv zeta.
  destruct (irr !! bound) as [t|] eqn:Ht; [|done].
  case_decide as Hin; [done|].
  destruct IH as (Hnd & Hu & Hfresh & Hfrom).
  set (st := pad irr bound sel used) in *.
  rewrite Hu in Hin. apply not_elem_of_union in Hin as [Hin0 Hin1].
  rewrite elem_of_list_to_set in Hin1.
  split; [|split; [|split]]; cbn [fst snd].
  - rewrite map_app. apply NoDup_app. split; [done|]. split.
    + intros x Hx [->|[]%elem_of_nil]%elem_of_cons. done.
    + apply NoDup_singleton.
  - rewrite Hu, map_app, list_to_set_app_L. simpl.
    rewrite union_empty_r_L, (union_comm_L {[ t ]}). by rewrite union_assoc_L.
  - intros x. rewrite map_app, elem_of_app.
    intros [Hx|[->|[]%elem_of_nil]%elem_of_cons]; [by apply Hfresh|done].
  - apply Forall_app. split; [done|]. apply Forall_singleton.
    split; [done|]. cbn [text category]. split.
    + rewrite (pool_of_Own _ _ Hirr). by eapply list_elem_of_lookup_2.
    + by right.
Qed.

(** *** getUniqueDocuments *)

Lemma getUniqueDocuments_ok keys num rt (used : gset string) calls :
  all_pools pools keys = true -> NoDup (pool_texts pools keys) ->
  (exists irr, get pools "irrelevant" = Own irr) ->
  exists sel used' calls',
    getUniqueDocuments pools random keys num rt used calls
      = Success (sel, used', calls') /\
    picked_ok pools used keys rt (sel, used').
Proof.
  intros Hall Hnd [irr Hirr]. unfold getUniqueDocuments.
  destruct (collect_succeeds used keys [] Hall) as [all Hc]. rewrite Hc.
  destruct (collect_spec used keys rt keys [] all) as [Hfrom Htexts];
    [done|constructor|done|].
  simpl in Htexts. cbv zeta.
  pose proof (shuffleArray_perm all calls) as Hperm.
  set (shuffled := shuffleArray random all calls) in *.
  set (sel := NativeEmbeddingReranker.Array_slice shuffled.1 0
                (num `min` Z.of_nat (length shuffled.1))).
  assert (Hsub : sel `sublist_of` shuffled.1) by apply Array_slice_sublist.
  assert (Hok : picked_ok pools used keys rt (sel, mark_used sel used)).
  { split; [|split; [|split]]; cbn [fst snd].
    - apply (sublist_NoDup (map text sel) (map text shuffled.1)).
      + rewrite Hperm, Htexts. by apply NoDup_filter.
      + by apply fmap_sublist.
    - apply mark_used_eq.
    - intros t Ht.
      assert (Ht' : t ∈ map text all).
      { rewrite <- Hperm. eapply elem_of_sublist; [done|by apply fmap_sublist]. }
      rewrite Htexts in Ht'. by apply list_elem_of_filter in Ht' as [? _].
    - apply Forall_forall. intros d Hd.
      rewrite Forall_forall in Hfrom. apply Hfrom. rewrite <- Hperm.
      by eapply elem_of_sublist. }
  case_decide as Hpad.
  - destruct Hpad as [_ ->]. rewrite Hirr. eexists _, _, _.
    split; [reflexivity|].
    rewrite <- surjective_pairing. by apply pad_ok.
  - eauto.
Qed.

(** *** How many documents are picked *)

Lemma NoDup_lookup_not_before {A} (l : list A) i x :
  NoDup l -> l !! i = Some x -> x ∉ take i l.
Proof.
  intros Hnd Hi Hin. apply list_elem_of_lookup_1 in Hin as [j Hj].
  assert (Hlt : (j < i)%nat).
  { apply lookup_lt_Some in Hj. rewrite length_take in Hj. lia. }
  rewrite lookup_take_lt in Hj by done.
  pose proof (NoDup_lookup _ _ _ _ Hnd Hi Hj). lia.
Qed.

Lemma pad_length irr sel (used : gset string) :
  NoDup irr -> (forall t, t ∈ irr -> t ∉ used) ->
  forall bound, (bound <= length irr)%nat ->
    (pad irr bound sel used).2 = used ∪ list_to_set (take bound irr) /\
    length (pad irr bound sel used).1 = (length sel + bound)%nat.
Proof.
  intros Hnd Hfresh bound. induction bound as [|bound IH]; intros Hb.
  - simpl. split; [|lia]. by rewrite union_empty_r_L.
  - rewrite pad_step. cbv zeta.
    destruct (lookup_lt_is_Some_2 irr bound) as [t Ht]; [lia|].
    destruct IH as [Hu Hl]; [lia|].
    rewrite Ht. rewrite decide_False.
    + cbn [fst snd]. rewrite Hu, length_app, Hl.
      rewrite (take_S_r _ _ _ Ht), list_to_set_app_L. simpl.
      split; [|lia].
      rewrite union_empty_r_L, (union_comm_L {[ t ]}).
      by rewrite union_assoc_L.
    + rewrite Hu. apply not_elem_of_union. split.
      * apply Hfresh. by eapply list_elem_of_lookup_2.
      * rewrite elem_of_list_to_set. by apply NoDup_lookup_not_before.
Qed.

Lemma filter_all {A} (P : A -> Prop) `{!forall x, Decision (P x)}
    (l : list A) :
  (forall x, x ∈ l -> P x) -> filter P l = l.
Proof.
  induction l as [|x l IH]; intros Hl; [done|].
  rewrite filter_cons, decide_True by (apply Hl; left).
  f_equal. apply IH. intros y Hy. apply Hl. by right.
Qed.

Lemma Array_slice_0_length {A} (l : list A) (k : Z) :
  (0 <= k <= Z.of_nat (length l))%Z ->
  length (NativeEmbeddingReranker.Array_slice l 0 k) = Z.to_nat k.
Proof.
  intros Hk. rewrite Array_slice_0 by lia. rewrite length_take. lia.
Qed.

Lemma getUniqueDocuments_length keys num rt (used : gset string) calls
    irr sel used' calls' :
  get pools "irrelevant" = Own irr -> NoDup irr ->
  (0 <= num)%Z ->
  (forall t, t ∈ pool_texts pools keys -> t ∉ used) ->
  (forall t, t ∈ irr -> (t ∉ used) /\ (t ∉ pool_texts pools keys)) ->
  getUniqueDocuments pools random keys num rt used calls
    = Success (sel, used', calls') ->
  length sel =
  Z.to_nat (Z.min num
              (Z.of_nat (length (pool_texts pools keys) +
                         (if decide (rt = "low") then length irr else 0)))).
Proof.
  intros Hirr Hnd Hnum Hunused Hfresh. unfold getUniqueDocuments.
  destruct (collect pools used keys []) as [all|f] eqn:Hc; [|done].
  destruct (collect_spec used keys rt keys [] all) as [_ Htexts];
    [done|constructor|done|].
  simpl in Htexts. rewrite filter_all in Htexts by done.
  cbv zeta.
  pose proof (shuffleArray_perm all calls) as Hperm.
  pose proof (shuffleArray_length all calls) as Hlen.
  set (shuffled := shuffleArray random all calls) in *.
  assert (Hall : length shuffled.1 = length (pool_texts pools keys)).
  { rewrite Hlen, <- Htexts. by rewrite length_map. }
  set (sel0 := NativeEmbeddingReranker.Array_slice shuffled.1 0
                 (num `min` Z.of_nat (length shuffled.1))).
  assert (Hsel0 : length sel0 =
            Z.to_nat (num `min` Z.of_nat (length (pool_texts pools keys)))).
  { unfold sel0. rewrite Array_slice_0_length by lia. by rewrite Hall. }
  case_decide as Hpad.
  - destruct Hpad as [Hshort ->]. rewrite Hirr. intros [= <- _ _].
    rewrite decide_True by done.
    destruct (pad_length irr sel0 (mark_used sel0 used) Hnd) with
      (bound := Z.to_nat ((num - Z.of_nat (length sel0))
                          `min` Z.of_nat (length irr))) as [_ ->]; [|lia|lia].
    intros t Ht. rewrite mark_used_eq. apply not_elem_of_union.
    split; [by apply Hfresh|]. rewrite elem_of_list_to_set. intros Hin.
    assert (Hin' : t ∈ map text all).
    { rewrite <- Hperm. eapply elem_of_sublist; [done|].
      apply fmap_sublist, Array_slice_sublist. }
    rewrite Htexts in Hin'. by apply (Hfresh t Ht).
  - intros [= <- _ _]. apply not_and_l in Hpad. rewrite Hsel0.
    case_decide as Hlow; [|f_equal; lia].
    destruct Hpad as [Hlong|]; [|done]. lia.
Qed.

(** *** Building the candidates *)

Lemma candidates_of_cons expected n d docs :
  candidates_of expected n (d :: docs) =
  Candidate ("doc_" +:+ pretty n) (text d) ("source_" +:+ pretty (S n))
            (category d) expected (variation d)
  :: candidates_of expected (S n) docs.
Proof.
  unfold candidates_of. simpl. rewrite Nat.add_0_r. f_equal.
  apply imap_ext. intros i x _. simpl.
  by replace (n + S i)%nat with (S (n + i)) by lia.
Qed.

Lemma add_candidates_eq expected docs : forall cands n,
  add_candidates expected docs cands n =
  (cands ++ candidates_of expected n docs, (n + length docs)%nat).
Proof.
  unfold add_candidates.
  induction docs as [|d docs IH]; intros cands n.
  - simpl. by rewrite app_nil_r, Nat.add_0_r.
  - rewrite candidates_of_cons. simpl. rewrite IH. cbn [fst snd].
    rewrite <- app_assoc. simpl. f_equal. lia.
Qed.

Lemma candidates_of_length expected n docs :
  length (candidates_of expected n docs) = length docs.
Proof. unfold candidates_of. apply length_imap. Qed.

Lemma candidates_of_text expected docs : forall n,
  map candidate_text (candidates_of expected n docs) = map text docs.
Proof.
  induction docs as [|d docs IH]; intros n; [done|].
  rewrite candidates_of_cons. simpl. by rewrite IH.
Qed.

Lemma candidates_of_id expected docs : forall n,
  map id (candidates_of expected n docs) =
  map (fun i => "doc_" +:+ pretty i) (seq n (length docs)).
Proof.
  induction docs as [|d docs IH]; intros n; [done|].
  rewrite candidates_of_cons. simpl. by rewrite IH.
Qed.

Lemma candidates_of_source expected docs : forall n,
  map source (candidates_of expected n docs) =
  map (fun i => "source_" +:+ pretty (S i)) (seq n (length docs)).
Proof.
  induction docs as [|d docs IH]; intros n; [done|].
  rewrite candidates_of_cons. simpl. by rewrite IH.
Qed.

(** *** generateTestCandidates *)

Lemma generate_ok key q n opts calls :
  get queries key = Own q -> well_formed pools q ->
  exists hd md ld calls',
    generateTestCandidates queries pools random key n opts calls =
    Success (shuffleArray random
               (candidates_of "high" 0 hd ++
                candidates_of "medium" (length hd) md ++
                candidates_of "low" (length hd + length md) ld) calls') /\
    NoDup (map text (hd ++ md ++ ld)) /\
    Forall (picked_from pools (expectedHighRelevance q) "high") hd /\
    Forall (picked_from pools (expectedMediumRelevance q) "medium") md /\
    Forall (picked_from pools (expectedLowRelevance q) "low") ld.
Proof.
  intros Hget [Hlevels Hirr]. unfold generateTestCandidates. rewrite Hget.
  cbv zeta.
  destruct (Hlevels "high") as [Ha1 Hn1].
  destruct (Hlevels "medium") as [Ha2 Hn2].
  destruct (Hlevels "low") as [Ha3 Hn3].
  change (expected_pools q "high") with (expectedHighRelevance q) in *.
  change (expected_pools q "medium") with (expectedMediumRelevance q) in *.
  change (expected_pools q "low") with (expectedLowRelevance q) in *.
  set (numHigh := floor _). set (numMedium := floor _).
  destruct (getUniqueDocuments_ok (expectedHighRelevance q) numHigh "high"
              ∅ calls Ha1 Hn1 Hirr)
    as (hd & u1 & c1 & -> & Hd1 & Hu1 & Hf1 & Hp1).
  destruct (getUniqueDocuments_ok (expectedMediumRelevance q) numMedium
              "medium" u1 c1 Ha2 Hn2 Hirr)
    as (md & u2 & c2 & -> & Hd2 & Hu2 & Hf2 & Hp2).
  destruct (getUniqueDocuments_ok (expectedLowRelevance q)
              (Z.of_nat n - numHigh - numMedium) "low" u2 c2 Ha3 Hn3 Hirr)
    as (ld & u3 & c3 & -> & Hd3 & Hu3 & Hf3 & Hp3).
  cbn [fst snd] in *.
  rewrite !add_candidates_eq. cbn [fst snd].
  exists hd, md, ld, c3. rewrite app_nil_l, !Nat.add_0_l, <- app_assoc.
  split; [done|]. split; [|done].
  rewrite !map_app. apply NoDup_app. split; [done|]. split.
  - intros t Ht [Hm|Hl]%elem_of_app.
    + apply (Hf2 t Hm). rewrite Hu1. apply elem_of_union_r.
      by apply elem_of_list_to_set.
    + apply (Hf3 t Hl). rewrite Hu2, Hu1. apply elem_of_union_l.
      apply elem_of_union_r. by apply elem_of_list_to_set.
  - apply NoDup_app. split; [done|]. split; [|done].
    intros t Hm Hl. apply (Hf3 t Hl). rewrite Hu2. apply elem_of_union_r.
    by apply elem_of_list_to_set.
Qed.

Lemma picked_texts keys rt sel t :
  Forall (picked_from pools keys rt) sel -> rt <> "low" ->
  t ∈ map text sel -> t ∈ pool_texts pools keys.
Proof.
  intros Hp Hrt Ht. apply list_elem_of_fmap in Ht as (d & -> & Hd).
  rewrite Forall_forall in Hp. destruct (Hp d Hd) as (_ & Hin & [Hk|[? _]]);
    [|done].
  by eapply elem_of_pool_texts.
Qed.

Lemma generate_length key q n opts calls irr :
  get queries key = Own q -> well_formed pools q ->
  get pools "irrelevant" = Own irr ->
  NoDup (pool_texts pools (expectedHighRelevance q) ++
         pool_texts pools (expectedMediumRelevance q) ++
         pool_texts pools (expectedLowRelevance q) ++ irr) ->
  let numHigh :=
    floor (INR n * default 0.3 (highRelevanceRatio opts)) in
  let numMedium :=
    floor (INR n * default 0.3 (mediumRelevanceRatio opts)) in
  let numLow := (Z.of_nat n - numHigh - numMedium)%Z in
  (0 <= numHigh)%Z -> (0 <= numMedium)%Z -> (0 <= numLow)%Z ->
  exists out calls',
    generateTestCandidates queries pools random key n opts calls
      = Success (out, calls') /\
    length out =
    (Z.to_nat (Z.min numHigh
         (Z.of_nat (length (pool_texts pools (expectedHighRelevance q))))) +
     Z.to_nat (Z.min numMedium
         (Z.of_nat (length (pool_texts pools (expectedMediumRelevance q))))) +
     Z.to_nat (Z.min numLow
         (Z.of_nat (length (pool_texts pools (expectedLowRelevance q)) +
                    length irr))))%nat.
Proof.
  intros Hget [Hlevels Hirr'] Hirr Hnd numHigh numMedium numLow Hh Hm Hl.
  apply NoDup_app in Hnd as (_ & HH & Hnd).
  apply NoDup_app in Hnd as (_ & HM & Hnd).
  apply NoDup_app in Hnd as (_ & HL & Hnd).
  unfold generateTestCandidates. rewrite Hget. cbv zeta.
  fold numHigh numMedium. fold numLow.
  destruct (Hlevels "high") as [Ha1 Hn1].
  destruct (Hlevels "medium") as [Ha2 Hn2].
  destruct (Hlevels "low") as [Ha3 Hn3].
  change (expected_pools q "high") with (expectedHighRelevance q) in *.
  change (expected_pools q "medium") with (expectedMediumRelevance q) in *.
  change (expected_pools q "low") with (expectedLowRelevance q) in *.
  destruct (getUniqueDocuments_ok (expectedHighRelevance q) numHigh "high"
              ∅ calls Ha1 Hn1 Hirr')
    as (hd & u1 & c1 & Hg1 & Hd1 & Hu1 & Hf1 & Hp1).
  destruct (getUniqueDocuments_ok (expectedMediumRelevance q) numMedium
              "medium" u1 c1 Ha2 Hn2 Hirr')
    as (md & u2 & c2 & Hg2 & Hd2 & Hu2 & Hf2 & Hp2).
  destruct (getUniqueDocuments_ok (expectedLowRelevance q) numLow "low"
              u2 c2 Ha3 Hn3 Hirr')
    as (ld & u3 & c3 & Hg3 & Hd3 & Hu3 & Hf3 & Hp3).
  cbn [fst snd] in *.
  assert (Hin1 : forall t, t ∈ u1 ->
            t ∈ pool_texts pools (expectedHighRelevance q)).
  { intros t. rewrite Hu1, elem_of_union, elem_of_list_to_set.
    intros [[]%elem_of_empty|Ht]. by eapply picked_texts. }
  assert (Hin2 : forall t, t ∈ u2 ->
            t ∈ pool_texts pools (expectedHighRelevance q) \/
            t ∈ pool_texts pools (expectedMediumRelevance q)).
  { intros t. rewrite Hu2, elem_of_union, elem_of_list_to_set.
    intros [Ht|Ht]; [left; by apply Hin1|right; by eapply picked_texts]. }
  assert (HirrH : forall t, t ∈ irr ->
            t ∉ pool_texts pools (expectedHighRelevance q)).
  { intros t Ht Hin. apply (HH t Hin). rewrite !elem_of_app. tauto. }
  assert (HirrM : forall t, t ∈ irr ->
            t ∉ pool_texts pools (expectedMediumRelevance q)).
  { intros t Ht Hin. apply (HM t Hin). rewrite !elem_of_app. tauto. }
  assert (HirrL : forall t, t ∈ irr ->
            t ∉ pool_texts pools (expectedLowRelevance q)).
  { intros t Ht Hin. by apply (HL t Hin). }
  assert (HMH : forall t, t ∈ pool_texts pools (expectedMediumRelevance q) ->
            t ∉ pool_texts pools (expectedHighRelevance q)).
  { intros t Ht Hin. apply (HH t Hin). rewrite !elem_of_app. tauto. }
  assert (HLH : forall t, t ∈ pool_texts pools (expectedLowRelevance q) ->
            t ∉ pool_texts pools (expectedHighRelevance q)).
  { intros t Ht Hin. apply (HH t Hin). rewrite !elem_of_app. tauto. }
  assert (HLM : forall t, t ∈ pool_texts pools (expectedLowRelevance q) ->
            t ∉ pool_texts pools (expectedMediumRelevance q)).
  { intros t Ht Hin. apply (HM t Hin). rewrite !elem_of_app. tauto. }
  assert (Hl1 := getUniqueDocuments_length _ _ _ _ _ irr _ _ _ Hirr Hnd Hh
                   (fun t _ => not_elem_of_empty t)
                   (fun t Ht => conj (not_elem_of_empty t) (HirrH t Ht)) Hg1).
  assert (Hl2 := getUniqueDocuments_length _ _ _ _ _ irr _ _ _ Hirr Hnd Hm
                   (fun t Ht Hu => HMH t Ht (Hin1 t Hu))
                   (fun t Ht => conj (fun Hu => HirrH t Ht (Hin1 t Hu))
                                     (HirrM t Ht)) Hg2).
  assert (Hl3 := getUniqueDocuments_length _ _ _ _ _ irr _ _ _ Hirr Hnd Hl
                   (fun t Ht Hu => match Hin2 t Hu with
                                   | or_introl H1 => HLH t Ht H1
                                   | or_intror H2 => HLM t Ht H2
                                   end)
                   (fun t Ht => conj (fun Hu => match Hin2 t Hu with
                                                | or_introl H1 => HirrH t Ht H1
                                                | or_intror H2 => HirrM t Ht H2
                                                end)
                                     (HirrL t Ht)) Hg3).
  rewrite Hg1, Hg2, Hg3. rewrite !add_candidates_eq. cbn [fst snd].
  set (cands := ([] ++ candidates_of "high" 0 hd) ++
                candidates_of "medium" (0 + length hd) md ++
                candidates_of "low" (0 + length hd + length md) ld).
  replace ((([] ++ candidates_of "high" 0 hd) ++
            candidates_of "medium" (0 + length hd) md) ++
           candidates_of "low" (0 + length hd + length md) ld)
    with cands by (unfold cands; by rewrite <- !app_assoc).
  exists (shuffleArray random cands c3).1, (shuffleArray random cands c3).2.
  split; [by rewrite <- surjective_pairing|].
  rewrite shuffleArray_length.
  unfold cands. rewrite !length_app, !candidates_of_length. simpl length.
  rewrite Hl1, Hl2, Hl3.
  rewrite decide_False, decide_False, decide_True by done.
  rewrite !Nat.add_0_r. lia.
Qed.

End CandidatesFacts.

(** *** The tables of the suite *)

Section CandidatesOfTheSuite.
Import TestData Candidates.
Local Open Scope R_scope.

Lemma own_query key q :
  get test_queries key = Own q -> In q (map snd test_queries).
Proof.
  intros H%get_Own. apply list_elem_of_In.
  by apply (list_elem_of_fmap_2 snd) in H.
Qed.

Ltac each_query H :=
  apply own_query in H; simpl in H;
  destruct H as [<-|[<-|[<-|[<-|[]]]]].

Ltac by_computation := apply (bool_decide_unpack _); vm_compute; exact I.

Lemma test_queries_well_formed key q :
  get test_queries key = Own q -> well_formed document_pools q.
Proof.
  intros H. split; [|by eexists].
  intros level. unfold expected_pools.
  each_query H; repeat case_decide; cbn [expectedHighRelevance
    expectedMediumRelevance expectedLowRelevance];
    (split; [reflexivity|by_computation]).
Qed.

Lemma irrelevant_pool :
  get document_pools "irrelevant" = Own (pool_of document_pools "irrelevant").
Proof. reflexivity. Qed.

(** No text occurs in two pools that a query uses, the irrelevant pool
    included. *)
Lemma test_queries_disjoint key q :
  get test_queries key = Own q ->
  NoDup (pool_texts document_pools (expectedHighRelevance q) ++
         pool_texts document_pools (expectedMediumRelevance q) ++
         pool_texts document_pools (expectedLowRelevance q) ++
         pool_of document_pools "irrelevant").
Proof. intros H. each_query H; by_computation. Qed.

Lemma pool_sizes key q :
  get test_queries key = Own q ->
  (8 <= length (pool_texts document_pools (expectedHighRelevance q)) <= 16)%nat /\
  length (pool_texts document_pools (expectedMediumRelevance q)) = 8%nat /\
  (34 <= length (pool_texts document_pools (expectedLowRelevance q)) +
         length (pool_of document_pools "irrelevant"))%nat.
Proof. intros H. each_query H; vm_compute; lia. Qed.

Lemma floor_nonneg (x : R) : 0 <= x -> (0 <= floor x)%Z.
Proof.
  intros Hx. destruct (floor_bounds x) as [_ Hu].
  assert (IZR (-1) < IZR (floor x)) by lra.
  apply lt_IZR in H. lia.
Qed.

Lemma floor_below (x : R) (k : Z) : x < IZR k -> (floor x < k)%Z.
Proof.
  intros Hx. destruct (floor_bounds x) as [Hl _].
  apply lt_IZR. lra.
Qed.

Lemma floor_at_least (x : R) (k : Z) : IZR k <= x -> (k <= floor x)%Z.
Proof.
  intros Hx. destruct (floor_bounds x) as [_ Hu].
  assert (IZR k < IZR (floor x + 1)) by (rewrite plus_IZR; lra).
  apply lt_IZR in H. lia.
Qed.

Lemma candidates_of_ok q level keys n docs :
  level = "high" \/ level = "medium" \/ level = "low" ->
  expected_pools q level = keys ->
  Forall (picked_from document_pools keys level) docs ->
  Forall (candidate_ok document_pools q) (candidates_of level n docs).
Proof.
  intros Hlevel <- Hdocs. apply Forall_forall. intros c Hc.
  apply list_elem_of_lookup in Hc as [i Hc]. unfold candidates_of in Hc.
  rewrite list_lookup_imap in Hc.
  destruct (docs !! i) as [d|] eqn:Hd; [|done]. simpl in Hc.
  injection Hc as <-.
  rewrite Forall_forall in Hdocs.
  destruct (Hdocs d) as (Hv & Ht & Hk); [by eapply list_elem_of_lookup_2|].
  split; [done|]. split; [done|]. split; done.
Qed.

(** X28: for each of the four query keys of [TEST_QUERIES], whatever
    [Math.random()] returns and whatever the number and the ratios asked
    for, [generateTestCandidates] returns a shuffled copy of a list whose
    ids are [doc_0], [doc_1], ... and whose sources are [source_1],
    [source_2], ... in order; no id and no text occurs twice; every
    candidate has variation 0, a text of the pool named by its category,
    and a category that the query lists at the candidate's level (or the
    irrelevant pool, at the low level only). For a key that names a
    member of [Object.prototype] the call throws a [TypeError], for any
    other key the error for an unknown query key. *)
Theorem generateTestCandidates_returns_distinct_documents_of_the_expected_pools
    random queryKey n options calls :
  match get test_queries queryKey with
  | Own q =>
      exists out calls' cands,
        generateTestCandidates test_queries document_pools random queryKey n
          options calls = Success (out, calls') /\
        out ≡ₚ cands /\
        map id cands =
          map (fun i => "doc_" +:+ pretty i) (seq 0 (length cands)) /\
        map source cands =
          map (fun i => "source_" +:+ pretty (S i)) (seq 0 (length cands)) /\
        NoDup (map id out) /\
        NoDup (map candidate_text out) /\
        Forall (candidate_ok document_pools q) out
  | Inherited =>
      generateTestCandidates test_queries document_pools random queryKey n
        options calls = Failure TypeErr
  | Undefined =>
      generateTestCandidates test_queries document_pools random queryKey n
        options calls = Failure (UnknownQueryKey queryKey)
  end.
Proof.
  destruct (get test_queries queryKey) as [q| |] eqn:Hget;
    [|by unfold generateTestCandidates; rewrite Hget..].
  destruct (generate_ok test_queries document_pools random queryKey q n
              options calls Hget (test_queries_well_formed _ _ Hget))
    as (hd & md & ld & c & Hgen & Hnd & Hh & Hm & Hl).
  set (cands := candidates_of "high" 0 hd ++
                candidates_of "medium" (length hd) md ++
                candidates_of "low" (length hd + length md) ld) in *.
  pose proof (shuffleArray_perm random cands c) as Hperm.
  exists (shuffleArray random cands c).1, (shuffleArray random cands c).2,
    cands.
  assert (Hid : map id cands =
                map (fun i => "doc_" +:+ pretty i) (seq 0 (length cands))).
  { unfold cands. rewrite !length_app, !candidates_of_length, !map_app,
      !candidates_of_id, !seq_app, !map_app. done. }
  assert (Hsrc : map source cands =
                 map (fun i => "source_" +:+ pretty (S i))
                     (seq 0 (length cands))).
  { unfold cands. rewrite !length_app, !candidates_of_length, !map_app,
      !candidates_of_source, !seq_app, !map_app. done. }
  split; [by rewrite Hgen, <- surjective_pairing|].
  split; [done|]. split; [done|]. split; [done|].
  split; [|split].
  - rewrite Hperm, Hid.
    assert (Hinj : Inj (=) (=) (fun i : nat => "doc_" +:+ pretty i)).
    { intros i j Hij. apply (inj (String.append "doc_")) in Hij.
      by apply (inj pretty) in Hij. }
    apply (NoDup_fmap_2 _ (seq 0 (length cands))), NoDup_seq.
  - rewrite Hperm. unfold cands. rewrite !map_app, !candidates_of_text.
    by rewrite <- !map_app.
  - rewrite Hperm. unfold cands. rewrite !Forall_app.
    split; [|split]; eapply candidates_of_ok; eauto.
Qed.

(** *** The number of candidates *)

Lemma generate_count random queryKey q n options calls :
  get test_queries queryKey = Own q ->
  let numHigh :=
    floor (INR n * default 0.3 (highRelevanceRatio options)) in
  let numMedium :=
    floor (INR n * default 0.3 (mediumRelevanceRatio options)) in
  let numLow := (Z.of_nat n - numHigh - numMedium)%Z in
  (0 <= numHigh)%Z -> (0 <= numMedium)%Z -> (0 <= numLow)%Z ->
  exists out calls',
    generateTestCandidates test_queries document_pools random queryKey n
      options calls = Success (out, calls') /\
    length out =
    (Z.to_nat (Z.min numHigh
         (Z.of_nat (length (pool_texts document_pools
                              (expectedHighRelevance q))))) +
     Z.to_nat (Z.min numMedium 8) +
     Z.to_nat (Z.min numLow
         (Z.of_nat (length (pool_texts document_pools
                              (expectedLowRelevance q))) + 10)))%nat.
Proof.
  intros Hget numHigh numMedium numLow HH HM HL.
  destruct (generate_length test_queries document_pools random queryKey q n
              options calls (pool_of document_pools "irrelevant") Hget
              (test_queries_well_formed _ _ Hget) irrelevant_pool
              (test_queries_disjoint _ _ Hget) HH HM HL)
    as (out & calls' & Hgen & Hlen).
  exists out, calls'. split; [done|]. rewrite Hlen.
  destruct (pool_sizes _ _ Hget) as (_ & -> & _).
  change (length (pool_of document_pools "irrelevant")) with 10%nat.
  fold numHigh numMedium numLow. rewrite Nat2Z.inj_add. done.
Qed.

Lemma floor_of_ratio (n : nat) (ratio : R) :
  0 <= ratio -> (0 <= floor (INR n * ratio))%Z /\
  IZR (floor (INR n * ratio)) <= INR n * ratio.
Proof.
  intros Hr. split; [|apply floor_bounds].
  apply floor_nonneg. pose proof (pos_INR n). nra.
Qed.



(** X30: with the default ratios, [generateTestCandidates] returns at
    most [numCandidates] candidates, and exactly [numCandidates] if and
    only if [numCandidates] is below 30: from 30 on, the medium level asks
    for 9 texts or more and its pool has 8. *)
Theorem generateTestCandidates_by_default_fills_requests_below_30
    random queryKey q n calls :
  get test_queries queryKey = Own q ->
  exists out calls',
    generateTestCandidates test_queries document_pools random queryKey n
      (Ratios None None None) calls = Success (out, calls') /\
    (length out <= n)%nat /\
    (length out = n <-> (n < 30)%nat).
Proof.
  intros Hget.
  destruct (floor_of_ratio n 0.3) as [HH HHle]; [lra|].
  pose proof (pos_INR n) as Hn.
  assert (Hlow : (0 <= Z.of_nat n - floor (INR n * 0.3)
                       - floor (INR n * 0.3))%Z).
  { assert (IZR (floor (INR n * 0.3) + floor (INR n * 0.3))
            <= IZR (Z.of_nat n)) as Hle%le_IZR; [|lia].
    rewrite plus_IZR, <- INR_IZR_INZ. nra. }
  destruct (generate_count random queryKey q n (Ratios None None None) calls
              Hget HH HH Hlow) as (out & calls' & Hgen & Hlen).
  cbn [highRelevanceRatio mediumRelevanceRatio default] in Hlen.
  exists out, calls'. split; [done|].
  destruct (pool_sizes _ _ Hget) as (HsH & _ & HsL).
  change (length (pool_of document_pools "irrelevant")) with 10%nat in HsL.
  set (f := floor (INR n * 0.3)) in *.
  destruct (decide (n < 30)%nat) as [Hlt|Hge].
  - assert (f < 9)%Z.
    { apply floor_below. assert (INR n <= 29); [|lra].
      rewrite INR_IZR_INZ. apply IZR_le. lia. }
    split; [lia|]. split; [done|lia].
  - assert (9 <= f)%Z.
    { apply floor_at_least. assert (30 <= INR n); [|lra].
      rewrite INR_IZR_INZ. apply IZR_le. lia. }
    split; [lia|]. split; lia.
Qed.

Lemma generateTestCandidates_by_default_witness :
  exists out calls',
    generateTestCandidates test_queries document_pools no_randomness
      "software_development" 30 (Ratios None None None) 0
      = Success (out, calls') /\
    (length out < 30)%nat.
Proof.
  destruct (generateTestCandidates_by_default_fills_requests_below_30
              no_randomness "software_development"
              (TestQuery
                 "How does artificial intelligence work in software development?"
                 "AI applications in development workflows"
                 ["tech_applications"; "core_ai_ml"]
                 ["data_science_business"]
                 ["hard_science"; "humanities"; "health_lifestyle"])
              30 0 eq_refl)
    as (out & calls' & Hgen & Hle & Hiff).
  exists out, calls'. split; [exact Hgen|].
  destruct (decide (length out = 30%nat)) as [Heq|Hne]; [|lia].
  apply Hiff in Heq. lia.
Defined.

End CandidatesOfTheSuite.
